(** * Math-Count-HTW: the expression engine of [math_count_htw.py]

    The bot evaluates chat messages such as [5*(4+3)+6!] with a
    recursive-descent parser ([class Parser], [parse]) that computes the value
    while it reads.  This file embeds that parser in Rocq and proves the
    properties the specification states about it.

    Modelling conventions.
    - A Python [str] is a Rocq [string]; a character is a string of length
      one and the end-of-input sentinel of [_peek] is the empty string.  The
      character classes [str.isspace] and [str.isdigit] are those of Python
      for the code points 0..255.
    - Python numbers are [int] (unbounded, [Z]), [float] (IEEE 754 binary64,
      Rocq's primitive [float]) and [complex] (a pair of floats).  The rules
      of the mixed arithmetic are those of CPython 3.11.
    - The C library functions behind [**] are a parameter ([libm]); only the
      powers that are exactly representable are fixed by the model
      ([exact_pow]).
    - A method of [Parser] is a function from the parser object to a
      [result]: a value and the new object, or a raised exception and the
      object as it was left.  Recursion is bounded by a fuel argument;
      [parse] supplies enough of it (theorem [parse_terminates]).
    - Resource limits of the interpreter (recursion depth, memory) are not
      modelled. *)

From Stdlib Require Import ZArith String Ascii List Bool Lia.
From Stdlib Require Import PrimFloat SpecFloat FloatOps.
From stdpp Require Import base gmap sets strings.

Open Scope Z_scope.

(* ===================================================================== *)
(** * Python numbers *)
(* ===================================================================== *)

(** The built-in exceptions the arithmetic of the program can raise. *)
Inductive py_exception : Type :=
| OverflowError
| ZeroDivisionError
| TypeError
| ValueError.

(** The outcome of a Python expression: a value or a raised exception. *)
Inductive res (A : Type) : Type :=
| Val (a : A)
| Exn (e : py_exception).
Arguments Val {A} a.
Arguments Exn {A} e.

Definition res_bind {A B : Type} (m : res A) (k : A -> res B) : res B :=
  match m with
  | Val a => k a
  | Exn e => Exn e
  end.

Notation "'let*' x ':=' m 'in' k" := (res_bind m (fun x => k))
  (at level 10, x name, m at level 100, k at level 200).

Definition complex : Type := (float * float)%type.

Inductive pyval : Type :=
| VInt (z : Z)
| VFloat (f : float)
| VComplex (c : complex).

(** The functions of the C mathematics library that CPython calls when it
    computes a power. *)
Record libm : Type := {
  libm_pow : float -> float -> float;
  libm_hypot : float -> float -> float;
  libm_atan2 : float -> float -> float;
  libm_cos : float -> float;
  libm_sin : float -> float;
  libm_exp : float -> float;
  libm_log : float -> float
}.

(** ** Conversions between [int] and [float] *)

(** The float nearest to an integer (ties to even), infinite beyond the
    range of binary64. *)
Definition Z2F (z : Z) : float :=
  SF2Prim (binary_normalize prec emax z 0 false).

(** [float(n)] for an [int]: [OverflowError: int too large to convert to
    float]. *)
Definition int_to_float (z : Z) : res float :=
  let f := Z2F z in
  if is_infinity f then Exn OverflowError else Val f.

(** [float.is_integer]. *)
Definition is_integer (f : float) : bool :=
  match Prim2SF f with
  | S754_zero _ => true
  | S754_finite _ m e =>
      (0 <=? e) || (Z.pos m mod 2 ^ (- e) =? 0)
  | _ => false
  end.

(** [int(f)] for a finite float: truncation towards zero. *)
Definition float_to_int (f : float) : Z :=
  match Prim2SF f with
  | S754_finite s m e =>
      let a := if 0 <=? e then Z.pos m * 2 ^ e else Z.pos m / 2 ^ (- e) in
      if s then - a else a
  | _ => 0
  end.

(** [DOUBLE_IS_ODD_INTEGER] of floatobject.c. *)
Definition is_odd_integer (f : float) : bool :=
  is_integer f && Z.odd (float_to_int f).

(** ** Real powers *)

(** The float [m * 2 ^ e] when it is one, [None] when rounding would change
    the value or it is out of range. *)
Definition exact_float (m e : Z) : option float :=
  let r := SF2Prim (binary_normalize prec emax m e false) in
  match Prim2SF r with
  | S754_finite false m' e' =>
      if (if e <=? e' then m =? Z.pos m' * 2 ^ (e' - e)
          else m * 2 ^ (e - e') =? Z.pos m')
      then Some r else None
  | _ => None
  end.

(** [x ** y] for a float [x > 0] and a float [y] holding a whole number
    other than zero, when that power is itself a float.  With
    [x = m * 2 ^ e] the power is [m ^ y * 2 ^ (e * y)] for [y > 0]; for
    [y < 0] it is a float only if [x] is a power of two. *)
Definition exact_pow (x y : float) : option float :=
  match Prim2SF x with
  | S754_finite false m e =>
      if is_integer y then
        let n := float_to_int y in
        if 0 <? n then exact_float (Z.pos m ^ n) (e * n)
        else if (n <? 0) && (Z.pos m =? 2 ^ Z.log2 (Z.pos m))
        then exact_float 1 ((e + Z.log2 (Z.pos m)) * n)
        else None
      else None
  | _ => None
  end.

(** C's [pow] as CPython sees it.  Where the mathematical result is itself
    a float it is that float (glibc, musl, macOS and the Windows runtime all
    return an exactly representable power exactly); everywhere else the
    platform's function decides. *)
Definition c_pow (lm : libm) (x y : float) : float :=
  match exact_pow x y with
  | Some r => r
  | None => libm_pow lm x y
  end.

(** ** Complex arithmetic (complexobject.c) *)

Definition c_1 : complex := (1%float, 0%float).

Definition c_sum (a b : complex) : complex :=
  ((fst a + fst b)%float, (snd a + snd b)%float).

Definition c_diff (a b : complex) : complex :=
  ((fst a - fst b)%float, (snd a - snd b)%float).

Definition c_prod (a b : complex) : complex :=
  ((fst a * fst b - snd a * snd b)%float,
   (fst a * snd b + snd a * fst b)%float).

(** [_Py_c_quot]; [None] stands for [errno = EDOM]. *)
Definition c_quot (a b : complex) : option complex :=
  let abs_breal := if (fst b <? 0)%float then (- fst b)%float else fst b in
  let abs_bimag := if (snd b <? 0)%float then (- snd b)%float else snd b in
  if (abs_bimag <=? abs_breal)%float then
    if (abs_breal =? 0)%float then None
    else
      let ratio := (snd b / fst b)%float in
      let denom := (fst b + snd b * ratio)%float in
      Some (((fst a + snd a * ratio) / denom)%float,
            ((snd a - fst a * ratio) / denom)%float)
  else if (abs_breal <=? abs_bimag)%float then
    let ratio := (fst b / snd b)%float in
    let denom := (fst b * ratio + snd b)%float in
    Some (((fst a * ratio + snd a) / denom)%float,
          ((snd a * ratio - fst a) / denom)%float)
  else Some (nan, nan).

(** The loop of [c_powu]: binary exponentiation, lowest bit first. *)
Fixpoint c_powu_loop (n : positive) (r p : complex) : complex :=
  match n with
  | xH => c_prod r p
  | xO n' => c_powu_loop n' r (c_prod p p)
  | xI n' => c_powu_loop n' (c_prod r p) (c_prod p p)
  end.

Definition c_powu (x : complex) (n : Z) : complex :=
  match n with
  | Z.pos p => c_powu_loop p c_1 x
  | _ => c_1
  end.

Definition c_powi (x : complex) (n : Z) : option complex :=
  if 0 <? n then Some (c_powu x n) else c_quot c_1 (c_powu x (- n)).

(** [_Py_c_pow]. *)
Definition c_pow_generic (lm : libm) (a b : complex) : option complex :=
  if (fst b =? 0)%float && (snd b =? 0)%float then Some c_1
  else if (fst a =? 0)%float && (snd a =? 0)%float then
    if negb (snd b =? 0)%float || (fst b <? 0)%float then None
    else Some (0%float, 0%float)
  else
    let vabs := libm_hypot lm (fst a) (snd a) in
    let len := c_pow lm vabs (fst b) in
    let at_ := libm_atan2 lm (snd a) (fst a) in
    let phase := (at_ * fst b)%float in
    let '(len, phase) :=
      if negb (snd b =? 0)%float
      then ((len / libm_exp lm (at_ * snd b))%float,
            (phase + snd b * libm_log lm vabs)%float)
      else (len, phase) in
    Some ((len * libm_cos lm phase)%float, (len * libm_sin lm phase)%float).

(** [complex_pow]: a small whole exponent goes through [c_powi]; a result
    with an infinite component is an [OverflowError]. *)
Definition complex_pow (lm : libm) (a b : complex) : res pyval :=
  let p :=
    if (snd b =? 0)%float && is_integer (fst b)
       && (abs (fst b) <=? 100)%float
    then c_powi a (float_to_int (fst b))
    else c_pow_generic lm a b in
  match p with
  | None => Exn ZeroDivisionError
  | Some c =>
      if is_infinity (fst c) || is_infinity (snd c)
      then Exn OverflowError
      else Val (VComplex c)
  end.

(** [float_pow] of floatobject.c. *)
Definition float_pow (lm : libm) (iv iw : float) : res pyval :=
  if (iw =? 0)%float then Val (VFloat 1)
  else if is_nan iv then Val (VFloat iv)
  else if is_nan iw then Val (VFloat (if (iv =? 1)%float then 1%float else iw))
  else if is_infinity iw then
    let iv := abs iv in
    if (iv =? 1)%float then Val (VFloat 1)
    else if Bool.eqb (0 <? iw)%float (1 <? iv)%float then Val (VFloat (abs iw))
    else Val (VFloat 0)
  else if is_infinity iv then
    let iw_is_odd := is_odd_integer iw in
    if (0 <? iw)%float
    then Val (VFloat (if iw_is_odd then iv else abs iv))
    else Val (VFloat (if iw_is_odd
                      then (if (iv <? 0)%float then neg_zero else zero)
                      else zero))
  else if (iv =? 0)%float then
    if (iw <? 0)%float then Exn ZeroDivisionError
    else Val (VFloat (if is_odd_integer iw then iv else 0%float))
  else if (iv <? 0)%float && negb (is_integer iw) then
    complex_pow lm (iv, 0%float) (iw, 0%float)
  else
    let negate_result := (iv <? 0)%float && is_odd_integer iw in
    let iv := if (iv <? 0)%float then (- iv)%float else iv in
    if (iv =? 1)%float
    then Val (VFloat (if negate_result then (-1)%float else 1%float))
    else
      let ix := c_pow lm iv iw in
      if is_infinity ix then Exn OverflowError
      else Val (VFloat (if negate_result then (- ix)%float else ix)).

(** ** The operators of the evaluator on Python numbers *)

(** [TO_COMPLEX]. *)
Definition to_complex (v : pyval) : res complex :=
  match v with
  | VInt z => let* f := int_to_float z in Val (f, 0%float)
  | VFloat f => Val (f, 0%float)
  | VComplex c => Val c
  end.

(** [float(v)]. *)
Definition to_float (v : pyval) : res float :=
  match v with
  | VInt z => int_to_float z
  | VFloat f => Val f
  | VComplex _ => Exn TypeError
  end.

Definition is_complex (v : pyval) : bool :=
  match v with VComplex _ => true | _ => false end.

(** [+], [-] and [*]: exact on two [int]s, complex when an operand is,
    float otherwise. *)
Definition py_arith (fz : Z -> Z -> Z) (ff : float -> float -> float)
    (fc : complex -> complex -> complex) (a b : pyval) : res pyval :=
  match a, b with
  | VInt x, VInt y => Val (VInt (fz x y))
  | _, _ =>
      if is_complex a || is_complex b then
        let* x := to_complex a in
        let* y := to_complex b in
        Val (VComplex (fc x y))
      else
        let* x := to_float a in
        let* y := to_float b in
        Val (VFloat (ff x y))
  end.

Definition py_add : pyval -> pyval -> res pyval := py_arith Z.add add c_sum.
Definition py_sub : pyval -> pyval -> res pyval := py_arith Z.sub sub c_diff.
Definition py_mul : pyval -> pyval -> res pyval := py_arith Z.mul mul c_prod.

(** [v == 0]. *)
Definition py_eq_zero (v : pyval) : bool :=
  match v with
  | VInt z => z =? 0
  | VFloat f => (f =? 0)%float
  | VComplex c => (fst c =? 0)%float && (snd c =? 0)%float
  end.

(** [v < 0] for a real number. *)
Definition py_lt_zero (v : pyval) : bool :=
  match v with
  | VInt z => z <? 0
  | VFloat f => (f <? 0)%float
  | VComplex _ => false
  end.

(** The correctly rounded quotient of two integers ([long_true_divide]). *)
Definition int_true_divide (x y : Z) : res float :=
  if y =? 0 then Exn ZeroDivisionError
  else if x =? 0 then Val (if y <? 0 then neg_zero else zero)
  else
    let q := SF2Prim (SFdiv prec emax
                        (S754_finite (x <? 0) (Z.to_pos (Z.abs x)) 0)
                        (S754_finite (y <? 0) (Z.to_pos (Z.abs y)) 0)) in
    if is_infinity q then Exn OverflowError else Val q.

(** [a / b]. *)
Definition py_truediv (a b : pyval) : res pyval :=
  match a, b with
  | VInt x, VInt y => let* q := int_true_divide x y in Val (VFloat q)
  | _, _ =>
      if is_complex a || is_complex b then
        let* x := to_complex a in
        let* y := to_complex b in
        match c_quot x y with
        | Some c => Val (VComplex c)
        | None => Exn ZeroDivisionError
        end
      else
        let* x := to_float a in
        let* y := to_float b in
        if (y =? 0)%float then Exn ZeroDivisionError
        else Val (VFloat (x / y)%float)
  end.

(** [a ** b]. *)
Definition py_pow (lm : libm) (a b : pyval) : res pyval :=
  match a, b with
  | VInt x, VInt y =>
      if 0 <=? y then Val (VInt (x ^ y))
      else
        let* iv := int_to_float x in
        let* iw := int_to_float y in
        float_pow lm iv iw
  | _, _ =>
      if is_complex a || is_complex b then
        let* x := to_complex a in
        let* y := to_complex b in
        complex_pow lm x y
      else
        let* iv := to_float a in
        let* iw := to_float b in
        float_pow lm iv iw
  end.

(** [math.factorial]. *)
Fixpoint fact (n : nat) : Z :=
  match n with
  | O => 1
  | S k => Z.of_nat n * fact k
  end.

Definition LONG_MAX : Z := 2 ^ 63 - 1.

Definition math_factorial (n : Z) : res pyval :=
  if n <? 0 then Exn ValueError
  else if LONG_MAX <? n then Exn OverflowError
  else Val (VInt (fact (Z.to_nat n))).

(** [int(v)] for a real number that holds a whole value. *)
Definition to_int (v : pyval) : Z :=
  match v with
  | VInt z => z
  | VFloat f => float_to_int f
  | VComplex _ => 0
  end.

(** A real number that holds a whole value and is not negative. *)
Definition nonneg_whole (v : pyval) : bool :=
  match v with
  | VInt z => 0 <=? z
  | VFloat f => is_integer f && negb (f <? 0)%float
  | VComplex _ => false
  end.

(* ===================================================================== *)
(** * The parser *)
(* ===================================================================== *)

Local Open Scope string_scope.

(** ** Characters *)

Definition code (c : ascii) : N := N_of_ascii c.

(** [str.isspace] on one character. *)
Definition space_char (c : ascii) : bool :=
  let n := code c in
  ((9 <=? n) && (n <=? 13) || (28 <=? n) && (n <=? 32)
   || (n =? 133) || (n =? 160))%N.

(** [str.isdigit] on one character. *)
Definition digit_char (c : ascii) : bool :=
  let n := code c in
  ((48 <=? n) && (n <=? 57) || (n =? 178) || (n =? 179) || (n =? 185))%N.

Fixpoint all_chars (p : ascii -> bool) (s : string) : bool :=
  match s with
  | EmptyString => true
  | String c s' => p c && all_chars p s'
  end.

Definition isspace (s : string) : bool :=
  negb (s =? EmptyString) && all_chars space_char s.

Definition isdigit (s : string) : bool :=
  negb (s =? EmptyString) && all_chars digit_char s.

(** [int(digit)] for a string of one decimal digit. *)
Definition int_of_digit (s : string) : Z :=
  match s with
  | String c EmptyString => Z.of_N (code c) - 48
  | _ => 0
  end.

Definition allowed_digits : gset string :=
  {[ "1"; "2"; "3"; "4"; "5"; "6" ]}.

Definition allowed_operators : gset string :=
  {[ "+"; "-"; "*"; "/"; "^"; "!" ]}.

(** ** Errors *)

(** The message of a [ParsingError], named after the failure kind of the
    specification.
    - [EmptyInput]: "Leere Eingabe."
    - [DisallowedDigit]: "Unzulaessige Ziffer."
    - [DuplicateDigit]: "Ziffer mehrfach verwendet."
    - [DisallowedCharacter]: "Ungueltiges Zeichen. Wert erwartet."
    - [UnexpectedEnd]: "Unerwartetes Ende der Eingabe. Wert erwartet."
    - [MissingClosingParen]: "Schliessende Klammer erwartet."
    - [DivisionByZero]: "Division durch 0"
    - [InvalidPower e]: "Ungueltige Potenz: e"
    - [InvalidFactorial None]: "Fakultaet auf nicht-ganze oder negative Zahl
      angewendet."; [InvalidFactorial (Some e)]: "Fakultaetfehler: e"
    - [TrailingCharacters]: "Zusaetzliche Zeichen nach gueltigem Ausdruck." *)
Inductive message : Type :=
| EmptyInput
| DisallowedDigit
| DuplicateDigit
| DisallowedCharacter
| UnexpectedEnd
| MissingClosingParen
| DivisionByZero
| InvalidPower (e : py_exception)
| InvalidFactorial (e : option py_exception)
| TrailingCharacters.

(** What a call can raise: the program's own [ParsingError(char, msg)], or a
    built-in exception that no handler of the program catches. *)
Inductive exception : Type :=
| ParsingError (char : string) (msg : message)
| PyError (e : py_exception).

(** ** The parser object *)

(** The fields of [class Parser].  [i_history] is a ghost field: every value
    [self.i] has held, latest first; no method reads it. *)
Record Parser : Type := {
  text : string;
  i : nat;
  len : nat;
  used_digits : gset string;
  i_history : list nat
}.

(** [Parser.__init__]. *)
Definition Parser_init (text : string) : Parser :=
  {| text := text; i := 0; len := String.length text;
     used_digits := ∅; i_history := [0%nat] |}.

(** The result of a method call. *)
Inductive result (A : Type) : Type :=
| Ok (a : A) (st : Parser)
| Raise (e : exception) (st : Parser)
| OutOfFuel.
Arguments Ok {A} a st.
Arguments Raise {A} e st.
Arguments OutOfFuel {A}.

Notation "'let!' ( x , st ) ':=' m 'in' k" :=
  (match m with
   | Ok x st => k
   | Raise e st' => Raise e st'
   | OutOfFuel => OutOfFuel
   end)
  (at level 10, x name, st name, m at level 100, k at level 200).

(** [_peek]: the character under the cursor, or the empty string at the end
    of the input.  ([len] is the length of [text] in every parser object
    that [Parser_init] creates, so the index is in range where it is
    used.) *)
Definition _peek (st : Parser) : string :=
  if (i st <? len st)%nat then
    match String.get (i st) (text st) with
    | Some c => String c EmptyString
    | None => EmptyString
    end
  else EmptyString.

(** [_next]: returns what [_peek] returns and moves the cursor by one, at
    the end of the input too. *)
Definition _next (st : Parser) : string * Parser :=
  let ch := _peek st in
  (ch, {| text := text st; i := i st + 1; len := len st;
          used_digits := used_digits st;
          i_history := (i st + 1)%nat :: i_history st |}).

(** The test of the loop of [_skip_spaces]: whitespace or a backtick. *)
Definition insignificant (ch : string) : bool :=
  isspace ch || (ch =? "`").

(** The loop of [_skip_spaces]; [n] bounds the iterations. *)
Fixpoint skip_loop (n : nat) (st : Parser) : Parser :=
  match n with
  | O => st
  | S n' =>
      if insignificant (_peek st) then skip_loop n' (snd (_next st)) else st
  end.

(** [_skip_spaces]: the loop stops within [len - i] iterations (lemma
    [skip_spaces_stops]). *)
Definition _skip_spaces (st : Parser) : Parser :=
  skip_loop (len st - i st) st.

(** [self.used_digits.add(digit)]. *)
Definition add_used_digit (digit : string) (st : Parser) : Parser :=
  {| text := text st; i := i st; len := len st;
     used_digits := {[ digit ]} ∪ used_digits st;
     i_history := i_history st |}.

(** What the caller of [parse] observes. *)
Inductive outcome : Type :=
| Returns (v : pyval)
| Raises (e : exception)
| Diverges.

Section Engine.

Variable lm : libm.

(** An arithmetic step outside any [try]: an exception escapes as it is. *)
Definition lift (r : res pyval) (st : Parser) : result pyval :=
  match r with
  | Val v => Ok v st
  | Exn e => Raise (PyError e) st
  end.

(** The loop of [parse_factor]. *)
Fixpoint factor_loop (fuel : nat) (val : pyval) (st : Parser) : result pyval :=
  match fuel with
  | O => OutOfFuel
  | S fuel =>
      if _peek st =? "!" then
        let '(_, st) := _next st in
        match to_float val with
        | Exn e => Raise (PyError e) st
        | Val f =>
            if negb (is_integer f) || py_lt_zero val then
              Raise (ParsingError "!" (InvalidFactorial None)) st
            else
              let n := to_int val in
              match math_factorial n with
              | Exn e =>
                  Raise (ParsingError "!" (InvalidFactorial (Some e))) st
              | Val val =>
                  let st := _skip_spaces st in
                  factor_loop fuel val st
              end
        end
      else Ok val st
  end.

(** The methods of the grammar; the [while] loops of [parse_expression] and
    [parse_term] are [expression_loop] and [term_loop]. *)
Fixpoint parse_expression (fuel : nat) (st : Parser) : result pyval :=
  match fuel with
  | O => OutOfFuel
  | S fuel =>
      let! (val, st) := parse_term fuel st in
      expression_loop fuel val st
  end

with expression_loop (fuel : nat) (val : pyval) (st : Parser)
    : result pyval :=
  match fuel with
  | O => OutOfFuel
  | S fuel =>
      let st := _skip_spaces st in
      let ch := _peek st in
      if (ch =? "+") || (ch =? "-") then
        let '(op, st) := _next st in
        let! (rhs, st) := parse_term fuel st in
        let! (val, st) :=
          lift (if op =? "+" then py_add val rhs else py_sub val rhs) st in
        expression_loop fuel val st
      else Ok val st
  end

with parse_term (fuel : nat) (st : Parser) : result pyval :=
  match fuel with
  | O => OutOfFuel
  | S fuel =>
      let! (val, st) := parse_power fuel st in
      term_loop fuel val st
  end

with term_loop (fuel : nat) (val : pyval) (st : Parser) : result pyval :=
  match fuel with
  | O => OutOfFuel
  | S fuel =>
      let st := _skip_spaces st in
      let ch := _peek st in
      if (ch =? "*") || (ch =? "/") then
        let '(op, st) := _next st in
        let! (rhs, st) := parse_power fuel st in
        if op =? "*" then
          let! (val, st) := lift (py_mul val rhs) st in
          term_loop fuel val st
        else if py_eq_zero rhs then
          Raise (ParsingError "/" DivisionByZero) st
        else
          let! (val, st) := lift (py_truediv val rhs) st in
          term_loop fuel val st
      else Ok val st
  end

with parse_power (fuel : nat) (st : Parser) : result pyval :=
  match fuel with
  | O => OutOfFuel
  | S fuel =>
      let! (val, st) := parse_factor fuel st in
      let st := _skip_spaces st in
      if _peek st =? "^" then
        let '(_, st) := _next st in
        let! (rhs, st) := parse_power fuel st in
        match py_pow lm val rhs with
        | Val val => Ok val st
        | Exn e => Raise (ParsingError "^" (InvalidPower e)) st
        end
      else Ok val st
  end

with parse_factor (fuel : nat) (st : Parser) : result pyval :=
  match fuel with
  | O => OutOfFuel
  | S fuel =>
      let! (val, st) := parse_primary fuel st in
      let st := _skip_spaces st in
      factor_loop fuel val st
  end

with parse_primary (fuel : nat) (st : Parser) : result pyval :=
  match fuel with
  | O => OutOfFuel
  | S fuel =>
      let st := _skip_spaces st in
      let ch := _peek st in
      if ch =? "(" then
        let '(_, st) := _next st in
        let! (val, st) := parse_expression fuel st in
        let st := _skip_spaces st in
        if negb (_peek st =? ")") then
          Raise (ParsingError ")" MissingClosingParen) st
        else
          let '(_, st) := _next st in
          Ok val st
      else if isdigit ch then
        let '(digit, st) := _next st in
        if negb (bool_decide (digit ∈ allowed_digits)) then
          Raise (ParsingError digit DisallowedDigit) st
        else if bool_decide (digit ∈ used_digits st) then
          Raise (ParsingError digit DuplicateDigit) st
        else
          let st := add_used_digit digit st in
          Ok (VFloat (Z2F (int_of_digit digit))) st
      else if ch =? EmptyString then
        Raise (ParsingError EmptyString UnexpectedEnd) st
      else
        Raise (ParsingError ch DisallowedCharacter) st
  end.

(** The last lines of [parse]: a float that holds a whole number is
    returned as an [int]. *)
Definition normalize (val : pyval) : pyval :=
  match val with
  | VFloat f => if is_integer f then VInt (float_to_int f) else val
  | _ => val
  end.

(** Fuel for [parse_expression] on a parser with [n] characters left. *)
Definition fuel_for (n : nat) : nat := (5 * n + 5)%nat.

(** The body of [parse], with the parser object it leaves behind. *)
Definition parse_session (text : string) : result pyval :=
  let parser := Parser_init text in
  let parser := _skip_spaces parser in
  if (len parser <=? i parser)%nat then
    Raise (ParsingError EmptyString EmptyInput) parser
  else
    let! (val, parser) :=
      parse_expression (fuel_for (len parser - i parser)) parser in
    let parser := _skip_spaces parser in
    if negb (i parser =? len parser)%nat then
      Raise (ParsingError (_peek parser) TrailingCharacters) parser
    else Ok (normalize val) parser.

Definition parse (text : string) : outcome :=
  match parse_session text with
  | Ok v _ => Returns v
  | Raise e _ => Raises e
  | OutOfFuel => Diverges
  end.

End Engine.

(* ===================================================================== *)
(** * A sample platform *)
(* ===================================================================== *)

(** The values of glibc's functions at the arguments the concrete instances
    below reach (the square root of a float, the angle of a negative real,
    the cosine and sine of a quarter turn); NaN elsewhere. *)
Definition pi_float : float := (0x1.921fb54442d18p+1)%float.

Definition sample_libm : libm := {|
  libm_pow := fun x y => if (y =? 0.5)%float then sqrt x else nan;
  libm_hypot := fun x y => sqrt (x * x + y * y)%float;
  libm_atan2 := fun y x =>
    if (y =? 0)%float
    then (if (x <? 0)%float then pi_float else 0%float)
    else nan;
  libm_cos := fun x =>
    if (x =? pi_float * 0.5)%float then (0x1.1a62633145c07p-54)%float else nan;
  libm_sin := fun x =>
    if (x =? pi_float * 0.5)%float then 1%float else nan;
  libm_exp := fun _ => nan;
  libm_log := fun _ => nan
|}.

(* ===================================================================== *)
(** * Invariants of a parse session *)
(* ===================================================================== *)

(** [d] is the character at index [j] of [s]. *)
Definition char_at (s : string) (j : nat) (d : string) : Prop :=
  exists c, String.get j s = Some c /\ d = String c EmptyString.

(** The digit characters of a text, in order, each as a string. *)
Fixpoint digits_of (s : string) : list string :=
  match s with
  | EmptyString => []
  | String c s' =>
      if digit_char c then String c EmptyString :: digits_of s'
      else digits_of s'
  end.

(** A parser object as [parse] can hold it: the cursor is inside the text,
    it has advanced one character at a time from 0, and every digit of the
    ledger was read before the cursor. *)
Definition state_ok (st : Parser) : Prop :=
  len st = String.length (text st) /\
  (i st <= len st)%nat /\
  i_history st = rev (seq 0 (S (i st))) /\
  (forall d, d ∈ used_digits st ->
     exists j, (j < i st)%nat /\ char_at (text st) j d).

(** [st'] is [st] after some steps of the parser. *)
Definition extends (st st' : Parser) : Prop :=
  text st' = text st /\
  len st' = len st /\
  (i st <= i st')%nat /\
  used_digits st ⊆ used_digits st' /\
  (state_ok st -> state_ok st').

(** What a digit error tells about the text read so far. *)
Definition digit_error_ok (e : exception) (st : Parser) : Prop :=
  match e with
  | ParsingError d DuplicateDigit =>
      isdigit d = true /\
      exists j1 j2, (j1 < j2 < i st)%nat /\
        char_at (text st) j1 d /\ char_at (text st) j2 d
  | ParsingError d DisallowedDigit =>
      isdigit d = true /\ (d ∉ allowed_digits) /\
      exists j, (j < i st)%nat /\ char_at (text st) j d
  | _ => True
  end.

(** The digits of the text before the cursor. *)
Definition prefix_digits (st : Parser) : list string :=
  digits_of (substring 0 (i st) (text st)).

(** The ledger holds exactly the digits before the cursor, each of them
    allowed and none of them twice: the parser object of a run that has not
    failed. *)
Definition ledger_exact (st : Parser) : Prop :=
  (forall dg, dg ∈ used_digits st <-> dg ∈ prefix_digits st) /\
  NoDup (prefix_digits st) /\
  Forall (fun dg => dg ∈ allowed_digits) (prefix_digits st).

(** [st'] is [st] after some steps that all succeeded. *)
Definition advances (st st' : Parser) : Prop :=
  extends st st' /\ (state_ok st -> ledger_exact st -> ledger_exact st').

(** The postcondition every method meets, whatever its result. *)
Definition post (st : Parser) (r : result pyval) : Prop :=
  match r with
  | Ok _ st' => advances st st'
  | Raise e st' => extends st st' /\ (state_ok st -> digit_error_ok e st')
  | OutOfFuel => True
  end.

(** The parser object a call leaves behind. *)
Definition final_state {A : Type} (r : result A) : option Parser :=
  match r with
  | Ok _ st => Some st
  | Raise _ st => Some st
  | OutOfFuel => None
  end.

(** Two parser objects that differ only in one character [d] appended to the
    text of the second. *)
Definition appended (d : ascii) (st st' : Parser) : Prop :=
  text st' = text st ++ String d EmptyString /\
  len st = String.length (text st) /\
  len st' = S (len st) /\
  i st' = i st /\
  (i st <= len st)%nat /\
  used_digits st' = used_digits st.

(* ===================================================================== *)
(** * Auxiliary notions of the proofs *)
(* ===================================================================== *)

(** The characters left to read. *)
Definition room (st : Parser) : nat := (len st - i st)%nat.

(** A digit is neither skipped nor taken for an operator or a parenthesis:
    where the parser looks at one, it does what it does at the end of the
    input. *)
Definition like_end (T : string -> bool) (d : ascii) : Prop :=
  T (String d EmptyString) = T EmptyString.

(** The second run follows the first as long as the first succeeds. *)
Definition follows (d : ascii) (r r' : result pyval) : Prop :=
  forall v st1, r = Ok v st1 ->
    exists st1', r' = Ok v st1' /\ appended d st1 st1'.

(** The parser object after "4" of "4/(3-2-1)" has been read. *)
Definition C4_state : Parser :=
  {| text := "4/(3-2-1)"; i := 1; len := 9;
     used_digits := {[ "4" ]}; i_history := [1; 0]%nat |}.

(** A parser object whose cursor stands on the "!" of "3!". *)
Definition C5_state : Parser :=
  {| text := "3!"; i := 1; len := 2;
     used_digits := {[ "3" ]}; i_history := [1; 0]%nat |}.

(** The parser object after "1+" of "1+1" has been read. *)
Definition C2_state : Parser :=
  {| text := "1+1"; i := 2; len := 3;
     used_digits := {[ "1" ]}; i_history := [2; 1; 0]%nat |}.

(** Two parser objects that differ only in a text [s] appended to the text of
    the second. *)
Definition extended (s : string) (st st' : Parser) : Prop :=
  text st' = text st ++ s /\
  len st = String.length (text st) /\
  len st' = (len st + String.length s)%nat /\
  i st' = i st /\
  (i st <= len st)%nat /\
  used_digits st' = used_digits st.

(** The same, for the parser object of a run that has not failed. *)
Definition tracks (s : string) (st st' : Parser) : Prop :=
  extended s st st' /\ state_ok st /\ ledger_exact st.

(** The run on the longer text goes with the run on the shorter one as long
    as that succeeds; where the shorter text ends and a value is expected,
    the longer one has the digit [dg], which raises DuplicateDigit if the
    shorter text holds it. *)
Definition carries (s dg : string) (r r' : result pyval) : Prop :=
  (forall v st1, r = Ok v st1 ->
     exists st1', r' = Ok v st1' /\ extended s st1 st1') /\
  (forall st1, r = Raise (ParsingError EmptyString UnexpectedEnd) st1 ->
     dg ∈ digits_of (text st1) ->
     exists st1', r' = Raise (ParsingError dg DuplicateDigit) st1').

(* ===================================================================== *)
(** * Notions for the further properties of the parser *)
(* ===================================================================== *)

(** The text without its insignificant characters. *)
Fixpoint strip (s : string) : string :=
  match s with
  | EmptyString => EmptyString
  | String c s' =>
      if insignificant (String c EmptyString) then strip s'
      else String c (strip s')
  end.

(** The text from index [n] on. *)
Fixpoint string_drop (n : nat) (s : string) : string :=
  match n, s with
  | O, _ => s
  | S n', String _ s' => string_drop n' s'
  | S _, EmptyString => EmptyString
  end.

(** The part of the text the cursor has not passed. *)
Definition unread (st : Parser) : string := string_drop (i st) (text st).

Definition cursor_ok (st : Parser) : Prop :=
  len st = String.length (text st) /\ (i st <= len st)%nat.

(** Two parser objects that have the same significant characters left to
    read and the same ledger. *)
Definition same_view (st st' : Parser) : Prop :=
  cursor_ok st /\ cursor_ok st' /\
  strip (unread st) = strip (unread st') /\
  used_digits st = used_digits st'.

(** A parser object at a significant character or at the end. *)
Definition settled (st : Parser) : Prop :=
  insignificant (_peek st) = false.

(** Two results that agree, as far as neither ran out of fuel. *)
Definition agree (r r' : result pyval) : Prop :=
  match r, r' with
  | OutOfFuel, _ => True
  | _, OutOfFuel => True
  | Ok v st, Ok v' st' => v = v' /\ same_view st st'
  | Raise e _, Raise e' _ => e = e'
  | _, _ => False
  end.

(** The character [c] does not occur in [s]. *)
Definition lacks (c : ascii) (s : string) : Prop :=
  forall j, String.get j s <> Some c.

Definition is_real (v : pyval) : bool := negb (is_complex v).

Definition is_float (v : pyval) : bool :=
  match v with VFloat _ => true | _ => false end.

(** What a run on a text without "^" can produce ([floats] tells that the
    text has no "!" either): real values, floats only in the second case;
    no InvalidPower; no TypeError, and in the second case no built-in
    exception and no InvalidFactorial at all. *)
Definition value_kind (floats : bool) (v : pyval) : bool :=
  if floats then is_float v else is_real v.

Definition error_kind (floats : bool) (e : exception) : Prop :=
  match e with
  | PyError x => floats = false /\ x <> TypeError
  | ParsingError _ (InvalidPower _) => False
  | ParsingError _ (InvalidFactorial _) => floats = false
  | ParsingError _ _ => True
  end.

Definition result_kind (floats : bool) (T : string) (r : result pyval)
    : Prop :=
  match r with
  | Ok v st => value_kind floats v = true /\ text st = T
  | Raise e _ => error_kind floats e
  | OutOfFuel => True
  end.

(** [ParsingError.__str__]. *)
Definition ParsingError_str (char msg : string) : string :=
  if (0 <? String.length char)%nat
  then "Fehler bei Zeichen " ++ char ++ ": " ++ msg
  else "Fehler: " ++ msg.

(** What the character of a [ParsingError] is, by message: none for the two
    errors met at the end of the input, the operator or parenthesis at
    fault, or a character of the text [T]. *)
Definition error_char_ok (T : string) (e : exception) : Prop :=
  match e with
  | ParsingError ch EmptyInput => ch = EmptyString
  | ParsingError ch UnexpectedEnd => ch = EmptyString
  | ParsingError ch DivisionByZero => ch = "/"
  | ParsingError ch (InvalidPower _) => ch = "^"
  | ParsingError ch (InvalidFactorial _) => ch = "!"
  | ParsingError ch MissingClosingParen => ch = ")"
  | ParsingError ch DisallowedCharacter =>
      (exists j, char_at T j ch) /\ isdigit ch = false /\
      insignificant ch = false /\ ch <> "("
  | ParsingError ch TrailingCharacters =>
      (exists j, char_at T j ch) /\ insignificant ch = false
  | ParsingError ch _ => (exists j, char_at T j ch) /\ isdigit ch = true
  | PyError _ => True
  end.

Definition error_char_post (T : string) (r : result pyval) : Prop :=
  match r with
  | Ok _ st => text st = T
  | Raise e _ => error_char_ok T e
  | OutOfFuel => True
  end.

(** The two messages that come without a character. *)
Definition at_end_message (msg : message) : bool :=
  match msg with
  | EmptyInput | UnexpectedEnd => true
  | _ => false
  end.

(* ===================================================================== *)
(** * The counting game: [on_ready], [on_message], [end_game] *)

(** The handlers are coroutines of one event loop.  Between two [await]s a
    handler runs alone; at an [await] any other handler may run, and the
    awaited call to Discord completes or raises.  The model keeps exactly
    this: a handler is cut into its stretches, each a function of the
    global variables as they are when it is resumed.  The time
    [datetime.now] gives is a parameter of each stretch; no order between
    the readings is assumed.  Texts are kept as the reply they are built
    from, with the values put into them; of the formatting only its one
    failure is modelled, the [ValueError] for an int of more than 4300
    digits.  The content of a message is a string of code points 0..255,
    as the text of the parser. *)

(** ** Strings and numbers of the handlers *)

(** [str.strip()]: the characters for which [isspace] holds are removed at
    both ends. *)
Fixpoint lstrip (s : string) : string :=
  match s with
  | EmptyString => EmptyString
  | String c s' => if space_char c then lstrip s' else s
  end.

Fixpoint rstrip (s : string) : string :=
  match s with
  | EmptyString => EmptyString
  | String c s' =>
      match rstrip s' with
      | EmptyString => if space_char c then EmptyString
                       else String c EmptyString
      | r => String c r
      end
  end.

Definition str_strip (s : string) : string := rstrip (lstrip s).

(** [str.lower()] on the code points 0..255: A-Z and the accented capitals
    192..222 (but the multiplication sign 215) move up by 32. *)
Definition lower_char (c : ascii) : ascii :=
  let n := code c in
  if ((65 <=? n) && (n <=? 90)
      || (192 <=? n) && (n <=? 222) && negb (n =? 215))%N
  then ascii_of_N (n + 32) else c.

Fixpoint str_lower (s : string) : string :=
  match s with
  | EmptyString => EmptyString
  | String c s' => String (lower_char c) (str_lower s')
  end.

(** [f == n] for a float and an int: the comparison is exact. *)
Definition float_eq_int (f : float) (n : Z) : bool :=
  is_integer f && (float_to_int f =? n)%Z.

(** [v == n] for an int [n]. *)
Definition py_eq_int (v : pyval) (n : Z) : bool :=
  match v with
  | VInt z => (z =? n)%Z
  | VFloat f => float_eq_int f n
  | VComplex c => (snd c =? 0)%float && float_eq_int (fst c) n
  end.

(** Turning an int into text, as an f-string does, raises [ValueError] when
    the int has more than 4300 decimal digits (the default of
    [sys.get_int_max_str_digits()]); floats and complex numbers always
    format. *)
Definition INT_MAX_STR_DIGITS : Z := 4300.

Definition str_int_ok (z : Z) : bool :=
  (Z.abs z <? 10 ^ INT_MAX_STR_DIGITS)%Z.

Definition str_ok (v : pyval) : bool :=
  match v with
  | VInt z => str_int_ok z
  | _ => true
  end.

(** A [datetime] is the number of microseconds since [datetime.min];
    [MAX_DATETIME] is [datetime.max].  [now + timedelta(minutes=cooldown)]
    raises [OverflowError] when the sum is no [datetime]. *)
Definition MAX_DATETIME : Z := 315537897599999999.

Definition add_minutes (now cooldown : Z) : res Z :=
  let t := (now + cooldown * 60000000)%Z in
  if (0 <=? t)%Z && (t <=? MAX_DATETIME)%Z then Val t
  else Exn OverflowError.

(** ** Messages, calls and the global variables *)

Definition COUNTING_CHANNEL_ID : Z := 1445504113470341212.

(** What the handlers read of a [discord.Message]: whether
    [message.author == bot.user], [message.author.id], [.mention],
    [.display_name], [message.channel.id] and [message.content]. *)
Record Message : Type := {
  author_is_bot_user : bool;
  author_id : Z;
  author_mention : string;
  author_display_name : string;
  channel_id : Z;
  content : string
}.

Inductive emoji : Type := CrossMark | CheckMark | Hourglass | PauseButton.

(** The texts the bot sends, each with the values put into it.
    - [Greeting]: "Mal sehen, wie weit ihr diesmal kommt. ..."
    - [Rules]: "**Regeln** ..."
    - [NoHighscore]: "Ihr habt es schon sehr weit geschafft: `0`. ..."
    - [Highscore score name]: "Highscore: `score`, erreicht von name"
    - [CooldownActive remaining]: "Cooldown aktiv. Versuch's in ... wieder",
      the time from [remaining], a [timedelta] in microseconds
    - [GameStarted]: "Na endlich. Spiel laeuft. ..."
    - [TypeStart]: "Tippe `start`, um ein neues Spiel zu beginnen."
    - [DoubleTurn mention]: "mention `4/2` Zuege hintereinander? ..."
    - [WrongCount mention content new_value expected]: "mention Wer genau
      zaehlen kann, ist klar im Vorteil. content = new_value. Erwartet:
      expected"
    - [ErrorText char msg]: [str(ParsingError(char, msg))]
    - [GameOver count cooldown]: "Das Spiel ist vorbei. Ihr seid bis `count`
      gekommen. ... Naechster Versuch in cooldown Minuten." *)
Inductive reply : Type :=
| Greeting
| Rules
| NoHighscore
| Highscore (score : Z) (name : option string)
| CooldownActive (remaining : Z)
| GameStarted
| TypeStart
| DoubleTurn (mention : string)
| WrongCount (mention content : string) (new_value : pyval) (expected : Z)
| ErrorText (char : string) (msg : message)
| GameOver (count cooldown : Z).

(** The two calls to Discord: [message.add_reaction] and
    [message.channel.send] (for [on_ready], [channel.send]). *)
Inductive call : Type :=
| add_reaction (e : emoji)
| send (r : reply).

(** The global variables. *)
Record Game : Type := {
  current_count : Z;
  game_started : bool;
  cooldown_until : option Z;
  last_player_id : option Z;
  current_highscore : Z;
  current_highscore_player_name : option string
}.

Definition initial_game : Game :=
  {| current_count := 0; game_started := false; cooldown_until := None;
     last_player_id := None; current_highscore := 0;
     current_highscore_player_name := None |}.

Definition set_current_count (n : Z) (g : Game) : Game :=
  {| current_count := n; game_started := game_started g;
     cooldown_until := cooldown_until g;
     last_player_id := last_player_id g;
     current_highscore := current_highscore g;
     current_highscore_player_name := current_highscore_player_name g |}.

Definition set_game_started (b : bool) (g : Game) : Game :=
  {| current_count := current_count g; game_started := b;
     cooldown_until := cooldown_until g;
     last_player_id := last_player_id g;
     current_highscore := current_highscore g;
     current_highscore_player_name := current_highscore_player_name g |}.

Definition set_cooldown_until (t : option Z) (g : Game) : Game :=
  {| current_count := current_count g; game_started := game_started g;
     cooldown_until := t;
     last_player_id := last_player_id g;
     current_highscore := current_highscore g;
     current_highscore_player_name := current_highscore_player_name g |}.

Definition set_last_player_id (p : option Z) (g : Game) : Game :=
  {| current_count := current_count g; game_started := game_started g;
     cooldown_until := cooldown_until g;
     last_player_id := p;
     current_highscore := current_highscore g;
     current_highscore_player_name := current_highscore_player_name g |}.

Definition set_highscore (n : Z) (name : string) (g : Game) : Game :=
  {| current_count := current_count g; game_started := game_started g;
     cooldown_until := cooldown_until g;
     last_player_id := last_player_id g;
     current_highscore := n;
     current_highscore_player_name := Some name |}.

(** ** Coroutines *)

(** How a handler stops without returning: [message.content[0]] on an empty
    content, a built-in exception that no [except] clause catches, or an
    exception of a call to Discord. *)
Inductive handler_error : Type :=
| IndexError
| BuiltinError (e : py_exception)
| DiscordError.

(** An awaited call to Discord completes or raises. *)
Inductive await_result : Type := Completed | Failed.

(** A handler is a coroutine: it runs up to an [await], where other
    handlers may run, and goes on when the awaited call is over, from the
    global variables as they are by then.  [resume] gets the result of the
    call, the time [datetime.now] gives in the stretch that follows, and
    the global variables; it gives them back with the rest of the handler.
    [Hung] stands for a handler that would never come back from [parse]. *)
#[warnings="-register-all"] Inductive task : Type :=
| Finished
| Crashed (e : handler_error)
| Hung
| Awaiting (c : call) (resume : await_result -> Z -> Game -> Game * task).

(** [await c], then [k]; an exception of the call ends the handler, as no
    [except] clause of the program catches it. *)
Definition await (c : call) (k : Z -> Game -> Game * task) : task :=
  Awaiting c (fun r now g =>
    match r with
    | Completed => k now g
    | Failed => (g, Crashed DiscordError)
    end).

Definition finish : Z -> Game -> Game * task := fun _ g => (g, Finished).

(** The assignments of [end_game], after its three calls. *)
Definition end_game_reset (cooldown : Z) (now : Z) (g : Game)
    : Game * task :=
  let g := set_current_count 0 g in
  let g := set_game_started false g in
  match add_minutes now cooldown with
  | Exn e => (g, Crashed (BuiltinError e))
  | Val t =>
      let g := set_cooldown_until (Some t) g in
      let g := set_last_player_id None g in
      (g, Finished)
  end.

Definition end_game (text : reply) (cooldown : Z) (g : Game)
    : Game * task :=
  (g, await (add_reaction CrossMark) (fun _ g =>
  (g, await (send text) (fun _ g =>
  if negb (str_int_ok (current_count g) && str_int_ok cooldown)
  then (g, Crashed (BuiltinError ValueError))
  else
  (g, await (send (GameOver (current_count g) cooldown))
        (end_game_reset cooldown)))))).

(** [on_ready]; [found] tells whether [bot.get_channel] gave a channel. *)
Definition on_ready (found : bool) : task :=
  if found then await (send Greeting) finish else Finished.

Section Bot.

Variable lm : libm.

(** [on_message] from "Check game start" on. *)
Definition on_message_game (m : Message) (g : Game) : Game * task :=
  if negb (game_started g) then
    if str_lower (str_strip (content m)) =? "start" then
      let g := set_game_started true g in
      (g, await (send GameStarted) finish)
    else
      (g, await (add_reaction PauseButton) (fun _ g =>
      (g, await (send TypeStart) finish)))
  else
  if match last_player_id g with
     | Some p => (author_id m =? p)%Z
     | None => false
     end
  then
    (g, await (add_reaction CrossMark) (fun _ g =>
          end_game (DoubleTurn (author_mention m))
                   (Z.max 2 (current_count g + 1)) g))
  else
  match parse lm (str_strip (content m)) with
  | Diverges => (g, Hung)
  | Raises (PyError e) => (g, Crashed (BuiltinError e))
  | Raises (ParsingError char msg) =>
      end_game (ErrorText char msg) (Z.max 2 (current_count g + 1)) g
  | Returns new_value =>
      if py_eq_int new_value (current_count g + 1) then
        let g := set_current_count (current_count g + 1) g in
        let g := set_last_player_id (Some (author_id m)) g in
        let g :=
          if (current_highscore g <? current_count g)%Z
          then set_highscore (current_count g) (author_display_name m) g
          else g in
        (g, await (add_reaction CheckMark) finish)
      else
        if negb (str_ok new_value && str_int_ok (current_count g + 1))
        then (g, Crashed (BuiltinError ValueError))
        else
          end_game (WrongCount (author_mention m) (content m) new_value
                               (current_count g + 1))
                   (Z.max 2 (current_count g + 1)) g
  end.

Definition on_message (m : Message) (now : Z) (g : Game) : Game * task :=
  if author_is_bot_user m then (g, Finished) else
  match content m with
  | EmptyString => (g, Crashed IndexError)
  | String c0 _ =>
  if Ascii.eqb c0 "\" then (g, Finished) else
  if negb (channel_id m =? COUNTING_CHANNEL_ID)%Z then (g, Finished) else
  if (content m =? "?rules") || (content m =? "?help") then
    (g, await (send Rules) finish)
  else
  if content m =? "?highscore" then
    if (current_highscore g =? 0)%Z then
      (g, await (send NoHighscore) finish)
    else
      if negb (str_int_ok (current_highscore g))
      then (g, Crashed (BuiltinError ValueError))
      else
      (g, await (send (Highscore (current_highscore g)
                         (current_highscore_player_name g))) finish)
  else
  if Ascii.eqb c0 "?" || Ascii.eqb c0 "\" then (g, Finished) else
  match cooldown_until g with
  | Some t =>
      if (now <? t)%Z then
        (g, await (add_reaction Hourglass) (fun _ g =>
        (g, await (send (CooldownActive (t - now))) finish)))
      else on_message_game m (set_cooldown_until None g)
  | None => on_message_game m g
  end
  end.

(** ** Handlers running side by side *)

(** The global variables and the handlers that have been started, each as
    far as it has got. *)
Record System : Type := { game : Game; pool : list task }.

Definition initial_system : System :=
  {| game := initial_game; pool := [] |}.

(** What the event loop does next: it starts [on_ready] or [on_message],
    which runs up to its first [await], or it resumes handler number [k]
    of the pool at the [await] where it waits. *)
Inductive event : Type :=
| Ready (found : bool)
| Arrives (m : Message) (now : Z)
| Resumes (k : nat) (r : await_result) (now : Z).

Definition step (s : System) (e : event) : System :=
  match e with
  | Ready found => {| game := game s; pool := pool s ++ [on_ready found] |}
  | Arrives m now =>
      let (g, t) := on_message m now (game s) in
      {| game := g; pool := pool s ++ [t] |}
  | Resumes k r now =>
      match pool s !! k with
      | Some (Awaiting _ resume) =>
          let (g, t) := resume r now (game s) in
          {| game := g; pool := <[k := t]> (pool s) |}
      | _ => s
      end
  end.

Definition run_events (es : list event) : System :=
  fold_left step es initial_system.

End Bot.

(** One handler running alone from [(g, t)]: each [await] gets the next
    result and clock reading of [env]; the calls made are listed. *)
Fixpoint run (env : list (await_result * Z)) (gt : Game * task)
    : Game * task * list call :=
  match gt, env with
  | (g, Awaiting c resume), (r, now) :: env' =>
      let '(g', t', cs) := run env' (resume r now g) in
      (g', t', c :: cs)
  | _, _ => (gt, [])
  end.

(** ** What the game keeps *)

(** The count is between 0 and the highscore; a positive count belongs to a
    started game with a last player; a positive highscore has a name. *)
Definition game_ok (g : Game) : Prop :=
  (0 <= current_count g <= current_highscore g)%Z /\
  ((0 < current_count g)%Z ->
     game_started g = true /\ last_player_id g <> None) /\
  ((0 < current_highscore g)%Z -> current_highscore_player_name g <> None).

(** How the count and the highscore move. *)
Definition moves (g g' : Game) : Prop :=
  (current_highscore g <= current_highscore g')%Z /\
  (current_count g' = current_count g \/
   current_count g' = (current_count g + 1)%Z \/
   current_count g' = 0%Z) /\
  (current_highscore g' = current_highscore g ->
   current_highscore_player_name g' = current_highscore_player_name g).

(** A highscore is announced with its holder, the end of a game with a
    count that is not negative and at least two minutes of cooldown. *)
Definition call_ok (c : call) : Prop :=
  match c with
  | send (Highscore score name) => (0 < score)%Z /\ name <> None
  | send (GameOver count cooldown) => (0 <= count)%Z /\ (2 <= cooldown)%Z
  | _ => True
  end.

(** A handler that, whenever it is resumed with [game_ok] global variables,
    keeps them so, changes them by [R], makes only calls for which [good]
    holds, and never hangs. *)
Inductive obeys (R : Game -> Game -> Prop) (good : call -> Prop)
    : task -> Prop :=
| obeys_finished : obeys R good Finished
| obeys_crashed e : obeys R good (Crashed e)
| obeys_awaiting c resume :
    good c ->
    (forall r now g, game_ok g -> game_ok (fst (resume r now g))) ->
    (forall r now g, game_ok g -> R g (fst (resume r now g))) ->
    (forall r now g, game_ok g -> obeys R good (snd (resume r now g))) ->
    obeys R good (Awaiting c resume).

(** A message that gets to the game: not the bot's own, in the counting
    channel, not empty and not starting with a question mark or a
    backslash. *)
Definition reaches_game (m : Message) : bool :=
  negb (author_is_bot_user m) &&
  (channel_id m =? COUNTING_CHANNEL_ID)%Z &&
  match content m with
  | EmptyString => false
  | String c0 _ => negb (Ascii.eqb c0 "?") && negb (Ascii.eqb c0 "\")
  end.

(** The cooldown is on at time [now]. *)
Definition cooling (now : Z) (g : Game) : bool :=
  match cooldown_until g with
  | Some t => (now <? t)%Z
  | None => false
  end.

(** The author of [m] took the last turn. *)
Definition double_turn (m : Message) (g : Game) : bool :=
  match last_player_id g with
  | Some p => (author_id m =? p)%Z
  | None => false
  end.

(** What a handler does to the global variables after an [await]: nothing,
    or it ends the game; the highscore stays. *)
Definition winds_down (g g' : Game) : Prop :=
  current_highscore g' = current_highscore g /\
  current_highscore_player_name g' = current_highscore_player_name g /\
  (g' = g \/ (current_count g' = 0%Z /\ game_started g' = false)).

(** The first stretch of a handler from [g], and a later one: the global
    variables it leaves and the rest of the handler. *)
Definition step_ok (g : Game) (gt : Game * task) : Prop :=
  game_ok (fst gt) /\ moves g (fst gt) /\
  obeys winds_down call_ok (snd gt).

Definition resume_ok (g : Game) (gt : Game * task) : Prop :=
  game_ok (fst gt) /\ winds_down g (fst gt) /\
  obeys winds_down call_ok (snd gt).

Definition system_ok (s : System) : Prop :=
  game_ok (game s) /\ Forall (obeys winds_down call_ok) (pool s).

(** A message of player [id] in the counting channel, and a started game
    at a given count, for the instances below. *)
Definition player_message (id : Z) (text : string) : Message :=
  {| author_is_bot_user := false; author_id := id;
     author_mention := "<@player>"; author_display_name := "player";
     channel_id := COUNTING_CHANNEL_ID; content := text |}.

Definition running_game (count : Z) (last : option Z) : Game :=
  {| current_count := count; game_started := true; cooldown_until := None;
     last_player_id := last; current_highscore := Z.max count 3;
     current_highscore_player_name := Some "holder" |}.

(* ===================================================================== *)
(** * Basic facts about the cursor *)
(* ===================================================================== *)

Lemma get_lt_Some (s : string) (j : nat) :
  (j < String.length s)%nat -> exists c, String.get j s = Some c.
Proof.
  revert j. induction s as [|a s IH]; intros [|j] H; simpl in *;
    try lia; eauto.
  apply IH. lia.
Qed.

Lemma get_app_l (s t : string) (j : nat) :
  (j < String.length s)%nat -> String.get j (s ++ t) = String.get j s.
Proof.
  revert j. induction s as [|a s IH]; intros [|j] H; simpl in *;
    try lia; auto.
  apply IH. lia.
Qed.

Lemma get_app_end (s : string) (d : ascii) :
  String.get (String.length s) (s ++ String d EmptyString) = Some d.
Proof. induction s as [|a s IH]; simpl; auto. Qed.

Lemma length_app_one (s : string) (d : ascii) :
  String.length (s ++ String d EmptyString) = S (String.length s).
Proof. induction s as [|a s IH]; simpl; auto. Qed.

(** [_peek] returns the sentinel or the character under the cursor. *)
Lemma peek_cases (st : Parser) :
  _peek st = EmptyString \/
  exists c, _peek st = String c EmptyString /\
            String.get (i st) (text st) = Some c /\ (i st < len st)%nat.
Proof.
  unfold _peek. destruct (i st <? len st)%nat eqn:Hlt; [|by left].
  apply Nat.ltb_lt in Hlt.
  destruct (String.get (i st) (text st)) as [c|] eqn:Hget; [|by left].
  right. exists c. done.
Qed.

Lemma peek_nonempty (st : Parser) :
  _peek st <> EmptyString ->
  (i st < len st)%nat /\ char_at (text st) (i st) (_peek st).
Proof.
  intros Hne. destruct (peek_cases st) as [H|(c & Hp & Hget & Hlt)]; [done|].
  split; [done|]. exists c. by rewrite Hp.
Qed.

Lemma peek_at_end (st : Parser) :
  (len st <= i st)%nat -> _peek st = EmptyString.
Proof.
  intros H. unfold _peek.
  destruct (i st <? len st)%nat eqn:Hlt; [|done].
  apply Nat.ltb_lt in Hlt. lia.
Qed.

Lemma peek_inside (st : Parser) :
  len st = String.length (text st) -> (i st < len st)%nat ->
  _peek st <> EmptyString.
Proof.
  intros Hlen Hlt. unfold _peek.
  apply Nat.ltb_lt in Hlt as Hb. rewrite Hb.
  destruct (get_lt_Some (text st) (i st)) as [c Hc]; [lia|].
  by rewrite Hc.
Qed.

Lemma insignificant_nonempty (ch : string) :
  insignificant ch = true -> ch <> EmptyString.
Proof. intros H ->. discriminate. Qed.

Lemma eqb_nonempty (ch s : string) :
  (ch =? s) = true -> s <> EmptyString -> ch <> EmptyString.
Proof. intros H Hs. apply String.eqb_eq in H. by subst. Qed.

Lemma next_eq (st : Parser) : _next st = (_peek st, snd (_next st)).
Proof. done. Qed.

(** ** [extends] is a preorder, and each primitive step is in it *)

Lemma extends_refl (st : Parser) : extends st st.
Proof. unfold extends. split_and!; auto. Qed.

Lemma extends_trans (st1 st2 st3 : Parser) :
  extends st1 st2 -> extends st2 st3 -> extends st1 st3.
Proof.
  intros (Ht1 & Hl1 & Hi1 & Hu1 & Hk1) (Ht2 & Hl2 & Hi2 & Hu2 & Hk2).
  unfold extends. split_and!; try congruence; try lia; [set_solver | tauto].
Qed.

Lemma seq_history (n : nat) :
  rev (seq 0 (S (n + 1))) = (n + 1)%nat :: rev (seq 0 (S n)).
Proof.
  replace (S (n + 1)) with (S n + 1)%nat by lia.
  rewrite seq_app, rev_app_distr. simpl. f_equal. lia.
Qed.

Lemma extends_next (st : Parser) :
  _peek st <> EmptyString -> extends st (snd (_next st)).
Proof.
  intros Hne. apply peek_nonempty in Hne as [Hlt _].
  unfold extends, _next; cbn [snd text len i used_digits i_history].
  split_and!; try done; try lia.
  intros (Hlen & Hi & Hh & Hu).
  unfold state_ok; cbn [snd text len i used_digits i_history].
  split_and!; try done; try lia.
  - rewrite Hh. symmetry. apply seq_history.
  - intros d Hd. destruct (Hu d Hd) as (j & Hj & Hc).
    exists j. split; [lia | done].
Qed.

Lemma extends_skip_loop (n : nat) (st : Parser) : extends st (skip_loop n st).
Proof.
  revert st. induction n as [|n IH]; intros st; simpl.
  - apply extends_refl.
  - destruct (insignificant (_peek st)) eqn:Hins; [|apply extends_refl].
    eapply extends_trans; [|apply IH].
    apply extends_next. by apply insignificant_nonempty.
Qed.

Lemma extends_skip (st : Parser) : extends st (_skip_spaces st).
Proof. apply extends_skip_loop. Qed.

(** Recording the digit just read keeps the ledger behind the cursor. *)
Lemma extends_add_digit (st : Parser) :
  _peek st <> EmptyString ->
  extends st (add_used_digit (_peek st) (snd (_next st))).
Proof.
  intros Hne. pose proof (extends_next st Hne) as (Ht & Hl & Hi & Hu & Hk).
  apply peek_nonempty in Hne as [Hlt Hc].
  unfold extends, add_used_digit; cbn [text len i used_digits i_history].
  split_and!; try done; [set_solver|].
  intros Hok. destruct (Hk Hok) as (Hlen & Hi' & Hh & Hu').
  unfold state_ok; cbn [text len i used_digits i_history].
  split_and!; try done.
  intros d Hd. apply elem_of_union in Hd as [Hd|Hd].
  - apply elem_of_singleton in Hd. subst d. exists (i st).
    split; [|by rewrite Ht].
    unfold _next; cbn [snd i]. lia.
  - by apply Hu' in Hd.
Qed.

(** [_skip_spaces] ends on a significant character or at the end. *)
Lemma skip_loop_stops (n : nat) (st : Parser) :
  (len st - i st <= n)%nat -> insignificant (_peek (skip_loop n st)) = false.
Proof.
  revert st. induction n as [|n IH]; intros st Hn; simpl.
  - rewrite peek_at_end; [done | lia].
  - destruct (insignificant (_peek st)) eqn:Hins; [|done].
    apply IH. simpl.
    apply insignificant_nonempty, peek_nonempty in Hins as [Hlt _]. lia.
Qed.

Lemma skip_spaces_stops (st : Parser) :
  insignificant (_peek (_skip_spaces st)) = false.
Proof. apply skip_loop_stops. done. Qed.

(* ===================================================================== *)
(** * Every method extends the parser object *)
(* ===================================================================== *)

Arguments _peek : simpl never.
Arguments _next : simpl never.
Arguments _skip_spaces : simpl never.
Arguments add_used_digit : simpl never.

(** After [simpl] has opened a call of [_next], name the advanced parser
    object again. *)
Ltac fold_next :=
  repeat match goal with
  | |- context [ Build_Parser (text ?s) (i ?s + 1) (len ?s) (used_digits ?s)
                   ((i ?s + 1)%nat :: i_history ?s) ] =>
      change (Build_Parser (text s) (i s + 1) (len s) (used_digits s)
                ((i s + 1)%nat :: i_history s))
        with (snd (_next s))
  end.

(** ** The digits before the cursor *)

Lemma substring_step (s : string) (j : nat) (c : ascii) :
  String.get j s = Some c ->
  substring 0 (S j) s = substring 0 j s ++ String c EmptyString.
Proof.
  revert j. induction s as [|a s IH]; intros [|j] H; simpl in *;
    try discriminate.
  - simplify_eq. by destruct s.
  - by rewrite (IH j H).
Qed.

Lemma substring_full (s : string) : substring 0 (String.length s) s = s.
Proof. induction s as [|a s IH]; simpl; [done | by rewrite IH]. Qed.

Lemma digits_of_app (s t : string) :
  digits_of (s ++ t) = (digits_of s ++ digits_of t)%list.
Proof.
  induction s as [|a s IH]; simpl; [done|].
  destruct (digit_char a); simpl; by rewrite IH.
Qed.

Lemma isdigit_char (c : ascii) :
  isdigit (String c EmptyString) = digit_char c.
Proof. unfold isdigit. simpl. by rewrite andb_true_r. Qed.

Lemma isdigit_nonempty (ch : string) : isdigit ch = true -> ch <> EmptyString.
Proof. intros H ->. discriminate. Qed.

Lemma prefix_digits_next (st : Parser) :
  _peek st <> EmptyString ->
  prefix_digits (snd (_next st)) =
  (prefix_digits st ++ (if isdigit (_peek st) then [_peek st] else []))%list.
Proof.
  intros Hne. destruct (peek_cases st) as [H|(c & Hp & Hget & Hlt)]; [done|].
  unfold prefix_digits, _next; cbn [snd text i].
  rewrite Nat.add_1_r, (substring_step _ _ _ Hget), digits_of_app, Hp.
  rewrite isdigit_char. simpl. by destruct (digit_char c).
Qed.

Lemma space_not_digit (c : ascii) :
  space_char c = true -> digit_char c = false.
Proof.
  destruct c as [[] [] [] [] [] [] [] []]; intros H; try discriminate H;
    by vm_compute.
Qed.

Lemma insignificant_not_digit (ch : string) :
  insignificant ch = true -> isdigit ch = false.
Proof.
  unfold insignificant. intros H. apply orb_true_iff in H as [H|H].
  - destruct ch as [|c s]; [done|].
    unfold isspace, isdigit in *. simpl in *.
    apply andb_true_iff in H as [H _]. by rewrite (space_not_digit c H).
  - apply String.eqb_eq in H. by subst.
Qed.

(** ** [advances] is a preorder, and each successful step is in it *)

Lemma advances_refl (st : Parser) : advances st st.
Proof. split; [apply extends_refl | done]. Qed.

Lemma advances_trans (st1 st2 st3 : Parser) :
  advances st1 st2 -> advances st2 st3 -> advances st1 st3.
Proof.
  intros [He1 Hl1] [He2 Hl2]. split; [by eapply extends_trans|].
  intros Hok Hex. apply Hl2; [by apply He1 | by apply Hl1].
Qed.

(** Reading a character that is not a digit. *)
Lemma advances_next (st : Parser) :
  _peek st <> EmptyString -> isdigit (_peek st) = false ->
  advances st (snd (_next st)).
Proof.
  intros Hne Hnd. split; [by apply extends_next|].
  intros Hok (Hused & Hnodup & Hall). unfold ledger_exact.
  rewrite (prefix_digits_next st Hne), Hnd, app_nil_r. done.
Qed.

Lemma advances_skip_loop (n : nat) (st : Parser) :
  advances st (skip_loop n st).
Proof.
  revert st. induction n as [|n IH]; intros st; simpl.
  - apply advances_refl.
  - destruct (insignificant (_peek st)) eqn:Hins; [|apply advances_refl].
    eapply advances_trans; [|apply IH].
    apply advances_next;
      [by apply insignificant_nonempty | by apply insignificant_not_digit].
Qed.

Lemma advances_skip (st : Parser) : advances st (_skip_spaces st).
Proof. apply advances_skip_loop. Qed.

(** Reading an allowed digit that is not yet in the ledger. *)
Lemma advances_add_digit (st : Parser) :
  isdigit (_peek st) = true ->
  _peek st ∈ allowed_digits ->
  _peek st ∉ used_digits st ->
  advances st (add_used_digit (_peek st) (snd (_next st))).
Proof.
  intros Hd Hal Hfresh. pose proof (isdigit_nonempty _ Hd) as Hne.
  split; [by apply extends_add_digit|].
  intros Hok (Hused & Hnodup & Hall).
  assert (Hpre : prefix_digits (add_used_digit (_peek st) (snd (_next st)))
                 = (prefix_digits st ++ [_peek st])%list).
  { change (prefix_digits (add_used_digit (_peek st) (snd (_next st))))
      with (prefix_digits (snd (_next st))).
    by rewrite (prefix_digits_next st Hne), Hd. }
  unfold ledger_exact. rewrite Hpre. split_and!.
  - intros dg. unfold add_used_digit; cbn [used_digits].
    change (used_digits (snd (_next st))) with (used_digits st).
    rewrite elem_of_union, elem_of_singleton, elem_of_app.
    rewrite list_elem_of_singleton.
    rewrite Hused. tauto.
  - apply NoDup_app. split_and!; [done | | apply NoDup_singleton].
    intros dg Hin Hin'. apply list_elem_of_singleton in Hin'. subst dg.
    apply Hfresh, Hused, Hin.
  - apply Forall_app. split; [done|]. by apply Forall_singleton.
Qed.

(** ** Rules for [post] *)

Lemma post_trans (st st1 : Parser) (r : result pyval) :
  advances st st1 -> post st1 r -> post st r.
Proof.
  intros Hadv. destruct r as [v st'|e st'|]; simpl; [| |done].
  - by apply advances_trans.
  - intros [Hext' Herr]. destruct Hadv as [Hext _].
    split; [by eapply extends_trans|].
    intros Hok. apply Herr. by apply Hext.
Qed.

Lemma post_bind (st : Parser) (m : result pyval)
    (k : pyval -> Parser -> result pyval) :
  post st m ->
  (forall v st1, post st1 (k v st1)) ->
  post st (let! (v, st1) := m in k v st1).
Proof.
  intros Hm Hk. destruct m as [v st1|e st1|]; [|done..].
  eapply post_trans; [exact Hm | apply Hk].
Qed.

Lemma post_lift (st : Parser) (r : res pyval)
    (k : pyval -> Parser -> result pyval) :
  (forall v, post st (k v st)) ->
  post st (let! (v, st1) := lift r st in k v st1).
Proof.
  intros Hk. destruct r as [v|e]; simpl; [apply Hk|].
  split; [apply extends_refl | done].
Qed.

Lemma post_raise_plain (st : Parser) (e : exception) :
  digit_error_ok e st -> post st (Raise e st).
Proof. intros H. split; [apply extends_refl | done]. Qed.

Lemma post_next (st : Parser) (r : result pyval) :
  _peek st <> EmptyString -> isdigit (_peek st) = false ->
  post (snd (_next st)) r -> post st r.
Proof. intros Hne Hnd. apply post_trans. by apply advances_next. Qed.

Lemma post_skip (st : Parser) (r : result pyval) :
  post (_skip_spaces st) r -> post st r.
Proof. apply post_trans, advances_skip. Qed.

(** The character under the cursor is one of the tokens just tested for:
    it is there and it is not a digit. *)
Ltac token :=
  match goal with
  | H : (_ =? _) = true |- _ =>
      apply String.eqb_eq in H; rewrite H; done
  | H : (_ =? _) || (_ =? _) = true |- _ =>
      apply orb_true_iff in H as [H|H];
      apply String.eqb_eq in H; rewrite H; done
  end.

Lemma factor_loop_post (fuel : nat) (val : pyval) (st : Parser) :
  post st (factor_loop fuel val st).
Proof.
  revert val st. induction fuel as [|fuel IH]; intros val st; [done|].
  simpl. destruct (_peek st =? "!") eqn:Hp; [|apply advances_refl].
  fold_next.
  apply post_next; [token | token |].
  destruct (to_float val) as [f|e]; [|by apply post_raise_plain].
  destruct (negb (is_integer f) || py_lt_zero val);
    [by apply post_raise_plain|].
  destruct (math_factorial (to_int val)) as [v|e];
    [|by apply post_raise_plain].
  apply post_skip, IH.
Qed.

Section Postconditions.

Variable lm : libm.

(** The digit branch of [parse_primary]. *)
Lemma primary_digit_post (st : Parser) :
  isdigit (_peek st) = true ->
  post st
    (let '(digit, st) := _next st in
     if negb (bool_decide (digit ∈ allowed_digits)) then
       Raise (ParsingError digit DisallowedDigit) st
     else if bool_decide (digit ∈ used_digits st) then
       Raise (ParsingError digit DuplicateDigit) st
     else
       let st := add_used_digit digit st in
       Ok (VFloat (Z2F (int_of_digit digit))) st).
Proof.
  intros Hd. rewrite (next_eq st). cbn beta iota.
  pose proof (isdigit_nonempty _ Hd) as Hne.
  pose proof (extends_next st Hne) as Hext.
  pose proof (peek_nonempty st Hne) as [Hlt Hc].
  assert (Hi : i (snd (_next st)) = S (i st))
    by (unfold _next; cbn [snd i]; lia).
  assert (Ht : text (snd (_next st)) = text st) by done.
  assert (Hu : used_digits (snd (_next st)) = used_digits st) by done.
  case_bool_decide as Hal; simpl.
  - case_bool_decide as Hused.
    + split; [done|]. intros Hok. simpl. split; [done|].
      destruct Hok as (_ & _ & _ & Hled).
      destruct (Hled (_peek st) Hused) as (j & Hj & Hcj).
      exists j, (i st). split_and!; try done; lia.
    + apply advances_add_digit; [done | done |].
      by change (used_digits (snd (_next st))) with (used_digits st) in Hused.
  - split; [done|]. intros Hok. simpl. split_and!; try done.
    exists (i st). split; [lia | done].
Qed.

Theorem methods_post (fuel : nat) :
  (forall st, post st (parse_expression lm fuel st)) /\
  (forall val st, post st (expression_loop lm fuel val st)) /\
  (forall st, post st (parse_term lm fuel st)) /\
  (forall val st, post st (term_loop lm fuel val st)) /\
  (forall st, post st (parse_power lm fuel st)) /\
  (forall st, post st (parse_factor lm fuel st)) /\
  (forall st, post st (parse_primary lm fuel st)).
Proof.
  induction fuel as [|fuel (IHe & IHel & IHt & IHtl & IHpw & IHf & IHp)];
    [by repeat split|].
  split_and!.
  - (* parse_expression *)
    intros st. simpl. apply post_bind; [apply IHt | apply IHel].
  - (* expression_loop *)
    intros val st. simpl. apply post_skip.
    destruct ((_peek (_skip_spaces st) =? "+")
              || (_peek (_skip_spaces st) =? "-")) eqn:Hop;
      [|apply advances_refl].
    fold_next.
    apply post_next; [token | token |].
    apply post_bind; [apply IHt|]. intros rhs st1.
    apply post_lift. intros v. apply IHel.
  - (* parse_term *)
    intros st. simpl. apply post_bind; [apply IHpw | apply IHtl].
  - (* term_loop *)
    intros val st. simpl. apply post_skip.
    destruct ((_peek (_skip_spaces st) =? "*")
              || (_peek (_skip_spaces st) =? "/")) eqn:Hop;
      [|apply advances_refl].
    fold_next.
    apply post_next; [token | token |].
    apply post_bind; [apply IHpw|]. intros rhs st1.
    destruct (_peek (_skip_spaces st) =? "*").
    + apply post_lift. intros v. apply IHtl.
    + destruct (py_eq_zero rhs); [by apply post_raise_plain|].
      apply post_lift. intros v. apply IHtl.
  - (* parse_power *)
    intros st. simpl. apply post_bind; [apply IHf|]. intros val st1.
    apply post_skip.
    destruct (_peek (_skip_spaces st1) =? "^") eqn:Hop; [|apply advances_refl].
    fold_next.
    apply post_next; [token | token |].
    apply post_bind; [apply IHpw|]. intros rhs st2.
    destruct (py_pow lm val rhs); [apply advances_refl|].
    by apply post_raise_plain.
  - (* parse_factor *)
    intros st. simpl. apply post_bind; [apply IHp|]. intros val st1.
    apply post_skip, factor_loop_post.
  - (* parse_primary *)
    intros st. simpl. apply post_skip.
    destruct (_peek (_skip_spaces st) =? "(") eqn:Hop.
    { fold_next.
      apply post_next; [token | token |].
      apply post_bind; [apply IHe|]. intros val st1.
      apply post_skip.
      destruct (_peek (_skip_spaces st1) =? ")") eqn:Hcl; simpl;
        [|split; [apply extends_refl | done]].
      fold_next.
      apply advances_next; token. }
    destruct (isdigit (_peek (_skip_spaces st))) eqn:Hd.
    { by apply primary_digit_post. }
    destruct (_peek (_skip_spaces st) =? EmptyString);
      by apply post_raise_plain.
Qed.

End Postconditions.

(* ===================================================================== *)
(** * The fuel [parse] supplies is enough *)
(* ===================================================================== *)

Lemma extends_room (st st' : Parser) :
  extends st st' -> (room st' <= room st)%nat.
Proof. intros (_ & Hl & Hi & _). unfold room. lia. Qed.

Lemma skip_room (st : Parser) : (room (_skip_spaces st) <= room st)%nat.
Proof. apply extends_room, extends_skip. Qed.

Lemma next_room (st : Parser) :
  _peek st <> EmptyString -> (S (room (snd (_next st))) <= room st)%nat.
Proof.
  intros Hne. apply peek_nonempty in Hne as [Hlt _].
  unfold room, _next; cbn [snd i len]. lia.
Qed.

Lemma ok_room (st st1 : Parser) (r : result pyval) (v : pyval) :
  post st r -> r = Ok v st1 -> (room st1 <= room st)%nat.
Proof. intros Hp ->. by apply extends_room, Hp. Qed.

Lemma fuel_bind (m : result pyval) (k : pyval -> Parser -> result pyval) :
  m <> OutOfFuel ->
  (forall v st1, m = Ok v st1 -> k v st1 <> OutOfFuel) ->
  (let! (v, st1) := m in k v st1) <> OutOfFuel.
Proof. intros Hm Hk. destruct m; [by apply Hk | done | done]. Qed.

Lemma fuel_lift (r : res pyval) (st : Parser)
    (k : pyval -> Parser -> result pyval) :
  (forall v, k v st <> OutOfFuel) ->
  (let! (v, st1) := lift r st in k v st1) <> OutOfFuel.
Proof. intros Hk. destruct r; simpl; [apply Hk | done]. Qed.

Lemma factor_loop_fueled (fuel : nat) (val : pyval) (st : Parser) :
  (room st + 1 <= fuel)%nat -> factor_loop fuel val st <> OutOfFuel.
Proof.
  revert val st. induction fuel as [|fuel IH]; intros val st Hf; [lia|].
  simpl. destruct (_peek st =? "!") eqn:Hp; [|done].
  fold_next.
  assert (Hne : _peek st <> EmptyString) by by eapply eqb_nonempty.
  pose proof (next_room st Hne) as Hr.
  destruct (to_float val) as [f|e]; [|done].
  destruct (negb (is_integer f) || py_lt_zero val); [done|].
  destruct (math_factorial (to_int val)) as [v|e]; [|done].
  apply IH. pose proof (skip_room (snd (_next st))). lia.
Qed.

Section Fuel.

Variable lm : libm.

Theorem methods_fueled (fuel : nat) :
  (forall st, (5 * room st + 5 <= fuel)%nat ->
     parse_expression lm fuel st <> OutOfFuel) /\
  (forall val st, (5 * room st + 1 <= fuel)%nat ->
     expression_loop lm fuel val st <> OutOfFuel) /\
  (forall st, (5 * room st + 4 <= fuel)%nat ->
     parse_term lm fuel st <> OutOfFuel) /\
  (forall val st, (5 * room st + 1 <= fuel)%nat ->
     term_loop lm fuel val st <> OutOfFuel) /\
  (forall st, (5 * room st + 3 <= fuel)%nat ->
     parse_power lm fuel st <> OutOfFuel) /\
  (forall st, (5 * room st + 2 <= fuel)%nat ->
     parse_factor lm fuel st <> OutOfFuel) /\
  (forall st, (5 * room st + 1 <= fuel)%nat ->
     parse_primary lm fuel st <> OutOfFuel).
Proof.
  induction fuel as [|fuel (IHe & IHel & IHt & IHtl & IHpw & IHf & IHp)];
    [repeat split; intros; lia|].
  destruct (methods_post lm fuel) as (Pe & Pel & Pt & Ptl & Ppw & Pf & Pp).
  split_and!.
  - (* parse_expression *)
    intros st Hf. simpl. apply fuel_bind; [apply IHt; lia|].
    intros v st1 Hm. apply IHel.
    pose proof (ok_room _ _ _ _ (Pt st) Hm). lia.
  - (* expression_loop *)
    intros val st Hf. simpl. pose proof (skip_room st) as Hs.
    destruct ((_peek (_skip_spaces st) =? "+")
              || (_peek (_skip_spaces st) =? "-")) eqn:Hop; [|done].
    fold_next.
    assert (Hne : _peek (_skip_spaces st) <> EmptyString).
    { apply orb_true_iff in Hop as [H|H]; by eapply eqb_nonempty. }
    pose proof (next_room _ Hne) as Hn.
    apply fuel_bind; [apply IHt; lia|].
    intros rhs st1 Hm. pose proof (ok_room _ _ _ _ (Pt _) Hm).
    apply fuel_lift. intros v. apply IHel. lia.
  - (* parse_term *)
    intros st Hf. simpl. apply fuel_bind; [apply IHpw; lia|].
    intros v st1 Hm. apply IHtl.
    pose proof (ok_room _ _ _ _ (Ppw st) Hm). lia.
  - (* term_loop *)
    intros val st Hf. simpl. pose proof (skip_room st) as Hs.
    destruct ((_peek (_skip_spaces st) =? "*")
              || (_peek (_skip_spaces st) =? "/")) eqn:Hop; [|done].
    fold_next.
    assert (Hne : _peek (_skip_spaces st) <> EmptyString).
    { apply orb_true_iff in Hop as [H|H]; by eapply eqb_nonempty. }
    pose proof (next_room _ Hne) as Hn.
    apply fuel_bind; [apply IHpw; lia|].
    intros rhs st1 Hm. pose proof (ok_room _ _ _ _ (Ppw _) Hm).
    destruct (_peek (_skip_spaces st) =? "*").
    + apply fuel_lift. intros v. apply IHtl. lia.
    + destruct (py_eq_zero rhs); [done|].
      apply fuel_lift. intros v. apply IHtl. lia.
  - (* parse_power *)
    intros st Hf. simpl. apply fuel_bind; [apply IHf; lia|].
    intros val st1 Hm. pose proof (ok_room _ _ _ _ (Pf st) Hm).
    pose proof (skip_room st1) as Hs.
    destruct (_peek (_skip_spaces st1) =? "^") eqn:Hop; [|done].
    fold_next.
    assert (Hne : _peek (_skip_spaces st1) <> EmptyString)
      by by eapply eqb_nonempty.
    pose proof (next_room _ Hne) as Hn.
    apply fuel_bind; [apply IHpw; lia|].
    intros rhs st2 Hm2. by destruct (py_pow lm val rhs).
  - (* parse_factor *)
    intros st Hf. simpl. apply fuel_bind; [apply IHp; lia|].
    intros val st1 Hm. pose proof (ok_room _ _ _ _ (Pp st) Hm).
    pose proof (skip_room st1) as Hs.
    apply factor_loop_fueled. lia.
  - (* parse_primary *)
    intros st Hf. simpl. pose proof (skip_room st) as Hs.
    destruct (_peek (_skip_spaces st) =? "(") eqn:Hop.
    { fold_next.
      assert (Hne : _peek (_skip_spaces st) <> EmptyString)
        by by eapply eqb_nonempty.
      pose proof (next_room _ Hne) as Hn.
      apply fuel_bind; [apply IHe; lia|].
      intros val st1 Hm.
      by destruct (negb (_peek (_skip_spaces st1) =? ")")). }
    destruct (isdigit (_peek (_skip_spaces st))).
    { fold_next.
      destruct (negb _); [done|]. by destruct (bool_decide _). }
    by destruct (_peek (_skip_spaces st) =? EmptyString).
Qed.

(** [parse] never runs out of fuel: the model covers every run. *)
Theorem parse_session_total (input : string) :
  parse_session lm input <> OutOfFuel.
Proof.
  unfold parse_session.
  set (st := _skip_spaces (Parser_init input)).
  destruct (len st <=? i st)%nat; [done|].
  apply fuel_bind.
  - apply (methods_fueled (fuel_for (len st - i st))).
    unfold fuel_for, room. lia.
  - intros val st1 _.
    by destruct (negb (i (_skip_spaces st1) =? len (_skip_spaces st1))%nat).
Qed.

Theorem parse_terminates (input : string) : parse lm input <> Diverges.
Proof.
  unfold parse. pose proof (parse_session_total input).
  by destruct (parse_session lm input).
Qed.

End Fuel.

(* ===================================================================== *)
(** * Whole sessions *)
(* ===================================================================== *)

Lemma init_ok (input : string) : state_ok (Parser_init input).
Proof.
  unfold state_ok, Parser_init; cbn [text len i used_digits i_history].
  split_and!; try done; try lia.
Qed.

Lemma session_post (lm : libm) (input : string) :
  post (Parser_init input) (parse_session lm input).
Proof.
  unfold parse_session. apply post_skip.
  set (st := _skip_spaces (Parser_init input)).
  destruct (len st <=? i st)%nat; [by apply post_raise_plain|].
  apply post_bind; [apply (methods_post lm)|].
  intros val st1. apply post_skip.
  destruct (negb (i (_skip_spaces st1) =? len (_skip_spaces st1))%nat).
  - by apply post_raise_plain.
  - apply advances_refl.
Qed.

(** The parser object at the end of a session. *)
Lemma session_final (lm : libm) (input : string) (st : Parser) :
  final_state (parse_session lm input) = Some st ->
  extends (Parser_init input) st /\ state_ok st.
Proof.
  intros Hfin. pose proof (session_post lm input) as Hp.
  assert (Hext : extends (Parser_init input) st).
  { destruct (parse_session lm input) as [v st'|e st'|]; simpl in *;
      simplify_eq; [apply Hp | tauto]. }
  split; [done|]. apply Hext, init_ok.
Qed.

(** ** Digits of the text *)

Lemma digits_of_in (s : string) (j : nat) (c : ascii) :
  String.get j s = Some c -> digit_char c = true ->
  String c EmptyString ∈ digits_of s.
Proof.
  revert j. induction s as [|a s IH]; intros [|j] Hget Hd; simpl in *;
    try discriminate.
  - simplify_eq. rewrite Hd. apply list_elem_of_here.
  - destruct (digit_char a); [apply list_elem_of_further|]; eauto.
Qed.

Lemma digits_of_twice (s : string) (j1 j2 : nat) (c : ascii) :
  (j1 < j2)%nat ->
  String.get j1 s = Some c -> String.get j2 s = Some c ->
  digit_char c = true -> ~ NoDup (digits_of s).
Proof.
  revert j1 j2.
  induction s as [|a s IH]; intros j1 j2 Hlt H1 H2 Hd Hnd; simpl in *;
    [by destruct j1|].
  destruct j2 as [|j2]; [lia|]. destruct j1 as [|j1].
  - simplify_eq. rewrite Hd in Hnd. apply NoDup_cons in Hnd as [Hnot _].
    apply Hnot. by eapply digits_of_in.
  - apply (IH j1 j2); try done; [lia|].
    destruct (digit_char a); [by apply NoDup_cons in Hnd as [_ ?]|done].
Qed.

Lemma char_at_digit_in (s d : string) (j : nat) :
  char_at s j d -> isdigit d = true -> d ∈ digits_of s.
Proof.
  intros (c & Hget & ->) Hd. rewrite isdigit_char in Hd.
  by eapply digits_of_in.
Qed.

Lemma char_at_twice (s d : string) (j1 j2 : nat) :
  (j1 < j2)%nat -> char_at s j1 d -> char_at s j2 d -> isdigit d = true ->
  ~ NoDup (digits_of s).
Proof.
  intros Hlt (c & Hget1 & ->) (c' & Hget2 & Heq) Hd. simplify_eq.
  rewrite isdigit_char in Hd. by eapply digits_of_twice.
Qed.

(** A digit error of [parse] names a digit of the text: a repeated one for
    [DuplicateDigit], one outside the alphabet for [DisallowedDigit]. *)
Lemma session_digit_error (lm : libm) (input : string) (e : exception) :
  parse lm input = Raises e ->
  exists st, text st = input /\ digit_error_ok e st.
Proof.
  unfold parse. intros Hp.
  pose proof (session_post lm input) as Hpost.
  destruct (parse_session lm input) as [v st|e' st|]; try discriminate.
  simplify_eq. destruct Hpost as [(Ht & _) Herr].
  exists st. split; [done|]. apply Herr, init_ok.
Qed.

(* ===================================================================== *)
(** * A digit appended to the text *)
(* ===================================================================== *)

Lemma digit_like_end (d : ascii) :
  digit_char d = true ->
  like_end insignificant d /\
  like_end (fun ch => (ch =? "+") || (ch =? "-")) d /\
  like_end (fun ch => (ch =? "*") || (ch =? "/")) d /\
  like_end (fun ch => ch =? "^") d /\
  like_end (fun ch => ch =? "!") d.
Proof.
  unfold like_end.
  destruct d as [[] [] [] [] [] [] [] []]; intros H; try discriminate H;
    by vm_compute.
Qed.

Section Appended.

Variable lm : libm.
Variable d : ascii.
Hypothesis d_digit : digit_char d = true.

Lemma appended_peek (st st' : Parser) :
  appended d st st' ->
  ((i st < len st)%nat /\ _peek st <> EmptyString /\ _peek st' = _peek st) \/
  (i st = len st /\ _peek st = EmptyString /\ _peek st' = String d EmptyString).
Proof.
  intros (Ht & Hlen & Hlen' & Hi & Hle & Hu).
  destruct (decide (i st < len st)%nat) as [Hlt|Hge].
  - left. split; [done|]. split; [by apply peek_inside|].
    unfold _peek. rewrite Hi, Hlen', Ht.
    apply Nat.ltb_lt in Hlt as Hb. rewrite Hb.
    assert (Hb' : (i st <? S (len st))%nat = true) by (apply Nat.ltb_lt; lia).
    rewrite Hb', get_app_l; [done | lia].
  - right. assert (Heq : i st = len st) by lia.
    split; [done|]. split; [apply peek_at_end; lia|].
    unfold _peek. rewrite Hi, Hlen', Ht, Heq.
    assert (Hb' : (len st <? S (len st))%nat = true) by (apply Nat.ltb_lt; lia).
    rewrite Hb', Hlen, get_app_end. done.
Qed.

(** A test that cannot tell [d] from the end gives the same answer on both
    parser objects. *)
Lemma appended_test (T : string -> bool) (st st' : Parser) :
  like_end T d -> appended d st st' -> T (_peek st') = T (_peek st).
Proof.
  intros HT Happ.
  destruct (appended_peek st st' Happ) as [(_ & _ & ->)|(_ & -> & ->)]; done.
Qed.

Lemma appended_next (st st' : Parser) :
  appended d st st' -> _peek st <> EmptyString ->
  appended d (snd (_next st)) (snd (_next st')).
Proof.
  intros Happ Hne. apply peek_nonempty in Hne as [Hlt _].
  destruct Happ as (Ht & Hlen & Hlen' & Hi & Hle & Hu).
  unfold appended, _next; cbn [snd text len i used_digits].
  split_and!; try done; lia.
Qed.

Lemma appended_skip_loop (n : nat) (st st' : Parser) :
  appended d st st' -> (room st <= n)%nat ->
  appended d (skip_loop n st) (skip_loop (S n) st').
Proof.
  destruct (digit_like_end d d_digit) as (Hins & _).
  revert st st'. induction n as [|n IH]; intros st st' Happ Hn.
  - cbn [skip_loop]. rewrite (appended_test insignificant st st' Hins Happ).
    rewrite peek_at_end; [done|]. unfold room in Hn. lia.
  - change (skip_loop (S (S n)) st')
      with (if insignificant (_peek st')
            then skip_loop (S n) (snd (_next st')) else st').
    change (skip_loop (S n) st)
      with (if insignificant (_peek st)
            then skip_loop n (snd (_next st)) else st).
    rewrite (appended_test insignificant st st' Hins Happ).
    destruct (insignificant (_peek st)) eqn:Hp; [|done].
    apply insignificant_nonempty in Hp.
    apply IH; [by apply appended_next|].
    pose proof (next_room st Hp). lia.
Qed.

Lemma appended_skip (st st' : Parser) :
  appended d st st' -> appended d (_skip_spaces st) (_skip_spaces st').
Proof.
  intros Happ. unfold _skip_spaces.
  destruct Happ as (Ht & Hlen & Hlen' & Hi & Hle & Hu) eqn:E. clear E.
  replace (len st' - i st')%nat with (S (len st - i st)) by lia.
  apply appended_skip_loop; [|done].
  unfold appended. by split_and!.
Qed.

Lemma appended_add (digit : string) (st st' : Parser) :
  appended d st st' ->
  appended d (add_used_digit digit st) (add_used_digit digit st').
Proof.
  intros (Ht & Hlen & Hlen' & Hi & Hle & Hu).
  unfold appended, add_used_digit; cbn [text len i used_digits].
  split_and!; try done. by rewrite Hu.
Qed.

Lemma follows_bind (m m' : result pyval)
    (k k' : pyval -> Parser -> result pyval) :
  follows d m m' ->
  (forall v st1 st1', appended d st1 st1' -> follows d (k v st1) (k' v st1')) ->
  follows d (let! (v, st1) := m in k v st1) (let! (v, st1) := m' in k' v st1).
Proof.
  intros Hm Hk v st2 Hr.
  destruct m as [v1 st1|e st1|]; try discriminate.
  destruct (Hm v1 st1 eq_refl) as (st1' & -> & Happ).
  by eapply Hk.
Qed.

Lemma follows_lift (r : res pyval) (st st' : Parser)
    (k k' : pyval -> Parser -> result pyval) :
  (forall v, follows d (k v st) (k' v st')) ->
  follows d (let! (v, st1) := lift r st in k v st1)
          (let! (v, st1) := lift r st' in k' v st1).
Proof. intros Hk. destruct r as [v|e]; simpl; [apply Hk | by intros ? ?]. Qed.

Lemma follows_ok (v : pyval) (st st' : Parser) :
  appended d st st' -> follows d (Ok v st) (Ok v st').
Proof. intros Happ v' st1 [= <- <-]. eauto. Qed.

Lemma follows_raise (e : exception) (st : Parser) (r' : result pyval) :
  follows d (Raise e st) r'.
Proof. by intros ? ?. Qed.

Lemma factor_loop_follows (fuel fuel' : nat) (val : pyval)
    (st st' : Parser) :
  (fuel <= fuel')%nat -> appended d st st' ->
  follows d (factor_loop fuel val st) (factor_loop fuel' val st').
Proof.
  destruct (digit_like_end d d_digit) as (_ & _ & _ & _ & Hbang).
  revert fuel' val st st'.
  induction fuel as [|fuel IH]; intros fuel' val st st' Hf Happ;
    [by intros ? ?|].
  destruct fuel' as [|fuel']; [lia|]. simpl.
  rewrite (appended_test (fun ch => ch =? "!") st st' Hbang Happ).
  destruct (_peek st =? "!") eqn:Hp; [|by apply follows_ok].
  fold_next.
  assert (Hne : _peek st <> EmptyString) by by eapply eqb_nonempty.
  pose proof (appended_next st st' Happ Hne) as Happ1.
  destruct (to_float val) as [f|e]; [|apply follows_raise].
  destruct (negb (is_integer f) || py_lt_zero val); [apply follows_raise|].
  destruct (math_factorial (to_int val)) as [v|e]; [|apply follows_raise].
  apply IH; [lia | by apply appended_skip].
Qed.

Lemma primary_digit_follows (digit : string) (st st' : Parser) :
  appended d st st' ->
  follows d
    (if negb (bool_decide (digit ∈ allowed_digits)) then
       Raise (ParsingError digit DisallowedDigit) st
     else if bool_decide (digit ∈ used_digits st) then
       Raise (ParsingError digit DuplicateDigit) st
     else
       let st := add_used_digit digit st in
       Ok (VFloat (Z2F (int_of_digit digit))) st)
    (if negb (bool_decide (digit ∈ allowed_digits)) then
       Raise (ParsingError digit DisallowedDigit) st'
     else if bool_decide (digit ∈ used_digits st') then
       Raise (ParsingError digit DuplicateDigit) st'
     else
       let st' := add_used_digit digit st' in
       Ok (VFloat (Z2F (int_of_digit digit))) st').
Proof.
  intros Happ.
  destruct (negb _); [apply follows_raise|].
  assert (Hu : used_digits st' = used_digits st) by apply Happ.
  rewrite Hu.
  destruct (bool_decide _); [apply follows_raise|].
  by apply follows_ok, appended_add.
Qed.

Theorem methods_follow (fuel : nat) :
  (forall fuel' st st', (fuel <= fuel')%nat -> appended d st st' ->
     follows d (parse_expression lm fuel st) (parse_expression lm fuel' st')) /\
  (forall fuel' val st st', (fuel <= fuel')%nat -> appended d st st' ->
     follows d (expression_loop lm fuel val st)
             (expression_loop lm fuel' val st')) /\
  (forall fuel' st st', (fuel <= fuel')%nat -> appended d st st' ->
     follows d (parse_term lm fuel st) (parse_term lm fuel' st')) /\
  (forall fuel' val st st', (fuel <= fuel')%nat -> appended d st st' ->
     follows d (term_loop lm fuel val st) (term_loop lm fuel' val st')) /\
  (forall fuel' st st', (fuel <= fuel')%nat -> appended d st st' ->
     follows d (parse_power lm fuel st) (parse_power lm fuel' st')) /\
  (forall fuel' st st', (fuel <= fuel')%nat -> appended d st st' ->
     follows d (parse_factor lm fuel st) (parse_factor lm fuel' st')) /\
  (forall fuel' st st', (fuel <= fuel')%nat -> appended d st st' ->
     follows d (parse_primary lm fuel st) (parse_primary lm fuel' st')).
Proof.
  destruct (digit_like_end d d_digit) as (_ & Hadd & Hmul & Hpow & _).
  induction fuel as [|fuel (IHe & IHel & IHt & IHtl & IHpw & IHf & IHp)];
    [by repeat split; intros; intros ? ?|].
  split_and!.
  - (* parse_expression *)
    intros [|fuel'] st st' Hf Happ; [lia|]. simpl.
    apply follows_bind; [apply IHt; [lia|done]|].
    intros v st1 st1' Happ1. apply IHel; [lia|done].
  - (* expression_loop *)
    intros [|fuel'] val st st' Hf Happ; [lia|]. simpl.
    pose proof (appended_skip st st' Happ) as Hsk.
    rewrite (appended_test _ _ _ Hadd Hsk).
    destruct ((_peek (_skip_spaces st) =? "+")
              || (_peek (_skip_spaces st) =? "-")) eqn:Hop;
      [|by apply follows_ok].
    fold_next.
    assert (Hne : _peek (_skip_spaces st) <> EmptyString).
    { apply orb_true_iff in Hop as [H|H]; by eapply eqb_nonempty. }
    destruct (appended_peek _ _ Hsk) as [(_ & _ & Hpk)|(_ & Hpk & _)];
      [|done].
    rewrite Hpk.
    apply follows_bind;
      [apply IHt; [lia | by apply appended_next]|].
    intros rhs st1 st1' Happ1.
    apply follows_lift. intros v. apply IHel; [lia|done].
  - (* parse_term *)
    intros [|fuel'] st st' Hf Happ; [lia|]. simpl.
    apply follows_bind; [apply IHpw; [lia|done]|].
    intros v st1 st1' Happ1. apply IHtl; [lia|done].
  - (* term_loop *)
    intros [|fuel'] val st st' Hf Happ; [lia|]. simpl.
    pose proof (appended_skip st st' Happ) as Hsk.
    rewrite (appended_test _ _ _ Hmul Hsk).
    destruct ((_peek (_skip_spaces st) =? "*")
              || (_peek (_skip_spaces st) =? "/")) eqn:Hop;
      [|by apply follows_ok].
    fold_next.
    assert (Hne : _peek (_skip_spaces st) <> EmptyString).
    { apply orb_true_iff in Hop as [H|H]; by eapply eqb_nonempty. }
    destruct (appended_peek _ _ Hsk) as [(_ & _ & Hpk)|(_ & Hpk & _)];
      [|done].
    rewrite Hpk.
    apply follows_bind;
      [apply IHpw; [lia | by apply appended_next]|].
    intros rhs st1 st1' Happ1.
    destruct (_peek (_skip_spaces st) =? "*").
    + apply follows_lift. intros v. apply IHtl; [lia|done].
    + destruct (py_eq_zero rhs); [apply follows_raise|].
      apply follows_lift. intros v. apply IHtl; [lia|done].
  - (* parse_power *)
    intros [|fuel'] st st' Hf Happ; [lia|]. simpl.
    apply follows_bind; [apply IHf; [lia|done]|].
    intros val st1 st1' Happ1.
    pose proof (appended_skip st1 st1' Happ1) as Hsk.
    rewrite (appended_test _ _ _ Hpow Hsk).
    destruct (_peek (_skip_spaces st1) =? "^") eqn:Hop;
      [|by apply follows_ok].
    fold_next.
    assert (Hne : _peek (_skip_spaces st1) <> EmptyString)
      by by eapply eqb_nonempty.
    apply follows_bind;
      [apply IHpw; [lia | by apply appended_next]|].
    intros rhs st2 st2' Happ2.
    destruct (py_pow lm val rhs); [by apply follows_ok | apply follows_raise].
  - (* parse_factor *)
    intros [|fuel'] st st' Hf Happ; [lia|]. simpl.
    apply follows_bind; [apply IHp; [lia|done]|].
    intros val st1 st1' Happ1.
    apply factor_loop_follows; [lia | by apply appended_skip].
  - (* parse_primary *)
    intros [|fuel'] st st' Hf Happ; [lia|]. simpl.
    pose proof (appended_skip st st' Happ) as Hsk.
    destruct (appended_peek _ _ Hsk) as [(_ & Hne & Hpk)|(_ & Hpk & _)].
    2:{ rewrite Hpk. simpl. apply follows_raise. }
    rewrite Hpk.
    destruct (_peek (_skip_spaces st) =? "(") eqn:Hop.
    { fold_next.
      apply follows_bind;
        [apply IHe; [lia | by apply appended_next]|].
      intros val st1 st1' Happ1.
      pose proof (appended_skip st1 st1' Happ1) as Hsk1.
      destruct (appended_peek _ _ Hsk1) as [(_ & Hne1 & Hpk1)|(_ & Hpk1 & _)].
      2:{ rewrite Hpk1. simpl. apply follows_raise. }
      rewrite Hpk1.
      destruct (_peek (_skip_spaces st1) =? ")"); simpl;
        [|apply follows_raise].
      fold_next. by apply follows_ok, appended_next. }
    destruct (isdigit (_peek (_skip_spaces st))) eqn:Hd.
    { fold_next.
      apply (primary_digit_follows _ (snd (_next (_skip_spaces st)))
               (snd (_next (_skip_spaces st')))).
      by apply (appended_next (_skip_spaces st) (_skip_spaces st')). }
    destruct (_peek (_skip_spaces st) =? EmptyString); apply follows_raise.
Qed.

End Appended.

(* ===================================================================== *)
(** * More on whole sessions *)
(* ===================================================================== *)

Lemma init_exact (input : string) : ledger_exact (Parser_init input).
Proof.
  unfold ledger_exact, prefix_digits, Parser_init; cbn [text i used_digits].
  assert (Hsub : substring 0 0 input = EmptyString) by by destruct input.
  rewrite Hsub. simpl. split_and!; [set_solver | constructor | constructor].
Qed.

(** A session that returns has read the whole text. *)
Lemma session_ok_at_end (lm : libm) (input : string) (v : pyval)
    (st : Parser) :
  parse_session lm input = Ok v st -> i st = len st.
Proof.
  unfold parse_session.
  destruct (len _ <=? i _)%nat; [discriminate|].
  destruct (parse_expression lm _ _) as [val st1|e st1|]; try discriminate.
  destruct (i (_skip_spaces st1) =? len (_skip_spaces st1))%nat eqn:Heq;
    simpl; [|discriminate].
  intros [= _ <-]. by apply Nat.eqb_eq.
Qed.

(** A session that returns has met every digit of the text once, and all of
    them are allowed. *)
Theorem returns_digits_once (lm : libm) (input : string) (v : pyval) :
  parse lm input = Returns v ->
  NoDup (digits_of input) /\
  Forall (fun dg => dg ∈ allowed_digits) (digits_of input).
Proof.
  unfold parse. intros Hp.
  destruct (parse_session lm input) as [v' st|e st|] eqn:Hs; try discriminate.
  pose proof (session_post lm input) as Hpost. rewrite Hs in Hpost.
  destruct Hpost as [Hext Hled].
  pose proof (Hled (init_ok input) (init_exact input)) as (_ & Hnd & Hall).
  destruct Hext as (Ht & Hl & _ & _ & Hok).
  destruct (Hok (init_ok input)) as (Hlen & _).
  apply session_ok_at_end in Hs.
  unfold prefix_digits in *. rewrite Hs, Hlen, substring_full, Ht in *.
  done.
Qed.

Lemma used_skip_loop (n : nat) (st : Parser) :
  used_digits (skip_loop n st) = used_digits st.
Proof.
  revert st. induction n as [|n IH]; intros st; simpl; [done|].
  destruct (insignificant (_peek st)); [|done]. by rewrite IH.
Qed.

Lemma used_skip (st : Parser) :
  used_digits (_skip_spaces st) = used_digits st.
Proof. apply used_skip_loop. Qed.

Lemma allowed_digit_cases (dg : string) :
  dg ∈ allowed_digits ->
  dg = "1" \/ dg = "2" \/ dg = "3" \/ dg = "4" \/ dg = "5" \/ dg = "6".
Proof.
  unfold allowed_digits. rewrite !elem_of_union, !elem_of_singleton. tauto.
Qed.

Lemma allowed_is_digit (dg : string) :
  dg ∈ allowed_digits ->
  exists c, dg = String c EmptyString /\ digit_char c = true.
Proof.
  intros H. apply allowed_digit_cases in H.
  destruct H as [->|[->|[->|[->|[->| ->]]]]]; eexists; split; done.
Qed.

(** The rule of the ledger, at the one place that reads a digit. *)
Lemma primary_rejects_used_digit (lm : libm) (fuel : nat) (st : Parser)
    (dg : string) :
  _peek (_skip_spaces st) = dg ->
  dg ∈ allowed_digits ->
  dg ∈ used_digits st ->
  parse_primary lm (S fuel) st =
  Raise (ParsingError dg DuplicateDigit) (snd (_next (_skip_spaces st))).
Proof.
  intros Hpk Hal Hused. simpl. fold_next. rewrite Hpk.
  assert (Hparen : (dg =? "(") = false /\ isdigit dg = true).
  { apply allowed_digit_cases in Hal.
    by destruct Hal as [->|[->|[->|[->|[->| ->]]]]]. }
  destruct Hparen as [-> ->].
  rewrite (bool_decide_eq_true_2 _ Hal). simpl.
  rewrite bool_decide_eq_true_2; [done|]. by rewrite used_skip.
Qed.

(** Text made of insignificant characters only is skipped to its end. *)
Lemma skip_loop_all (n : nat) (st : Parser) :
  len st = String.length (text st) ->
  (room st <= n)%nat ->
  (forall j c, (i st <= j)%nat -> String.get j (text st) = Some c ->
     insignificant (String c EmptyString) = true) ->
  (len st <= i (skip_loop n st))%nat.
Proof.
  revert st. induction n as [|n IH]; intros st Hlen Hn Hall; simpl.
  - unfold room in Hn. lia.
  - destruct (peek_cases st) as [Hp|(c & Hp & Hget & Hlt)].
    + rewrite Hp. simpl.
      destruct (decide (i st < len st)%nat) as [Hlt|]; [|lia].
      by destruct (peek_inside st Hlen Hlt).
    + rewrite Hp, (Hall (i st) c); [|lia|done].
      assert (Hne : _peek st <> EmptyString) by by rewrite Hp.
      pose proof (next_room st Hne).
      apply (IH (snd (_next st))); [done | lia |].
      intros j c' Hj. apply Hall. unfold _next in Hj; cbn [snd i] in Hj. lia.
Qed.

Lemma all_chars_get (p : ascii -> bool) (s : string) (j : nat) (c : ascii) :
  all_chars p s = true -> String.get j s = Some c -> p c = true.
Proof.
  revert j. induction s as [|a s IH]; intros [|j] Hall Hget; simpl in *;
    try discriminate; apply andb_true_iff in Hall as [Ha Hs].
  - by simplify_eq.
  - by eapply IH.
Qed.

(* ===================================================================== *)
(** * Two texts with the same significant characters *)
(* ===================================================================== *)

Lemma string_drop_get (s : string) (j : nat) (c : ascii) :
  String.get j s = Some c ->
  string_drop j s = String c (string_drop (S j) s).
Proof.
  revert j. induction s as [|a s IH]; intros [|j] H; simpl in *;
    try discriminate.
  - simplify_eq. by destruct s.
  - rewrite (IH j H). by destruct s.
Qed.

Lemma string_drop_end (s : string) (j : nat) :
  (String.length s <= j)%nat -> string_drop j s = EmptyString.
Proof.
  revert j. induction s as [|a s IH]; intros [|j] H; simpl in *;
    try done; try lia.
  apply IH. lia.
Qed.

(** What is left to read, one character at a time. *)
Lemma unread_cases (st : Parser) :
  cursor_ok st ->
  (_peek st = EmptyString /\ unread st = EmptyString) \/
  (exists c, _peek st = String c EmptyString /\
             unread st = String c (unread (snd (_next st))) /\
             (i st < len st)%nat).
Proof.
  intros [Hlen Hle]. destruct (peek_cases st) as [Hp|(c & Hp & Hget & Hlt)].
  - left. split; [done|]. unfold unread. apply string_drop_end.
    destruct (decide (i st < len st)%nat) as [Hlt|]; [|lia].
    by destruct (peek_inside st Hlen Hlt).
  - right. exists c. split_and!; [done| |done].
    unfold unread, _next; cbn [snd i text].
    rewrite Nat.add_1_r. by apply string_drop_get.
Qed.

Lemma cursor_ok_next (st : Parser) :
  cursor_ok st -> _peek st <> EmptyString -> cursor_ok (snd (_next st)).
Proof.
  intros [Hlen Hle] Hne. apply peek_nonempty in Hne as [Hlt _].
  unfold cursor_ok, _next; cbn [snd i len text]. split; [done | lia].
Qed.

Lemma cursor_ok_skip (st : Parser) :
  cursor_ok st -> cursor_ok (_skip_spaces st).
Proof.
  intros Hok. unfold _skip_spaces. generalize (len st - i st)%nat.
  intros n. revert st Hok. induction n as [|n IH]; intros st Hok; simpl;
    [done|].
  destruct (insignificant (_peek st)) eqn:Hins; [|done].
  apply IH, cursor_ok_next; [done | by apply insignificant_nonempty].
Qed.

Lemma strip_unread_skip (st : Parser) :
  cursor_ok st -> strip (unread (_skip_spaces st)) = strip (unread st).
Proof.
  intros Hok. unfold _skip_spaces. generalize (len st - i st)%nat.
  intros n. revert st Hok. induction n as [|n IH]; intros st Hok; simpl;
    [done|].
  destruct (insignificant (_peek st)) eqn:Hins; [|done].
  rewrite IH by (apply cursor_ok_next;
                 [done | by apply insignificant_nonempty]).
  destruct (unread_cases st Hok) as [[Hp _]|(c & Hp & Hun & _)].
  - by rewrite Hp in Hins.
  - rewrite Hun. simpl. rewrite Hp in Hins. by rewrite Hins.
Qed.

Lemma settled_unread (st : Parser) :
  cursor_ok st -> settled st ->
  strip (unread st) = _peek st ++ strip (unread (snd (_next st))) /\
  (_peek st = EmptyString -> strip (unread st) = EmptyString).
Proof.
  intros Hok Hset.
  destruct (unread_cases st Hok) as [[Hp Hun]|(c & Hp & Hun & _)].
  - assert (Hend : unread (snd (_next st)) = EmptyString).
    { unfold unread, _next; cbn [snd i text]. apply string_drop_end.
      destruct Hok as [Hlen Hle].
      destruct (decide (i st < len st)%nat) as [Hlt|]; [|lia].
      by destruct (peek_inside st Hlen Hlt). }
    by rewrite Hp, Hun, Hend.
  - unfold settled in Hset. rewrite Hp in *. rewrite Hun at 1. simpl.
    rewrite Hset. done.
Qed.

Lemma same_view_peek (st st' : Parser) :
  same_view st st' -> settled st -> settled st' -> _peek st' = _peek st.
Proof.
  intros (Hok & Hok' & Hstrip & _) Hs Hs'.
  destruct (settled_unread st Hok Hs) as [H1 H1e].
  destruct (settled_unread st' Hok' Hs') as [H2 H2e].
  destruct (peek_cases st) as [Hp|(c & Hp & _)],
           (peek_cases st') as [Hp'|(c' & Hp' & _)].
  - by rewrite Hp, Hp'.
  - rewrite (H1e Hp) in Hstrip. rewrite H2, Hp' in Hstrip. discriminate.
  - rewrite (H2e Hp') in Hstrip. rewrite H1, Hp in Hstrip. discriminate.
  - rewrite H1, H2, Hp, Hp' in Hstrip. simpl in Hstrip.
    injection Hstrip as -> _. by rewrite Hp, Hp'.
Qed.

Lemma same_view_next (st st' : Parser) :
  same_view st st' -> settled st -> settled st' ->
  _peek st <> EmptyString ->
  same_view (snd (_next st)) (snd (_next st')).
Proof.
  intros Hv Hs Hs' Hne.
  pose proof (same_view_peek st st' Hv Hs Hs') as Hpk.
  destruct Hv as (Hok & Hok' & Hstrip & Hused).
  destruct (settled_unread st Hok Hs) as [H1 _].
  destruct (settled_unread st' Hok' Hs') as [H2 _].
  unfold same_view. split_and!.
  - by apply cursor_ok_next.
  - apply cursor_ok_next; [done | by rewrite Hpk].
  - rewrite H1, H2, Hpk in Hstrip.
    destruct (peek_cases st) as [Hp|(c & Hp & _)]; [done|].
    rewrite Hp in Hstrip. simpl in Hstrip. by injection Hstrip.
  - done.
Qed.

Lemma same_view_skip (st st' : Parser) :
  same_view st st' ->
  same_view (_skip_spaces st) (_skip_spaces st') /\
  settled (_skip_spaces st) /\ settled (_skip_spaces st') /\
  _peek (_skip_spaces st') = _peek (_skip_spaces st).
Proof.
  intros (Hok & Hok' & Hstrip & Hused).
  assert (Hv : same_view (_skip_spaces st) (_skip_spaces st')).
  { unfold same_view. split_and!; try by apply cursor_ok_skip.
    - by rewrite !strip_unread_skip.
    - by rewrite !used_skip. }
  split_and!; [done | apply skip_spaces_stops | apply skip_spaces_stops |].
  apply same_view_peek; [done | apply skip_spaces_stops..].
Qed.

Lemma same_view_add (digit : string) (st st' : Parser) :
  same_view st st' ->
  same_view (add_used_digit digit st) (add_used_digit digit st').
Proof.
  intros (Hok & Hok' & Hstrip & Hused).
  unfold same_view, cursor_ok, unread, add_used_digit in *;
    cbn [text len i used_digits] in *.
  destruct Hok, Hok'. split_and!; try done. by rewrite Hused.
Qed.

(** ** Rules for [agree] *)

Lemma agree_out_r (r : result pyval) : agree r OutOfFuel.
Proof. by destruct r. Qed.

Lemma agree_bind (m m' : result pyval)
    (k k' : pyval -> Parser -> result pyval) :
  agree m m' ->
  (forall v st1 st1', same_view st1 st1' -> agree (k v st1) (k' v st1')) ->
  agree (let! (v, st1) := m in k v st1) (let! (v, st1) := m' in k' v st1).
Proof.
  intros Hm Hk.
  destruct m as [v st1|e st1|], m' as [v' st1'|e' st1'|]; simpl in *;
    try done.
  - destruct Hm as [<- Hv]. by apply Hk.
  - apply agree_out_r.
Qed.

Lemma agree_lift (r : res pyval) (st st' : Parser)
    (k k' : pyval -> Parser -> result pyval) :
  (forall v, agree (k v st) (k' v st')) ->
  agree (let! (v, st1) := lift r st in k v st1)
        (let! (v, st1) := lift r st' in k' v st1).
Proof. intros Hk. destruct r as [v|x]; simpl; [apply Hk | done]. Qed.

Lemma factor_loop_agree (fuel fuel' : nat) (val : pyval)
    (st st' : Parser) :
  same_view st st' -> settled st -> settled st' ->
  agree (factor_loop fuel val st) (factor_loop fuel' val st').
Proof.
  revert fuel' val st st'.
  induction fuel as [|fuel IH]; intros fuel' val st st' Hv Hs Hs'; [done|].
  destruct fuel' as [|fuel']; [apply agree_out_r|]. simpl.
  rewrite (same_view_peek st st' Hv Hs Hs').
  destruct (_peek st =? "!") eqn:Hp; [|done].
  fold_next.
  assert (Hne : _peek st <> EmptyString) by by eapply eqb_nonempty.
  pose proof (same_view_next st st' Hv Hs Hs' Hne) as Hv1.
  destruct (to_float val) as [f|x]; [|done].
  destruct (negb (is_integer f) || py_lt_zero val); [done|].
  destruct (math_factorial (to_int val)) as [v|x]; [|done].
  destruct (same_view_skip _ _ Hv1) as (Hv2 & Hs2 & Hs2' & _).
  by apply IH.
Qed.

Section Agreement.

Variable lm : libm.

Theorem methods_agree (fuel : nat) :
  (forall fuel' st st', same_view st st' ->
     agree (parse_expression lm fuel st) (parse_expression lm fuel' st')) /\
  (forall fuel' val st st', same_view st st' ->
     agree (expression_loop lm fuel val st)
           (expression_loop lm fuel' val st')) /\
  (forall fuel' st st', same_view st st' ->
     agree (parse_term lm fuel st) (parse_term lm fuel' st')) /\
  (forall fuel' val st st', same_view st st' ->
     agree (term_loop lm fuel val st) (term_loop lm fuel' val st')) /\
  (forall fuel' st st', same_view st st' ->
     agree (parse_power lm fuel st) (parse_power lm fuel' st')) /\
  (forall fuel' st st', same_view st st' ->
     agree (parse_factor lm fuel st) (parse_factor lm fuel' st')) /\
  (forall fuel' st st', same_view st st' ->
     agree (parse_primary lm fuel st) (parse_primary lm fuel' st')).
Proof.
  induction fuel as [|fuel (IHe & IHel & IHt & IHtl & IHpw & IHf & IHp)];
    [by repeat split|].
  split_and!.
  - (* parse_expression *)
    intros [|fuel'] st st' Hv; [apply agree_out_r|]. simpl.
    apply agree_bind; [by apply IHt|].
    intros v st1 st1' Hv1. by apply IHel.
  - (* expression_loop *)
    intros [|fuel'] val st st' Hv; [apply agree_out_r|]. simpl.
    destruct (same_view_skip _ _ Hv) as (Hv1 & Hs & Hs' & Hpk).
    rewrite Hpk.
    destruct ((_peek (_skip_spaces st) =? "+")
              || (_peek (_skip_spaces st) =? "-")) eqn:Hop; [|done].
    fold_next.
    assert (Hne : _peek (_skip_spaces st) <> EmptyString).
    { apply orb_true_iff in Hop as [H|H]; by eapply eqb_nonempty. }
    apply agree_bind; [by apply IHt, same_view_next|].
    intros rhs st1 st1' Hv2.
    apply agree_lift. intros v. by apply IHel.
  - (* parse_term *)
    intros [|fuel'] st st' Hv; [apply agree_out_r|]. simpl.
    apply agree_bind; [by apply IHpw|].
    intros v st1 st1' Hv1. by apply IHtl.
  - (* term_loop *)
    intros [|fuel'] val st st' Hv; [apply agree_out_r|]. simpl.
    destruct (same_view_skip _ _ Hv) as (Hv1 & Hs & Hs' & Hpk).
    rewrite Hpk.
    destruct ((_peek (_skip_spaces st) =? "*")
              || (_peek (_skip_spaces st) =? "/")) eqn:Hop; [|done].
    fold_next.
    assert (Hne : _peek (_skip_spaces st) <> EmptyString).
    { apply orb_true_iff in Hop as [H|H]; by eapply eqb_nonempty. }
    apply agree_bind; [by apply IHpw, same_view_next|].
    intros rhs st1 st1' Hv2.
    destruct (_peek (_skip_spaces st) =? "*").
    + apply agree_lift. intros v. by apply IHtl.
    + destruct (py_eq_zero rhs); [done|].
      apply agree_lift. intros v. by apply IHtl.
  - (* parse_power *)
    intros [|fuel'] st st' Hv; [apply agree_out_r|]. simpl.
    apply agree_bind; [by apply IHf|].
    intros val st1 st1' Hv1.
    destruct (same_view_skip _ _ Hv1) as (Hv2 & Hs & Hs' & Hpk).
    rewrite Hpk.
    destruct (_peek (_skip_spaces st1) =? "^") eqn:Hop; [|done].
    fold_next.
    assert (Hne : _peek (_skip_spaces st1) <> EmptyString)
      by by eapply eqb_nonempty.
    apply agree_bind; [by apply IHpw, same_view_next|].
    intros rhs st2 st2' Hv3. by destruct (py_pow lm val rhs).
  - (* parse_factor *)
    intros [|fuel'] st st' Hv; [apply agree_out_r|]. simpl.
    apply agree_bind; [by apply IHp|].
    intros val st1 st1' Hv1.
    destruct (same_view_skip _ _ Hv1) as (Hv2 & Hs & Hs' & _).
    by apply factor_loop_agree.
  - (* parse_primary *)
    intros [|fuel'] st st' Hv; [apply agree_out_r|]. simpl.
    destruct (same_view_skip _ _ Hv) as (Hv1 & Hs & Hs' & Hpk).
    rewrite Hpk.
    destruct (_peek (_skip_spaces st) =? "(") eqn:Hop.
    { fold_next.
      assert (Hne : _peek (_skip_spaces st) <> EmptyString)
        by by eapply eqb_nonempty.
      apply agree_bind; [by apply IHe, same_view_next|].
      intros val st1 st1' Hv2.
      destruct (same_view_skip _ _ Hv2) as (Hv3 & Hs3 & Hs3' & Hpk3).
      rewrite Hpk3.
      destruct (_peek (_skip_spaces st1) =? ")") eqn:Hcl; simpl; [|done].
      fold_next. split; [done|].
      apply (same_view_next (_skip_spaces st1) (_skip_spaces st1'));
        [done..|by eapply eqb_nonempty]. }
    destruct (isdigit (_peek (_skip_spaces st))) eqn:Hd.
    { fold_next.
      pose proof (same_view_next _ _ Hv1 Hs Hs' (isdigit_nonempty _ Hd))
        as Hv2.
      destruct (negb _); [done|].
      assert (Hu : used_digits (_skip_spaces st')
                   = used_digits (_skip_spaces st)) by (symmetry; apply Hv1).
      rewrite Hu.
      destruct (bool_decide _); [done|]. simpl. split; [done|].
      apply (same_view_add _ (snd (_next (_skip_spaces st)))
               (snd (_next (_skip_spaces st'))) Hv2). }
    by destruct (_peek (_skip_spaces st) =? EmptyString).
Qed.

End Agreement.

Lemma at_end_peek (st : Parser) :
  cursor_ok st ->
  (len st <=? i st)%nat = (_peek st =? EmptyString) /\
  (i st =? len st)%nat = (_peek st =? EmptyString).
Proof.
  intros [Hlen Hle].
  destruct (decide (i st < len st)%nat) as [Hlt|Hge].
  - pose proof (peek_inside st Hlen Hlt) as Hne.
    apply String.eqb_neq in Hne. rewrite Hne.
    split; [apply Nat.leb_gt | apply Nat.eqb_neq]; lia.
  - rewrite peek_at_end by lia.
    split; [apply Nat.leb_le | apply Nat.eqb_eq]; lia.
Qed.

Lemma parse_same_strip (lm : libm) (input1 input2 : string) :
  strip input1 = strip input2 ->
  parse lm input1 = parse lm input2.
Proof.
  intros Hstrip. unfold parse, parse_session.
  assert (Hv0 : same_view (Parser_init input1) (Parser_init input2)).
  { unfold same_view, cursor_ok, unread, Parser_init;
      cbn [text len i used_digits]. simpl. split_and!; try done; lia. }
  destruct (same_view_skip _ _ Hv0) as (Hv & Hs & Hs' & Hpk).
  set (st := _skip_spaces (Parser_init input1)) in *.
  set (st' := _skip_spaces (Parser_init input2)) in *.
  pose proof Hv as (Hok & Hok' & _).
  rewrite (proj1 (at_end_peek st Hok)), (proj1 (at_end_peek st' Hok')), Hpk.
  destruct (_peek st =? EmptyString); [done|].
  pose proof (proj1 (methods_agree lm (fuel_for (len st - i st)))
                (fuel_for (len st' - i st')) st st' Hv) as Hag.
  pose proof (proj1 (methods_fueled lm (fuel_for (len st - i st))) st)
    as Hf.
  pose proof (proj1 (methods_fueled lm (fuel_for (len st' - i st'))) st')
    as Hf'.
  specialize (Hf ltac:(unfold fuel_for, room; lia)).
  specialize (Hf' ltac:(unfold fuel_for, room; lia)).
  destruct (parse_expression lm _ st) as [v st1|e st1|],
           (parse_expression lm _ st') as [v' st1'|e' st1'|];
    simpl in Hag; try done.
  - destruct Hag as [<- Hv1].
    destruct (same_view_skip _ _ Hv1) as (Hv2 & _ & _ & Hpk2).
    destruct Hv2 as (Hok2 & Hok2' & _).
    rewrite (proj2 (at_end_peek _ Hok2)), (proj2 (at_end_peek _ Hok2')), Hpk2.
    by destruct (_peek (_skip_spaces st1) =? EmptyString).
  - by rewrite Hag.
Qed.

(* ===================================================================== *)
(** * A text and the same text with more behind it *)
(* ===================================================================== *)

Lemma get_app_first (s rest : string) (d : ascii) :
  String.get (String.length s) (s ++ String d rest) = Some d.
Proof. induction s as [|c s IH]; simpl; done. Qed.

Lemma digit_not_paren (d : ascii) :
  digit_char d = true -> (String d EmptyString =? "(") = false.
Proof.
  intros Hd. apply String.eqb_neq. intros [= ->]. by vm_compute in Hd.
Qed.

Lemma operator_not_digit (ch : string) :
  ch = "+" \/ ch = "-" \/ ch = "*" \/ ch = "/" \/ ch = "^" \/ ch = "!" \/
  ch = "(" \/ ch = ")" ->
  isdigit ch = false.
Proof. intros H. repeat (destruct H as [->|H]; [done|]). by subst. Qed.

Section Extended.

Variable lm : libm.
Variable d : ascii.
Variable rest : string.
Hypothesis d_digit : digit_char d = true.
Hypothesis d_allowed : String d EmptyString ∈ allowed_digits.

Lemma extended_peek (st st' : Parser) :
  extended (String d rest) st st' ->
  ((i st < len st)%nat /\ _peek st <> EmptyString /\ _peek st' = _peek st) \/
  (i st = len st /\ _peek st = EmptyString /\ _peek st' = (String d EmptyString)).
Proof.
  intros (Ht & Hlen & Hlen' & Hi & Hle & Hu).
  destruct (decide (i st < len st)%nat) as [Hlt|Hge].
  - left. split; [done|]. split; [by apply peek_inside|].
    unfold _peek. rewrite Hi, Hlen', Ht.
    apply Nat.ltb_lt in Hlt as Hb. rewrite Hb.
    assert (Hb' : (i st <? len st + String.length (String d rest))%nat = true)
      by (apply Nat.ltb_lt; lia).
    rewrite Hb', get_app_l; [done | lia].
  - right. assert (Heq : i st = len st) by lia.
    split; [done|]. split; [apply peek_at_end; lia|].
    unfold _peek. rewrite Hi, Hlen', Ht, Heq.
    assert (Hb' : (len st <? len st + String.length (String d rest))%nat = true)
      by (apply Nat.ltb_lt; simpl; lia).
    rewrite Hb', Hlen, get_app_first. done.
Qed.

Lemma extended_test (T : string -> bool) (st st' : Parser) :
  like_end T d -> extended (String d rest) st st' -> T (_peek st') = T (_peek st).
Proof.
  intros HT Hext.
  destruct (extended_peek st st' Hext) as [(_ & _ & ->)|(_ & -> & ->)]; done.
Qed.

Lemma extended_next (st st' : Parser) :
  extended (String d rest) st st' -> _peek st <> EmptyString ->
  extended (String d rest) (snd (_next st)) (snd (_next st')).
Proof.
  intros Hext Hne. apply peek_nonempty in Hne as [Hlt _].
  destruct Hext as (Ht & Hlen & Hlen' & Hi & Hle & Hu).
  unfold extended, _next; cbn [snd text len i used_digits].
  split_and!; try done; lia.
Qed.

Lemma extended_skip_loop (n n' : nat) (st st' : Parser) :
  extended (String d rest) st st' -> (room st <= n)%nat -> (n <= n')%nat ->
  extended (String d rest) (skip_loop n st) (skip_loop n' st').
Proof.
  destruct (digit_like_end d d_digit) as (Hins & _).
  revert n' st st'. induction n as [|n IH]; intros n' st st' Hext Hn Hn'.
  - cbn [skip_loop]. destruct n' as [|n']; [done|].
    cbn [skip_loop]. rewrite (extended_test insignificant st st' Hins Hext).
    rewrite peek_at_end; [done|]. unfold room in Hn. lia.
  - destruct n' as [|n']; [lia|].
    change (skip_loop (S n') st')
      with (if insignificant (_peek st')
            then skip_loop n' (snd (_next st')) else st').
    change (skip_loop (S n) st)
      with (if insignificant (_peek st)
            then skip_loop n (snd (_next st)) else st).
    rewrite (extended_test insignificant st st' Hins Hext).
    destruct (insignificant (_peek st)) eqn:Hp; [|done].
    apply insignificant_nonempty in Hp.
    apply IH; [by apply extended_next| |lia].
    pose proof (next_room st Hp). lia.
Qed.

Lemma extended_skip (st st' : Parser) :
  extended (String d rest) st st' -> extended (String d rest) (_skip_spaces st) (_skip_spaces st').
Proof.
  intros Hext. unfold _skip_spaces.
  pose proof Hext as (Ht & Hlen & Hlen' & Hi & Hle & Hu).
  apply extended_skip_loop; [done | unfold room; lia | lia].
Qed.

Lemma extended_add (digit : string) (st st' : Parser) :
  extended (String d rest) st st' ->
  extended (String d rest) (add_used_digit digit st) (add_used_digit digit st').
Proof.
  intros (Ht & Hlen & Hlen' & Hi & Hle & Hu).
  unfold extended, add_used_digit; cbn [text len i used_digits].
  split_and!; try done. by rewrite Hu.
Qed.

Lemma tracks_skip (st st' : Parser) :
  tracks (String d rest) st st' -> tracks (String d rest) (_skip_spaces st) (_skip_spaces st').
Proof.
  intros (Hext & Hok & Hex).
  destruct (advances_skip st) as [(_ & _ & _ & _ & Hok') Hex'].
  split_and!; [by apply extended_skip | auto | auto].
Qed.

Lemma tracks_next (st st' : Parser) :
  tracks (String d rest) st st' -> _peek st <> EmptyString -> isdigit (_peek st) = false ->
  tracks (String d rest) (snd (_next st)) (snd (_next st')).
Proof.
  intros (Hext & Hok & Hex) Hne Hnd.
  destruct (advances_next st Hne Hnd) as [(_ & _ & _ & _ & Hok') Hex'].
  split_and!; [by apply extended_next | auto | auto].
Qed.

(** Where the shorter text has been read to its end, the ledger holds each
    of its digits. *)
Lemma ledger_at_end (st : Parser) (digit : string) :
  state_ok st -> ledger_exact st -> i st = len st ->
  digit ∈ digits_of (text st) -> digit ∈ used_digits st.
Proof.
  intros (Hlen & _) (Hex & _) Hend Hin. apply Hex.
  unfold prefix_digits. by rewrite Hend, Hlen, substring_full.
Qed.

Lemma carries_ok (v : pyval) (st st' : Parser) :
  extended (String d rest) st st' -> carries (String d rest) (String d EmptyString) (Ok v st) (Ok v st').
Proof. intros Hext. split; [intros v' st1 [= <- <-]; eauto | done]. Qed.

Lemma carries_raise (e : exception) (st : Parser) (r' : result pyval) :
  e <> ParsingError EmptyString UnexpectedEnd ->
  carries (String d rest) (String d EmptyString) (Raise e st) r'.
Proof. intros He. split; [done|]. intros st1 [= -> _]. done. Qed.

Lemma carries_out (r' : result pyval) : carries (String d rest) (String d EmptyString) OutOfFuel r'.
Proof. by split. Qed.

Lemma carries_bind (st st' : Parser) (m m' : result pyval)
    (k k' : pyval -> Parser -> result pyval) :
  tracks (String d rest) st st' -> post st m -> carries (String d rest) (String d EmptyString) m m' ->
  (forall v st1 st1', tracks (String d rest) st1 st1' -> carries (String d rest) (String d EmptyString) (k v st1) (k' v st1')) ->
  carries (String d rest) (String d EmptyString) (let! (v, st1) := m in k v st1)
          (let! (v, st1) := m' in k' v st1).
Proof.
  intros (Hext & Hok & Hex) Hpost [Hm1 Hm2] Hk.
  destruct m as [v st1|e st1|]; simpl.
  - destruct (Hm1 v st1 eq_refl) as (st1' & -> & Hext1). simpl.
    destruct Hpost as [(_ & _ & _ & _ & Hok1) Hex1].
    apply Hk. split_and!; auto.
  - split; [done|]. intros st2 [= -> <-] Hin.
    destruct (Hm2 st1 eq_refl Hin) as (st1' & ->). simpl. eauto.
  - apply carries_out.
Qed.

Lemma carries_lift (r : res pyval) (st st' : Parser)
    (k k' : pyval -> Parser -> result pyval) :
  (forall v, carries (String d rest) (String d EmptyString) (k v st) (k' v st')) ->
  carries (String d rest) (String d EmptyString) (let! (v, st1) := lift r st in k v st1)
          (let! (v, st1) := lift r st' in k' v st1).
Proof.
  intros Hk. destruct r as [v|e]; simpl; [apply Hk | by apply carries_raise].
Qed.

Lemma factor_loop_carry (fuel fuel' : nat) (val : pyval)
    (st st' : Parser) :
  (fuel <= fuel')%nat -> extended (String d rest) st st' ->
  carries (String d rest) (String d EmptyString) (factor_loop fuel val st) (factor_loop fuel' val st').
Proof.
  destruct (digit_like_end d d_digit) as (_ & _ & _ & _ & Hbang).
  revert fuel' val st st'.
  induction fuel as [|fuel IH]; intros fuel' val st st' Hf Hext;
    [apply carries_out|].
  destruct fuel' as [|fuel']; [lia|]. simpl.
  rewrite (extended_test (fun ch => ch =? "!") st st' Hbang Hext).
  destruct (_peek st =? "!") eqn:Hp; [|by apply carries_ok].
  fold_next.
  assert (Hne : _peek st <> EmptyString) by by eapply eqb_nonempty.
  pose proof (extended_next st st' Hext Hne) as Hext1.
  destruct (to_float val) as [f|e]; [|by apply carries_raise].
  destruct (negb (is_integer f) || py_lt_zero val);
    [by apply carries_raise|].
  destruct (math_factorial (to_int val)) as [v|e];
    [|by apply carries_raise].
  apply IH; [lia | by apply extended_skip].
Qed.

Lemma primary_digit_carry (digit : string) (st st' : Parser) :
  extended (String d rest) st st' ->
  carries (String d rest) (String d EmptyString)
    (if negb (bool_decide (digit ∈ allowed_digits)) then
       Raise (ParsingError digit DisallowedDigit) st
     else if bool_decide (digit ∈ used_digits st) then
       Raise (ParsingError digit DuplicateDigit) st
     else
       let st := add_used_digit digit st in
       Ok (VFloat (Z2F (int_of_digit digit))) st)
    (if negb (bool_decide (digit ∈ allowed_digits)) then
       Raise (ParsingError digit DisallowedDigit) st'
     else if bool_decide (digit ∈ used_digits st') then
       Raise (ParsingError digit DuplicateDigit) st'
     else
       let st' := add_used_digit digit st' in
       Ok (VFloat (Z2F (int_of_digit digit))) st').
Proof.
  intros Hext.
  destruct (negb _); [by apply carries_raise|].
  assert (Hu : used_digits st' = used_digits st) by apply Hext.
  rewrite Hu.
  destruct (bool_decide _); [by apply carries_raise|].
  by apply carries_ok, extended_add.
Qed.

Theorem methods_carry (fuel : nat) :
  (forall fuel' st st', (fuel <= fuel')%nat -> tracks (String d rest) st st' ->
     carries (String d rest) (String d EmptyString) (parse_expression lm fuel st)
             (parse_expression lm fuel' st')) /\
  (forall fuel' val st st', (fuel <= fuel')%nat -> tracks (String d rest) st st' ->
     carries (String d rest) (String d EmptyString) (expression_loop lm fuel val st)
             (expression_loop lm fuel' val st')) /\
  (forall fuel' st st', (fuel <= fuel')%nat -> tracks (String d rest) st st' ->
     carries (String d rest) (String d EmptyString) (parse_term lm fuel st) (parse_term lm fuel' st')) /\
  (forall fuel' val st st', (fuel <= fuel')%nat -> tracks (String d rest) st st' ->
     carries (String d rest) (String d EmptyString) (term_loop lm fuel val st) (term_loop lm fuel' val st')) /\
  (forall fuel' st st', (fuel <= fuel')%nat -> tracks (String d rest) st st' ->
     carries (String d rest) (String d EmptyString) (parse_power lm fuel st) (parse_power lm fuel' st')) /\
  (forall fuel' st st', (fuel <= fuel')%nat -> tracks (String d rest) st st' ->
     carries (String d rest) (String d EmptyString) (parse_factor lm fuel st) (parse_factor lm fuel' st')) /\
  (forall fuel' st st', (fuel <= fuel')%nat -> tracks (String d rest) st st' ->
     carries (String d rest) (String d EmptyString) (parse_primary lm fuel st) (parse_primary lm fuel' st')).
Proof.
  destruct (digit_like_end d d_digit) as (_ & Hadd & Hmul & Hpow & _).
  induction fuel as [|fuel (IHe & IHel & IHt & IHtl & IHpw & IHf & IHp)];
    [split_and!; intros; apply carries_out|].
  destruct (methods_post lm fuel) as (Pe & Pel & Pt & Ptl & Ppw & Pf & Pp).
  split_and!.
  - (* parse_expression *)
    intros [|fuel'] st st' Hf Htr; [lia|]. simpl.
    apply (carries_bind st st'); [done | apply Pt | apply IHt; [lia|done]|].
    intros v st1 st1' Htr1. apply IHel; [lia|done].
  - (* expression_loop *)
    intros [|fuel'] val st st' Hf Htr; [lia|]. simpl.
    pose proof (tracks_skip st st' Htr) as Hsk.
    pose proof Hsk as (Hxsk & _).
    rewrite (extended_test _ _ _ Hadd Hxsk).
    destruct ((_peek (_skip_spaces st) =? "+")
              || (_peek (_skip_spaces st) =? "-")) eqn:Hop;
      [|by apply carries_ok].
    fold_next.
    assert (Hne : _peek (_skip_spaces st) <> EmptyString).
    { apply orb_true_iff in Hop as [H|H]; by eapply eqb_nonempty. }
    assert (Hnd : isdigit (_peek (_skip_spaces st)) = false).
    { apply operator_not_digit.
      apply orb_true_iff in Hop as [H|H]; apply String.eqb_eq in H; auto. }
    destruct (extended_peek _ _ Hxsk) as [(_ & _ & Hpk)|(_ & Hpk & _)];
      [|done].
    rewrite Hpk.
    pose proof (tracks_next _ _ Hsk Hne Hnd) as Htr1.
    apply (carries_bind _ _ _ _ _ _ Htr1); [apply Pt | apply IHt; [lia|done]|].
    intros rhs st1 st1' Htr2.
    apply carries_lift. intros v. apply IHel; [lia|done].
  - (* parse_term *)
    intros [|fuel'] st st' Hf Htr; [lia|]. simpl.
    apply (carries_bind st st'); [done | apply Ppw | apply IHpw; [lia|done]|].
    intros v st1 st1' Htr1. apply IHtl; [lia|done].
  - (* term_loop *)
    intros [|fuel'] val st st' Hf Htr; [lia|]. simpl.
    pose proof (tracks_skip st st' Htr) as Hsk.
    pose proof Hsk as (Hxsk & _).
    rewrite (extended_test _ _ _ Hmul Hxsk).
    destruct ((_peek (_skip_spaces st) =? "*")
              || (_peek (_skip_spaces st) =? "/")) eqn:Hop;
      [|by apply carries_ok].
    fold_next.
    assert (Hne : _peek (_skip_spaces st) <> EmptyString).
    { apply orb_true_iff in Hop as [H|H]; by eapply eqb_nonempty. }
    assert (Hnd : isdigit (_peek (_skip_spaces st)) = false).
    { apply operator_not_digit.
      apply orb_true_iff in Hop as [H|H]; apply String.eqb_eq in H; auto. }
    destruct (extended_peek _ _ Hxsk) as [(_ & _ & Hpk)|(_ & Hpk & _)];
      [|done].
    rewrite Hpk.
    pose proof (tracks_next _ _ Hsk Hne Hnd) as Htr1.
    apply (carries_bind _ _ _ _ _ _ Htr1);
      [apply Ppw | apply IHpw; [lia|done]|].
    intros rhs st1 st1' Htr2.
    destruct (_peek (_skip_spaces st) =? "*").
    + apply carries_lift. intros v. apply IHtl; [lia|done].
    + destruct (py_eq_zero rhs); [by apply carries_raise|].
      apply carries_lift. intros v. apply IHtl; [lia|done].
  - (* parse_power *)
    intros [|fuel'] st st' Hf Htr; [lia|]. simpl.
    apply (carries_bind st st'); [done | apply Pf | apply IHf; [lia|done]|].
    intros val st1 st1' Htr1.
    pose proof (tracks_skip st1 st1' Htr1) as Hsk.
    pose proof Hsk as (Hxsk & _).
    rewrite (extended_test _ _ _ Hpow Hxsk).
    destruct (_peek (_skip_spaces st1) =? "^") eqn:Hop;
      [|by apply carries_ok].
    fold_next.
    assert (Hne : _peek (_skip_spaces st1) <> EmptyString)
      by by eapply eqb_nonempty.
    assert (Hnd : isdigit (_peek (_skip_spaces st1)) = false).
    { apply operator_not_digit. apply String.eqb_eq in Hop. auto 10. }
    pose proof (tracks_next _ _ Hsk Hne Hnd) as Htr2.
    apply (carries_bind _ _ _ _ _ _ Htr2);
      [apply Ppw | apply IHpw; [lia|done]|].
    intros rhs st2 st2' Htr3.
    destruct (py_pow lm val rhs);
      [apply carries_ok, Htr3 | by apply carries_raise].
  - (* parse_factor *)
    intros [|fuel'] st st' Hf Htr; [lia|]. simpl.
    apply (carries_bind st st'); [done | apply Pp | apply IHp; [lia|done]|].
    intros val st1 st1' Htr1.
    apply factor_loop_carry; [lia | apply extended_skip, Htr1].
  - (* parse_primary *)
    intros [|fuel'] st st' Hf Htr; [lia|]. simpl.
    pose proof (tracks_skip st st' Htr) as Hsk.
    pose proof Hsk as (Hxsk & Hok & Hex).
    destruct (extended_peek _ _ Hxsk) as [(_ & Hne & Hpk)|(Hend & Hpk & Hpk')].
    2:{ rewrite Hpk, Hpk'. rewrite (digit_not_paren d d_digit).
        rewrite isdigit_char, d_digit.
        change (EmptyString =? "(") with false.
        change (isdigit EmptyString) with false.
        change (EmptyString =? EmptyString) with true. cbv iota.
        split; [done|]. intros st1 [= <-] Hin.
        rewrite (bool_decide_eq_true_2 _ d_allowed). cbn [negb].
        assert (Hused : String d EmptyString
                        ∈ used_digits (_skip_spaces st')).
        { replace (used_digits (_skip_spaces st'))
            with (used_digits (_skip_spaces st))
            by (symmetry; apply Hxsk).
          by apply ledger_at_end. }
        rewrite (bool_decide_eq_true_2 _ Hused). eauto. }
    rewrite Hpk.
    destruct (_peek (_skip_spaces st) =? "(") eqn:Hop.
    { fold_next.
      assert (Hnd : isdigit (_peek (_skip_spaces st)) = false).
      { apply operator_not_digit. apply String.eqb_eq in Hop. auto 10. }
      pose proof (tracks_next _ _ Hsk Hne Hnd) as Htr1.
      apply (carries_bind _ _ _ _ _ _ Htr1);
        [apply Pe | apply IHe; [lia|done]|].
      intros val st1 st1' Htr2.
      pose proof (tracks_skip st1 st1' Htr2) as Hsk1.
      pose proof Hsk1 as (Hxsk1 & _).
      destruct (extended_peek _ _ Hxsk1)
        as [(_ & Hne1 & Hpk1)|(_ & Hpk1 & _)].
      2:{ rewrite Hpk1. simpl. by apply carries_raise. }
      rewrite Hpk1.
      destruct (_peek (_skip_spaces st1) =? ")"); simpl;
        [|by apply carries_raise].
      fold_next. by apply carries_ok, extended_next. }
    destruct (isdigit (_peek (_skip_spaces st))) eqn:Hd.
    { fold_next.
      apply (primary_digit_carry _ (snd (_next (_skip_spaces st)))
               (snd (_next (_skip_spaces st')))).
      by apply (extended_next (_skip_spaces st) (_skip_spaces st')). }
    destruct (_peek (_skip_spaces st) =? EmptyString) eqn:He.
    + by apply String.eqb_eq in He.
    + by apply carries_raise.
Qed.

End Extended.

(** A digit that the text already holds, met where a value is expected,
    raises DuplicateDigit from [parse], whatever follows it. *)
Lemma duplicate_digit_raised (lm : libm) (pre dg rest : string) :
  parse lm pre = Raises (ParsingError EmptyString UnexpectedEnd) ->
  dg ∈ allowed_digits -> dg ∈ digits_of pre ->
  parse lm (pre ++ dg ++ rest) = Raises (ParsingError dg DuplicateDigit).
Proof.
  intros Hp Hall Hin.
  destruct (allowed_is_digit dg Hall) as (d & -> & Hd).
  change (pre ++ String d EmptyString ++ rest) with (pre ++ String d rest).
  unfold parse in *.
  destruct (parse_session lm pre) as [v0 st0|e st1|] eqn:Hs; try done.
  injection Hp as ->.
  unfold parse_session in *.
  set (st := _skip_spaces (Parser_init pre)) in *.
  set (st' := _skip_spaces (Parser_init (pre ++ String d rest))).
  assert (Htr : tracks (String d rest) st st').
  { apply tracks_skip; [done|]. split_and!; [|apply init_ok|apply init_exact].
    unfold extended, Parser_init; cbn [text len i used_digits].
    split_and!; try done; [|lia].
    clear. induction pre as [|c pre IH]; simpl; [done | by rewrite IH]. }
  pose proof Htr as ((Ht & Hlen & Hlen' & Hi & Hle & Hu) & _).
  destruct (len st <=? i st)%nat eqn:Hend; [done|].
  apply Nat.leb_gt in Hend.
  assert (Hb : (len st' <=? i st')%nat = false) by (apply Nat.leb_gt; lia).
  rewrite Hb.
  destruct (proj1 (methods_carry lm d rest Hd Hall (fuel_for (len st - i st)))
              (fuel_for (len st' - i st')) st st'
              ltac:(unfold fuel_for; lia) Htr) as [_ Hraise].
  pose proof (proj1 (methods_post lm (fuel_for (len st - i st))) st) as Hpost.
  destruct (parse_expression lm (fuel_for (len st - i st)) st)
    as [v st2|e2 st2|]; simpl in Hs; [|injection Hs as -> ->|done].
  - destruct (negb _); done.
  - destruct Hpost as [(Htext & _) _].
    assert (Htext' : text st = pre).
    { pose proof (extends_skip (Parser_init pre)) as (H & _). exact H. }
    destruct (Hraise st1 eq_refl) as (st1' & ->); [|done].
    by rewrite Htext, Htext'.
Qed.

(* ===================================================================== *)
(** * The parenthesis that is not closed *)
(* ===================================================================== *)

(** The step of [parse_primary]: after "(" and an expression, anything but
    ")" raises MissingClosingParen. *)
Lemma paren_unclosed (lm : libm) (fuel : nat) (st st1 : Parser)
    (val : pyval) :
  _peek (_skip_spaces st) = "(" ->
  parse_expression lm fuel (snd (_next (_skip_spaces st))) = Ok val st1 ->
  _peek (_skip_spaces st1) <> ")" ->
  parse_primary lm (S fuel) st =
  Raise (ParsingError ")" MissingClosingParen) (_skip_spaces st1).
Proof.
  intros Hpk Hexp Hne. simpl. rewrite Hpk.
  change ("(" =? "(") with true. cbv iota. fold_next. rewrite Hexp. simpl.
  apply String.eqb_neq in Hne. by rewrite Hne.
Qed.

(** What [parse_primary] raises, [parse_expression] raises. *)
Lemma raise_climbs (lm : libm) (fuel : nat) (st st' : Parser)
    (e : exception) :
  parse_primary lm fuel st = Raise e st' ->
  parse_expression lm (S (S (S (S fuel)))) st = Raise e st'.
Proof. intros H. simpl. by rewrite H. Qed.

Lemma unclosed_parenthesis (lm : libm) (body : string) (val : pyval)
    (st : Parser) :
  parse_expression lm
    (fuel_for (room (_skip_spaces (Parser_init body))))
    (_skip_spaces (Parser_init body)) = Ok val st ->
  _peek (_skip_spaces st) <> ")" ->
  parse lm (String "(" body) = Raises (ParsingError ")" MissingClosingParen).
Proof.
  intros Hexp Hne.
  set (st0 := Parser_init (String "(" body)).
  assert (Hpk0 : _peek st0 = "(") by reflexivity.
  assert (Hsk0 : _skip_spaces st0 = st0).
  { unfold _skip_spaces.
    change (len st0 - i st0)%nat with (S (String.length body)).
    cbn [skip_loop]. by rewrite Hpk0. }
  set (sb := _skip_spaces (Parser_init body)) in *.
  set (st1 := snd (_next st0)).
  assert (Hview : same_view st1 sb).
  { unfold same_view. split_and!.
    - split; simpl; [done | lia].
    - apply cursor_ok_skip. split; simpl; [done | lia].
    - unfold sb. rewrite strip_unread_skip by (split; simpl; [done | lia]).
      reflexivity.
    - unfold sb. by rewrite used_skip. }
  pose proof (proj1 (methods_agree lm (fuel_for (String.length body)))
                (fuel_for (room sb)) st1 sb Hview) as Hag.
  pose proof (proj1 (methods_fueled lm (fuel_for (String.length body))) st1)
    as Hfuel.
  specialize (Hfuel ltac:(unfold fuel_for, room; simpl; lia)).
  rewrite Hexp in Hag.
  destruct (parse_expression lm (fuel_for (String.length body)) st1)
    as [v st2|e st2|] eqn:Hin; simpl in Hag; try done.
  destruct Hag as [-> Hview2].
  destruct (same_view_skip _ _ Hview2) as (_ & _ & _ & Hpk2).
  assert (Hprim : parse_primary lm (S (fuel_for (String.length body))) st0
                  = Raise (ParsingError ")" MissingClosingParen)
                      (_skip_spaces st2)).
  { apply (paren_unclosed lm _ st0 st2 val).
    - by rewrite Hsk0.
    - by rewrite Hsk0.
    - by rewrite Hpk2 in Hne. }
  apply raise_climbs in Hprim.
  unfold parse, parse_session. fold st0. rewrite Hsk0.
  change (len st0 <=? i st0)%nat with false. cbv iota.
  replace (fuel_for (len st0 - i st0))
    with (S (S (S (S (S (fuel_for (String.length body)))))))
    by (unfold fuel_for; simpl; lia).
  by rewrite Hprim.
Qed.

Lemma unclosed_valid (lm : libm) (body : string) (v : pyval) :
  parse lm body = Returns v ->
  parse lm (String "(" body) = Raises (ParsingError ")" MissingClosingParen).
Proof.
  unfold parse at 1.
  destruct (parse_session lm body) as [v0 st|e st|] eqn:Hs; try done.
  intros _. unfold parse_session in Hs.
  destruct (len _ <=? _)%nat; [done|].
  fold (room (_skip_spaces (Parser_init body))) in Hs.
  destruct (parse_expression lm _ _) as [val st1|e st1|] eqn:Hexp;
    simpl in Hs; try done.
  destruct (negb (i (_skip_spaces st1) =? len (_skip_spaces st1))%nat)
    eqn:Hend; [done|].
  apply (unclosed_parenthesis lm body val st1 Hexp).
  apply negb_false_iff, Nat.eqb_eq in Hend.
  rewrite peek_at_end by lia. done.
Qed.

(* ===================================================================== *)
(** * The claims of the specification *)
(* ===================================================================== *)

(** C1. For the input "6^4+5*(3!+2)+1" the evaluation succeeds and returns
    the integer 1337; for the input "5*(4+3)+6!" it succeeds and returns the
    integer 755. *)
Theorem C1_end_to_end (lm : libm) :
  parse lm "6^4+5*(3!+2)+1" = Returns (VInt 1337) /\
  parse lm "5*(4+3)+6!" = Returns (VInt 755).
Proof. split; vm_compute; reflexivity. Qed.

(** C2, as stated, fails: in "(1-2)!+3+3" the digit 3 is an operand twice,
    yet the error reported is InvalidFactorial for the "!" met before
    them, not DuplicateDigit. *)
Lemma C2_counterexample :
  digits_of "(1-2)!+3+3" = ["1"; "2"; "3"; "3"] /\
  parse sample_libm "(1-2)!+3+3"
    = Raises (ParsingError "!" (InvalidFactorial None)) /\
  parse sample_libm "(1-2)!+3+3" <> Raises (ParsingError "3" DuplicateDigit).
Proof. repeat split; vm_compute; (reflexivity || discriminate). Qed.

(** C2, amended.  Digit uniqueness is global across the whole input,
    including across parenthesis boundaries.  One ledger serves the whole
    session: what a sub-expression, parenthesised or not, has recorded stays
    recorded.  At an operand position a digit of {1..6} that is already in
    the ledger raises DuplicateDigit, as the second 1 of "(1+2)*(3+1)" and
    the second 2 of "2^2" do.  The error reaches the caller of [parse]
    unchanged, from any depth: whenever the parser has read a text without
    error up to a place where it expects a value (the text alone fails with
    UnexpectedEnd) and the next character is a digit of {1..6} that the
    text holds, the evaluation fails with DuplicateDigit for that digit,
    whatever follows it.  An input in which a digit occurs twice never
    evaluates: it fails, with DuplicateDigit unless another error is met
    first; and DuplicateDigit is reported only for a digit that does occur
    twice.  An input that uses each digit at most once and contains no
    digit outside {1..6} never fails with DuplicateDigit or
    DisallowedDigit. *)
Theorem C2_digit_uniqueness (lm : libm) :
  (forall fuel st val st',
     parse_expression lm fuel st = Ok val st' ->
     used_digits st ⊆ used_digits st') /\
  (forall fuel st dg,
     _peek (_skip_spaces st) = dg ->
     dg ∈ allowed_digits ->
     dg ∈ used_digits st ->
     parse_primary lm (S fuel) st =
     Raise (ParsingError dg DuplicateDigit) (snd (_next (_skip_spaces st)))) /\
  parse lm "(1+2)*(3+1)" = Raises (ParsingError "1" DuplicateDigit) /\
  parse lm "2^2" = Raises (ParsingError "2" DuplicateDigit) /\
  (forall pre dg rest,
     parse lm pre = Raises (ParsingError EmptyString UnexpectedEnd) ->
     dg ∈ allowed_digits ->
     dg ∈ digits_of pre ->
     parse lm (pre ++ dg ++ rest) = Raises (ParsingError dg DuplicateDigit)) /\
  (forall input,
     ~ NoDup (digits_of input) -> exists e, parse lm input = Raises e) /\
  (forall input dg,
     parse lm input = Raises (ParsingError dg DuplicateDigit) ->
     exists j1 j2, (j1 < j2)%nat /\
       char_at input j1 dg /\ char_at input j2 dg) /\
  (forall input,
     NoDup (digits_of input) ->
     Forall (fun dg => dg ∈ allowed_digits) (digits_of input) ->
     forall dg,
       parse lm input <> Raises (ParsingError dg DuplicateDigit) /\
       parse lm input <> Raises (ParsingError dg DisallowedDigit)).
Proof.
  split_and!.
  - intros fuel st val st' Hexp.
    destruct (methods_post lm fuel) as (Pe & _). specialize (Pe st).
    rewrite Hexp in Pe. apply Pe.
  - intros fuel st dg. apply primary_rejects_used_digit.
  - by vm_compute.
  - by vm_compute.
  - intros pre dg rest. apply duplicate_digit_raised.
  - intros input Hdup.
    destruct (parse lm input) as [v|e|] eqn:Hp.
    + by destruct (returns_digits_once lm input v Hp) as [Hnd _].
    + by exists e.
    + by destruct (parse_terminates lm input).
  - intros input dg Hp.
    destruct (session_digit_error lm input _ Hp) as (st & Ht & _ & Hocc).
    destruct Hocc as (j1 & j2 & Hj & H1 & H2).
    exists j1, j2. rewrite <- Ht. split_and!; [lia | done | done].
  - intros input Hnd Hall dg. split; intros Hp;
      destruct (session_digit_error lm input _ Hp) as (st & Ht & Hd & Hocc).
    + destruct Hocc as (j1 & j2 & Hj & H1 & H2). rewrite Ht in *.
      apply (char_at_twice input dg j1 j2); [lia | done..].
    + destruct Hocc as (Hnot & j & Hj & H1). rewrite Ht in *.
      apply Hnot.
      pose proof (char_at_digit_in input dg j H1 Hd) as Hin.
      by apply (proj1 (Forall_forall _ _) Hall).
Qed.

(** C2 at an instance: a repeated 3 makes "(1-2)!+3+3" fail; a 1 in the
    ledger is rejected at an operand position; after "(1+2)*(3+", where a
    value is expected, the 1 raises DuplicateDigit from [parse] though the
    parenthesis is closed behind it; the six digits of "6^4+5*(3!+2)+1",
    each used once, raise no digit error. *)
Lemma C2_digit_uniqueness_witness :
  (exists e, parse sample_libm "(1-2)!+3+3" = Raises e) /\
  parse_primary sample_libm 1 C2_state
  = Raise (ParsingError "1" DuplicateDigit)
      (snd (_next (_skip_spaces C2_state))) /\
  parse sample_libm ("(1+2)*(3+" ++ "1" ++ ")")
    = Raises (ParsingError "1" DuplicateDigit) /\
  parse sample_libm "6^4+5*(3!+2)+1"
    <> Raises (ParsingError "1" DuplicateDigit) /\
  parse sample_libm "6^4+5*(3!+2)+1"
    <> Raises (ParsingError "1" DisallowedDigit).
Proof.
  destruct (C2_digit_uniqueness sample_libm)
    as (_ & Hrule & _ & _ & Hup & Hdup & _ & Honce).
  split_and!.
  - apply Hdup. apply (bool_decide_eq_false_1 _). vm_compute. reflexivity.
  - apply (Hrule 0%nat C2_state "1").
    + vm_compute. reflexivity.
    + by vm_compute.
    + by vm_compute.
  - apply (Hup "(1+2)*(3+" "1" ")").
    + vm_compute. reflexivity.
    + by vm_compute.
    + apply list_elem_of_here.
  - apply (Honce "6^4+5*(3!+2)+1");
      [apply (bool_decide_unpack _); by vm_compute
      |apply (bool_decide_unpack _); by vm_compute].
  - apply (Honce "6^4+5*(3!+2)+1");
      [apply (bool_decide_unpack _); by vm_compute
      |apply (bool_decide_unpack _); by vm_compute].
Defined.

(** C3, as stated, fails: "2^3^2" uses the digit 2 twice, so the evaluation
    raises the duplicate-digit error and returns no 512. *)
Lemma C3_counterexample :
  parse sample_libm "2^3^2" = Raises (ParsingError "2" DuplicateDigit) /\
  parse sample_libm "2^3^2" <> Returns (VInt 512).
Proof. split; vm_compute; [reflexivity | discriminate]. Qed.

(** C3, amended.  The power operator is right-associative and [*] and [/]
    are left-associative: "4^3^2" returns 262144, which is 4^(3^2), where
    "(4^3)^2" returns 4096; "6/3/2" returns 1, which is (6/3)/2, where
    "6/(3/2)" returns 4; "6/3*2" returns 4, which is (6/3)*2, where
    "6/(3*2)" returns 1; "5*1/3" returns 1.6666666666666667, which is
    (5*1)/3, where "5*(1/3)" returns 1.6666666666666665; "1/5*3*6" returns
    3.6000000000000005, which is ((1/5)*3)*6, where "1/5*(3*6)" returns
    3.6.  "2^3^2" itself raises DuplicateDigit for its second 2. *)
Theorem C3_associativity (lm : libm) :
  parse lm "4^3^2" = Returns (VInt 262144) /\
  parse lm "(4^3)^2" = Returns (VInt 4096) /\
  parse lm "6/3/2" = Returns (VInt 1) /\
  parse lm "6/(3/2)" = Returns (VInt 4) /\
  parse lm "6/3*2" = Returns (VInt 4) /\
  parse lm "6/(3*2)" = Returns (VInt 1) /\
  parse lm "5*1/3" = Returns (VFloat (0x1.aaaaaaaaaaaabp+0)%float) /\
  parse lm "5*(1/3)" = Returns (VFloat (0x1.aaaaaaaaaaaaap+0)%float) /\
  parse lm "1/5*3*6" = Returns (VFloat (0x1.ccccccccccccep+1)%float) /\
  parse lm "1/5*(3*6)" = Returns (VFloat (0x1.ccccccccccccdp+1)%float) /\
  parse lm "2^3^2" = Raises (ParsingError "2" DuplicateDigit).
Proof. repeat split; vm_compute; reflexivity. Qed.

(** C4, as stated, fails: in "4/0" the divisor is never evaluated, because
    0 is not an allowed digit; the error is DisallowedDigit at "0", not
    DivisionByZero. *)
Lemma C4_counterexample :
  parse sample_libm "4/0" = Raises (ParsingError "0" DisallowedDigit) /\
  parse sample_libm "4/0" <> Raises (ParsingError "/" DivisionByZero) /\
  parse sample_libm "4/0" <> Raises (ParsingError "0" DivisionByZero).
Proof. repeat split; vm_compute; (reflexivity || discriminate). Qed.

(** C4, amended.  "4/0" fails with DisallowedDigit at "0".  A division whose
    right-hand operand evaluates to zero raises DivisionByZero at "/",
    whatever the left operand, instead of producing an infinite or NaN
    result: so does "4/(3-2-1)". *)
Theorem C4_division_by_zero (lm : libm) :
  parse lm "4/0" = Raises (ParsingError "0" DisallowedDigit) /\
  parse lm "4/(3-2-1)" = Raises (ParsingError "/" DivisionByZero) /\
  (forall fuel val st rhs st1,
     _peek (_skip_spaces st) = "/" ->
     parse_power lm fuel (snd (_next (_skip_spaces st))) = Ok rhs st1 ->
     py_eq_zero rhs = true ->
     term_loop lm (S fuel) val st =
     Raise (ParsingError "/" DivisionByZero) st1).
Proof.
  split_and!; [by vm_compute | by vm_compute |].
  intros fuel val st rhs st1 Hpk Hrhs Hzero.
  simpl. fold_next. rewrite Hpk.
  change (("/" =? "*") || ("/" =? "/")) with true.
  change ("/" =? "*") with false. cbv iota.
  by rewrite Hrhs, Hzero.
Qed.

(** C4 at an instance: dividing 4 by the value of "(3-2-1)". *)
Lemma C4_division_by_zero_witness :
  term_loop sample_libm 41 (VFloat 4) C4_state =
  Raise (ParsingError "/" DivisionByZero)
    (match parse_power sample_libm 40 (snd (_next (_skip_spaces C4_state)))
     with Ok _ st => st | _ => C4_state end).
Proof.
  apply (proj2 (proj2 (C4_division_by_zero sample_libm))
           40%nat (VFloat 4) C4_state (VFloat 0)).
  - vm_compute. reflexivity.
  - vm_compute. reflexivity.
  - vm_compute. reflexivity.
Defined.

(** C5. Each postfix "!" requires the value accumulated so far to be a
    non-negative whole number, and the check is made anew at every
    application: "(1-2)!" raises InvalidFactorial at "!", and "3!!" returns
    720.  In general, at a "!" a value that is not a non-negative whole
    number never gets a factorial: the call raises, and it raises
    InvalidFactorial at "!" whenever the value has a float image; a whole
    non-negative value is replaced by its factorial and the loop goes on to
    the next "!", where the new value is checked in the same way. *)
Theorem C5_factorial_domain (lm : libm) :
  parse lm "(1-2)!" = Raises (ParsingError "!" (InvalidFactorial None)) /\
  parse lm "3!!" = Returns (VInt 720) /\
  (forall fuel val st,
     _peek st = "!" -> nonneg_whole val = false ->
     exists e,
       factor_loop (S fuel) val st = Raise e (snd (_next st)) /\
       (forall f, to_float val = Val f ->
          e = ParsingError "!" (InvalidFactorial None))) /\
  (forall fuel val st f v,
     _peek st = "!" -> to_float val = Val f ->
     is_integer f = true -> py_lt_zero val = false ->
     math_factorial (to_int val) = Val v ->
     factor_loop (S fuel) val st =
     factor_loop fuel v (_skip_spaces (snd (_next st)))).
Proof.
  split_and!; [by vm_compute | by vm_compute | |].
  - intros fuel val st Hpk Hbad. simpl. fold_next. rewrite Hpk.
    change ("!" =? "!") with true. cbv iota.
    destruct (to_float val) as [f|x] eqn:Hf.
    + assert (Hb : negb (is_integer f) || py_lt_zero val = true).
      { destruct val as [z|g|c]; simpl in *; simplify_eq.
        - apply orb_true_iff. right. apply Z.ltb_lt.
          apply Z.leb_gt in Hbad. lia.
        - destruct (is_integer f); [|done]. simpl in *.
          by apply negb_false_iff in Hbad. }
      rewrite Hb. eexists. split; [done|]. done.
    + eexists. split; [done|]. intros f [=].
  - intros fuel val st f v Hpk Hf Hint Hpos Hfact. simpl. fold_next.
    rewrite Hpk, Hf, Hint, Hpos, Hfact. done.
Qed.

(** C5 at an instance: a negative whole value and a fractional one are
    rejected at "!", and 3 becomes 6. *)
Lemma C5_factorial_domain_witness :
  (exists e,
     factor_loop 5 (VFloat (-1)) C5_state = Raise e (snd (_next C5_state)) /\
     (forall f, to_float (VFloat (-1)) = Val f ->
        e = ParsingError "!" (InvalidFactorial None))) /\
  (exists e,
     factor_loop 5 (VFloat 2.5) C5_state = Raise e (snd (_next C5_state)) /\
     (forall f, to_float (VFloat 2.5) = Val f ->
        e = ParsingError "!" (InvalidFactorial None))) /\
  factor_loop 5 (VFloat 3) C5_state =
    factor_loop 4 (VInt 6) (_skip_spaces (snd (_next C5_state))).
Proof.
  destruct (C5_factorial_domain sample_libm) as (_ & _ & Hbad & Hgood).
  split_and!.
  - apply (Hbad 4%nat (VFloat (-1)) C5_state); reflexivity.
  - apply (Hbad 4%nat (VFloat 2.5) C5_state); reflexivity.
  - apply (Hgood 4%nat (VFloat 3) C5_state 3%float (VInt 6)); reflexivity.
Defined.

(** The rule of [parse_power] at a "^": whatever [val ** rhs] raises becomes
    an InvalidPower error at "^"; whatever it returns is the value. *)
Lemma parse_power_caret (lm : libm) (fuel : nat) (st st1 st3 : Parser)
    (val rhs : pyval) :
  parse_factor lm fuel st = Ok val st1 ->
  _peek (_skip_spaces st1) = "^" ->
  parse_power lm fuel (snd (_next (_skip_spaces st1))) = Ok rhs st3 ->
  parse_power lm (S fuel) st =
  match py_pow lm val rhs with
  | Val v => Ok v st3
  | Exn e => Raise (ParsingError "^" (InvalidPower e)) st3
  end.
Proof.
  intros Hf Hpk Hrhs. simpl. rewrite Hf. fold_next. rewrite Hpk.
  change ("^" =? "^") with true. cbv iota. by rewrite Hrhs.
Qed.

Lemma parse_term_eq (lm : libm) (fuel : nat) (st : Parser) :
  parse_term lm (S fuel) st =
  let! (val, st1) := parse_power lm fuel st in term_loop lm fuel val st1.
Proof. reflexivity. Qed.

Lemma parse_expression_eq (lm : libm) (fuel : nat) (st : Parser) :
  parse_expression lm (S fuel) st =
  let! (val, st1) := parse_term lm fuel st in expression_loop lm fuel val st1.
Proof. reflexivity. Qed.

(** [parse] in terms of [parse_expression], for a text that is read to its
    end. *)
Lemma parse_of_expression (lm : libm) (input : string) (val : pyval)
    (st : Parser) :
  (i (_skip_spaces (Parser_init input))
   < len (_skip_spaces (Parser_init input)))%nat ->
  parse_expression lm (fuel_for (room (_skip_spaces (Parser_init input))))
    (_skip_spaces (Parser_init input)) = Ok val st ->
  i (_skip_spaces st) = len (_skip_spaces st) ->
  parse lm input = Returns (normalize val).
Proof.
  intros Hlt Hexp Hend. unfold parse, parse_session.
  assert (Hb : (len (_skip_spaces (Parser_init input))
                <=? i (_skip_spaces (Parser_init input)))%nat = false)
    by (apply Nat.leb_gt; lia).
  rewrite Hb. fold (room (_skip_spaces (Parser_init input))).
  rewrite Hexp, Hend, Nat.eqb_refl. done.
Qed.

(** C6, on the input that breaks it: "(1-3)^(2/4)" raises -2 to the power
    0.5.  Python computes a complex number for it and raises nothing, so
    unless that number overflows the evaluation returns it. *)
Theorem C6_negative_base_fractional_exponent (lm : libm) (re im : float) :
  c_pow_generic lm ((-2)%float, 0%float) (0.5%float, 0%float)
    = Some (re, im) ->
  is_infinity re = false ->
  is_infinity im = false ->
  parse lm "(1-3)^(2/4)" = Returns (VComplex (re, im)).
Proof.
  intros Hpow Hre Him.
  assert (Hpy : py_pow lm (VFloat (-2)) (VFloat 0.5)
                = Val (VComplex (re, im))).
  { unfold py_pow, float_pow, complex_pow.
    cbn [is_complex orb to_float res_bind].
    change (0.5 =? 0)%float with false.
    change (is_nan (-2)) with false. change (is_nan 0.5) with false.
    change (is_infinity 0.5) with false. change (is_infinity (-2)) with false.
    change (-2 =? 0)%float with false.
    change ((-2 <? 0)%float && negb (is_integer 0.5)) with true.
    change ((snd (0.5%float, 0%float) =? 0)%float
            && is_integer (fst (0.5%float, 0%float))
            && (abs (fst (0.5%float, 0%float)) <=? 100)%float) with false.
    cbv iota. rewrite Hpow. cbn [fst snd]. by rewrite Hre, Him. }
  apply (parse_of_expression lm "(1-3)^(2/4)" (VComplex (re, im))
           {| text := "(1-3)^(2/4)"; i := 11; len := 11;
              used_digits := {[ "1"; "3"; "2"; "4" ]};
              i_history := rev (seq 0 12) |}).
  - vm_compute. lia.
  - change (fuel_for (room (_skip_spaces (Parser_init "(1-3)^(2/4)"))))
      with 60%nat.
    rewrite parse_expression_eq, parse_term_eq.
    rewrite (parse_power_caret lm 57 _
               {| text := "(1-3)^(2/4)"; i := 5; len := 11;
                  used_digits := {[ "1"; "3" ]};
                  i_history := rev (seq 0 6) |}
               {| text := "(1-3)^(2/4)"; i := 11; len := 11;
                  used_digits := {[ "1"; "3"; "2"; "4" ]};
                  i_history := rev (seq 0 12) |}
               (VFloat (-2)) (VFloat 0.5));
      [| by vm_compute..].
    rewrite Hpy. by vm_compute.
  - by vm_compute.
Qed.

(** C6 at an instance: on the sample platform the value returned is the
    complex number Python prints as
    (8.659560562354934e-17+1.4142135623730951j). *)
Lemma C6_negative_base_fractional_exponent_witness :
  parse sample_libm "(1-3)^(2/4)" =
  Returns (VComplex ((0x1.8f5a0be038ed7p-54)%float, sqrt 2)).
Proof.
  apply (C6_negative_base_fractional_exponent sample_libm).
  - vm_compute. reflexivity.
  - vm_compute. reflexivity.
  - vm_compute. reflexivity.
Defined.

(** C7, as stated, fails: "(6-6)!" uses the digit 6 twice, so it raises the
    duplicate-digit error instead of returning 0! = 1. *)
Lemma C7_counterexample :
  parse sample_libm "(6-6)!" = Raises (ParsingError "6" DuplicateDigit) /\
  parse sample_libm "(6-6)!" <> Returns (VInt 1).
Proof. split; vm_compute; [reflexivity | discriminate]. Qed.

(** C7, amended.  The factorial check looks at the value accumulated when
    the "!" is met, not at the digits written: "(3-2-1)!" is legal and
    returns 0! = 1, "(4/2)!" returns 2, while "(1-2)!" (negative) and
    "(5/2)!" (not whole) raise InvalidFactorial.  "(6-6)!" raises
    DuplicateDigit for its second 6. *)
Theorem C7_factorial_check_on_value (lm : libm) :
  parse lm "(3-2-1)!" = Returns (VInt 1) /\
  parse lm "(4/2)!" = Returns (VInt 2) /\
  parse lm "(1-2)!" = Raises (ParsingError "!" (InvalidFactorial None)) /\
  parse lm "(5/2)!" = Raises (ParsingError "!" (InvalidFactorial None)) /\
  parse lm "(6-6)!" = Raises (ParsingError "6" DuplicateDigit).
Proof. repeat split; vm_compute; reflexivity. Qed.

(** The first character that [parse] leaves unread. *)
Lemma trailing_characters (lm : libm) (input : string) (val : pyval)
    (st : Parser) :
  (i (_skip_spaces (Parser_init input))
   < len (_skip_spaces (Parser_init input)))%nat ->
  parse_expression lm (fuel_for (room (_skip_spaces (Parser_init input))))
    (_skip_spaces (Parser_init input)) = Ok val st ->
  i (_skip_spaces st) <> len (_skip_spaces st) ->
  parse lm input =
    Raises (ParsingError (_peek (_skip_spaces st)) TrailingCharacters) /\
  char_at input (i (_skip_spaces st)) (_peek (_skip_spaces st)).
Proof.
  intros Hlt Hexp Hend. split.
  - unfold parse, parse_session.
    assert (Hb : (len (_skip_spaces (Parser_init input))
                  <=? i (_skip_spaces (Parser_init input)))%nat = false)
      by (apply Nat.leb_gt; lia).
    rewrite Hb. fold (room (_skip_spaces (Parser_init input))).
    rewrite Hexp. apply Nat.eqb_neq in Hend. by rewrite Hend.
  - pose proof (methods_post lm
                  (fuel_for (room (_skip_spaces (Parser_init input)))))
      as (Pe & _).
    specialize (Pe (_skip_spaces (Parser_init input))).
    rewrite Hexp in Pe.
    assert (Hadv : advances (Parser_init input) (_skip_spaces st)).
    { eapply advances_trans; [apply advances_skip|].
      eapply advances_trans; [exact Pe | apply advances_skip]. }
    destruct Hadv as [(Ht & Hl & _ & _ & Hok) _].
    destruct (Hok (init_ok input)) as (Hlen & Hle & _).
    replace input with (text (_skip_spaces st)) by (by rewrite Ht).
    apply peek_nonempty, peek_inside; [done | lia].
Qed.

(** C8. Structural failures at the top level: the empty input, and any
    input made only of whitespace and backticks, fails with EmptyInput; the
    unclosed "(1+2" fails with MissingClosingParen, and so does every
    parenthesis that is not closed: at any depth, when "(" and an
    expression are followed by anything but ")", [parse_primary] raises
    MissingClosingParen, and "(" before a text that evaluates, or before
    one that begins with a valid expression not followed by ")", makes
    [parse] fail with MissingClosingParen; "1+2x" fails with
    TrailingCharacters reporting "x"; and whenever a valid expression is
    followed by unread characters, the failure is TrailingCharacters and it
    reports the first of them. *)
Theorem C8_structural_failures (lm : libm) :
  parse lm EmptyString = Raises (ParsingError EmptyString EmptyInput) /\
  (forall input,
     all_chars (fun c => insignificant (String c EmptyString)) input = true ->
     parse lm input = Raises (ParsingError EmptyString EmptyInput)) /\
  parse lm "(1+2" = Raises (ParsingError ")" MissingClosingParen) /\
  (forall fuel st st1 val,
     _peek (_skip_spaces st) = "(" ->
     parse_expression lm fuel (snd (_next (_skip_spaces st))) = Ok val st1 ->
     _peek (_skip_spaces st1) <> ")" ->
     parse_primary lm (S fuel) st =
     Raise (ParsingError ")" MissingClosingParen) (_skip_spaces st1)) /\
  (forall body v,
     parse lm body = Returns v ->
     parse lm (String "(" body)
     = Raises (ParsingError ")" MissingClosingParen)) /\
  (forall body val st,
     parse_expression lm
       (fuel_for (room (_skip_spaces (Parser_init body))))
       (_skip_spaces (Parser_init body)) = Ok val st ->
     _peek (_skip_spaces st) <> ")" ->
     parse lm (String "(" body)
     = Raises (ParsingError ")" MissingClosingParen)) /\
  parse lm "1+2x" = Raises (ParsingError "x" TrailingCharacters) /\
  (forall input val st,
     (i (_skip_spaces (Parser_init input))
      < len (_skip_spaces (Parser_init input)))%nat ->
     parse_expression lm
       (fuel_for (room (_skip_spaces (Parser_init input))))
       (_skip_spaces (Parser_init input)) = Ok val st ->
     i (_skip_spaces st) <> len (_skip_spaces st) ->
     parse lm input =
       Raises (ParsingError (_peek (_skip_spaces st)) TrailingCharacters) /\
     char_at input (i (_skip_spaces st)) (_peek (_skip_spaces st))).
Proof.
  split_and!; [by vm_compute | | by vm_compute | | | | by vm_compute |].
  - intros input Hall. unfold parse, parse_session.
    assert (Hend : (len (_skip_spaces (Parser_init input))
                    <= i (_skip_spaces (Parser_init input)))%nat).
    { pose proof (extends_skip (Parser_init input)) as (_ & Hl & _).
      rewrite Hl. unfold _skip_spaces. apply skip_loop_all; [done..|].
      intros j c _ Hget.
      by apply (all_chars_get _ _ _ _ Hall Hget). }
    apply Nat.leb_le in Hend. by rewrite Hend.
  - intros fuel st st1 val. apply paren_unclosed.
  - intros body v. apply unclosed_valid.
  - intros body val st. apply unclosed_parenthesis.
  - intros input val st. apply trailing_characters.
Qed.

(** C8 at an instance: blank input; "1+2 x" whose first unread character
    is "x"; "(5/4" and "(1+2x", whose parenthesis is not closed. *)
Lemma C8_structural_failures_witness :
  parse sample_libm " ` " = Raises (ParsingError EmptyString EmptyInput) /\
  parse sample_libm "1+2 x" = Raises (ParsingError "x" TrailingCharacters) /\
  parse sample_libm (String "(" "5/4")
    = Raises (ParsingError ")" MissingClosingParen) /\
  parse sample_libm (String "(" "1+2x")
    = Raises (ParsingError ")" MissingClosingParen) /\
  parse_primary sample_libm 6 (Parser_init "(3]")
    = Raise (ParsingError ")" MissingClosingParen)
        (_skip_spaces
           {| text := "(3]"; i := 2; len := 3; used_digits := {[ "3" ]};
              i_history := rev (seq 0 3) |}).
Proof.
  destruct (C8_structural_failures sample_libm)
    as (_ & Hblank & _ & Hstep & Hvalid & Hopen & _ & Htr).
  split_and!.
  - apply (Hblank " ` "). reflexivity.
  - apply (Htr "1+2 x" (VFloat 3)
             {| text := "1+2 x"; i := 4; len := 5;
                used_digits := {[ "1"; "2" ]};
                i_history := rev (seq 0 5) |}).
    + vm_compute. lia.
    + vm_compute. reflexivity.
    + vm_compute. lia.
  - apply (Hvalid "5/4" (VFloat 1.25)). vm_compute. reflexivity.
  - apply (Hopen "1+2x" (VFloat 3)
             {| text := "1+2x"; i := 3; len := 4;
                used_digits := {[ "1"; "2" ]};
                i_history := rev (seq 0 4) |}).
    + vm_compute. reflexivity.
    + vm_compute. discriminate.
  - apply (Hstep 5%nat (Parser_init "(3]")
             {| text := "(3]"; i := 2; len := 3; used_digits := {[ "3" ]};
                i_history := rev (seq 0 3) |} (VFloat 3)).
    + vm_compute. reflexivity.
    + vm_compute. reflexivity.
    + vm_compute. discriminate.
Defined.

(** C9. Throughout any evaluation the cursor index never decreases and
    stays within [0, length of the input]: neither [_next] nor
    [_skip_spaces] moves it backward, and whatever the outcome of [parse],
    the values the index has held, in the order it held them, are
    0, 1, ..., up to its last value, which is at most the length. *)
Theorem C9_cursor_monotone_bounded (lm : libm) (input : string)
    (st : Parser) :
  final_state (parse_session lm input) = Some st ->
  (forall st0, (i st0 <= i (snd (_next st0)))%nat /\
               (i st0 <= i (_skip_spaces st0))%nat) /\
  rev (i_history st) = seq 0 (S (i st)) /\
  (i st <= String.length input)%nat /\
  Forall (fun p => (p <= String.length input)%nat) (i_history st) /\
  (forall a b p q, (a <= b)%nat ->
     rev (i_history st) !! a = Some p ->
     rev (i_history st) !! b = Some q -> (p <= q)%nat).
Proof.
  intros Hfin.
  destruct (session_final lm input st Hfin)
    as [(Ht & Hl & _) (Hlen & Hle & Hh & _)].
  assert (Hlen' : len st = String.length input) by (by rewrite Hlen, Ht).
  assert (Hrev : rev (i_history st) = seq 0 (S (i st)))
    by (by rewrite Hh, rev_involutive).
  split_and!.
  - intros st0. split.
    + unfold _next; cbn [snd i]. lia.
    + apply (extends_skip st0).
  - done.
  - lia.
  - rewrite Hh. apply Forall_forall. intros p Hp.
    apply list_elem_of_In, in_rev, in_seq in Hp. lia.
  - intros a b p q Hab Ha Hb. rewrite Hrev in Ha, Hb.
    apply lookup_seq in Ha as [-> _]. apply lookup_seq in Hb as [-> _]. lia.
Qed.

(** C9 at an instance: the session of "1 + 2", which reads five
    characters. *)
Lemma C9_cursor_monotone_bounded_witness :
  match final_state (parse_session sample_libm "1 + 2") with
  | Some st =>
      rev (i_history st) = seq 0 (S (i st)) /\
      (i st <= String.length "1 + 2")%nat /\
      Forall (fun p => (p <= String.length "1 + 2")%nat) (i_history st)
  | None => False
  end.
Proof.
  destruct (final_state (parse_session sample_libm "1 + 2")) as [st|] eqn:E.
  - destruct (C9_cursor_monotone_bounded sample_libm "1 + 2" st E)
      as (_ & H1 & H2 & H3 & _).
    split_and!; assumption.
  - vm_compute in E. discriminate E.
Defined.

(** C10. Adjacent digits are never read as one number: when an input that
    evaluates to a value is followed at once by a further allowed digit, as
    in "12", the evaluation fails with TrailingCharacters and reports that
    digit. *)
Theorem C10_no_multi_digit_number (lm : libm) (input dg : string)
    (v : pyval) :
  parse lm input = Returns v ->
  dg ∈ allowed_digits ->
  parse lm (input ++ dg) = Raises (ParsingError dg TrailingCharacters).
Proof.
  intros Hret Hal.
  destruct (allowed_is_digit dg Hal) as (d & -> & Hd).
  unfold parse in Hret.
  destruct (parse_session lm input) as [v' stF|e stF|] eqn:Hs;
    try discriminate.
  pose proof (session_ok_at_end lm input v' stF Hs) as Hend.
  unfold parse_session in Hs.
  set (st0 := _skip_spaces (Parser_init input)) in *.
  destruct (len st0 <=? i st0)%nat eqn:Hb; [discriminate|].
  apply Nat.leb_gt in Hb.
  destruct (parse_expression lm (fuel_for (len st0 - i st0)) st0)
    as [val st1|e st1|] eqn:He; try discriminate.
  destruct (negb (i (_skip_spaces st1) =? len (_skip_spaces st1))%nat);
    [discriminate|].
  injection Hs as _ HstF.
  (* the same run on the longer text *)
  assert (Happ0 : appended d (Parser_init input)
                    (Parser_init (input ++ String d EmptyString))).
  { unfold appended, Parser_init; cbn [text len i used_digits].
    split_and!; try done; [apply length_app_one | lia]. }
  pose proof (appended_skip d Hd _ _ Happ0) as Happ.
  fold st0 in Happ.
  set (st0' := _skip_spaces (Parser_init (input ++ String d EmptyString)))
    in *.
  pose proof Happ as (Ht & Hlen & Hlen' & Hi & Hle & Hu).
  destruct (methods_follow lm d Hd (fuel_for (len st0 - i st0)))
    as (Fe & _).
  assert (Hfuel : (fuel_for (len st0 - i st0)
                   <= fuel_for (len st0' - i st0'))%nat)
    by (unfold fuel_for; lia).
  destruct (Fe (fuel_for (len st0' - i st0')) st0 st0' Hfuel Happ val st1 He)
    as (st1' & He' & Happ1).
  pose proof (appended_skip d Hd _ _ Happ1) as Happ2.
  destruct (appended_peek d _ _ Happ2) as [(Hlt & _)|(_ & _ & Hpk)];
    [rewrite HstF in Hlt; lia|].
  unfold parse, parse_session. fold st0'.
  assert (Hb' : (len st0' <=? i st0')%nat = false)
    by (apply Nat.leb_gt; lia).
  rewrite Hb', He'.
  destruct Happ2 as (_ & _ & Hlen2 & Hi2 & _).
  assert (Hne : (i (_skip_spaces st1') =? len (_skip_spaces st1'))%nat
                = false).
  { apply Nat.eqb_neq. rewrite Hi2, Hlen2, HstF. lia. }
  by rewrite Hne, Hpk.
Qed.

(** C10 at an instance: "1" evaluates, "12" does not. *)
Lemma C10_no_multi_digit_number_witness :
  parse sample_libm "1" = Returns (VInt 1) /\
  "2" ∈ allowed_digits /\
  parse sample_libm "12" = Raises (ParsingError "2" TrailingCharacters).
Proof.
  assert (H1 : parse sample_libm "1" = Returns (VInt 1))
    by (vm_compute; reflexivity).
  assert (H2 : "2" ∈ allowed_digits) by (by vm_compute).
  split_and!; [exact H1 | exact H2 |].
  exact (C10_no_multi_digit_number sample_libm "1" "2" (VInt 1) H1 H2).
Defined.

(* ===================================================================== *)
(** * Further properties of the parser *)
(* ===================================================================== *)

(** ** Inputs that evaluate *)

Lemma allowed_digits_listed (l : list string) :
  NoDup l -> Forall (fun dg => dg ∈ allowed_digits) l ->
  (length l <= 6)%nat.
Proof.
  intros Hnd Hall.
  assert (Hsub : l ⊆+ ["1"; "2"; "3"; "4"; "5"; "6"]).
  { apply NoDup_submseteq; [done|]. intros dg Hin.
    apply (proj1 (Forall_forall _ _) Hall) in Hin.
    apply allowed_digit_cases in Hin.
    destruct Hin as [->|[->|[->|[->|[->| ->]]]]];
      repeat (first [apply list_elem_of_here | apply list_elem_of_further]). }
  apply submseteq_length in Hsub. done.
Qed.

(** X3. An input that evaluates holds at most six digit characters, all of
    them in 1..6 and no two equal; so an input with a digit outside 1..6
    (0, 7, 8, 9 or a superscript digit) anywhere, or with more than six
    digits, fails. *)
Theorem X3_evaluated_inputs_digits (lm : libm) (input : string) :
  (forall v, parse lm input = Returns v ->
     (length (digits_of input) <= 6)%nat /\
     NoDup (digits_of input) /\
     Forall (fun dg => dg ∈ allowed_digits) (digits_of input)) /\
  ((6 < length (digits_of input))%nat \/
   (exists dg, dg ∈ digits_of input /\ dg ∉ allowed_digits) ->
   exists e, parse lm input = Raises e).
Proof.
  assert (Hret : forall v, parse lm input = Returns v ->
     (length (digits_of input) <= 6)%nat /\
     NoDup (digits_of input) /\
     Forall (fun dg => dg ∈ allowed_digits) (digits_of input)).
  { intros v Hp. destruct (returns_digits_once lm input v Hp) as [Hnd Hall].
    split_and!; [by apply allowed_digits_listed | done | done]. }
  split; [exact Hret|].
  intros Hbad. destruct (parse lm input) as [v|e|] eqn:Hp.
  - destruct (Hret v eq_refl) as (Hlen & _ & Hall).
    destruct Hbad as [Hmany|(dg & Hin & Hnot)]; [lia|].
    destruct Hnot. by apply (proj1 (Forall_forall _ _) Hall).
  - by exists e.
  - by destruct (parse_terminates lm input).
Qed.

(** X3 at instances: "1+7" holds a 7, and "1+2+3+4+5+6+1" seven digits. *)
Lemma X3_evaluated_inputs_digits_witness :
  (exists e, parse sample_libm "1+7" = Raises e) /\
  (exists e, parse sample_libm "1+2+3+4+5+6+1" = Raises e).
Proof.
  split.
  - apply (proj2 (X3_evaluated_inputs_digits sample_libm "1+7")).
    right. exists "7". split.
    + apply list_elem_of_further, list_elem_of_here.
    + apply (bool_decide_unpack _). by vm_compute.
  - apply (proj2 (X3_evaluated_inputs_digits sample_libm "1+2+3+4+5+6+1")).
    left. vm_compute. lia.
Defined.

(** ** Texts without "^", and without "!" *)

Lemma lacks_peek (c : ascii) (st : Parser) :
  lacks c (text st) -> (_peek st =? String c EmptyString) = false.
Proof.
  intros Hl. destruct (peek_cases st) as [->|(c' & -> & Hget & _)]; [done|].
  apply String.eqb_neq. intros [= ->]. by apply (Hl (i st)).
Qed.

Lemma text_skip (st : Parser) : text (_skip_spaces st) = text st.
Proof. apply (extends_skip st). Qed.

Lemma int_to_float_cases (z : Z) :
  (exists f, int_to_float z = Val f) \/ int_to_float z = Exn OverflowError.
Proof. unfold int_to_float. destruct (is_infinity (Z2F z)); eauto. Qed.

Lemma to_float_real (v : pyval) :
  is_real v = true ->
  (exists f, to_float v = Val f) \/ to_float v = Exn OverflowError.
Proof.
  destruct v as [z|f|c]; simpl; intros H; [|by eauto|done].
  apply int_to_float_cases.
Qed.

(** [+], [-] and [*] on two floats give a float; on two real numbers they
    give a real number or fail converting an [int] that is too large. *)
Lemma py_arith_kind (fz : Z -> Z -> Z) (ff : float -> float -> float)
    (fc : complex -> complex -> complex) (floats : bool) (a b : pyval) :
  value_kind floats a = true -> value_kind floats b = true ->
  match py_arith fz ff fc a b with
  | Val v => value_kind floats v = true
  | Exn x => floats = false /\ x = OverflowError
  end.
Proof.
  destruct floats; simpl; intros Ha Hb.
  - destruct a as [|x|]; try done. by destruct b as [|y|].
  - destruct (to_float_real a Ha) as [(x & Hx)|Hx],
             (to_float_real b Hb) as [(y & Hy)|Hy];
      destruct a as [za|fa|ca]; try done; destruct b as [zb|fb|cb];
      try done; simpl in *; rewrite ?Hx, ?Hy; simpl; try done.
Qed.

(** [/] by a value that is not zero. *)
Lemma py_truediv_kind (floats : bool) (a b : pyval) :
  value_kind floats a = true -> value_kind floats b = true ->
  py_eq_zero b = false ->
  match py_truediv a b with
  | Val v => value_kind floats v = true
  | Exn x => floats = false /\ x <> TypeError
  end.
Proof.
  destruct floats; simpl; intros Ha Hb Hz.
  - destruct a as [|x|]; try done. destruct b as [|y|]; try done.
    simpl in *. by rewrite Hz.
  - destruct a as [za|fa|ca]; try done; destruct b as [zb|fb|cb];
      try done; simpl in *.
    + unfold int_true_divide. rewrite Hz.
      destruct (za =? 0)%Z; simpl; [done|].
      by destruct (is_infinity _).
    + destruct (int_to_float_cases za) as [(x & ->)| ->]; simpl; [|done].
      by rewrite Hz.
    + destruct (int_to_float_cases zb) as [(y & ->)| ->]; simpl; [|done].
      by destruct (y =? 0)%float.
    + by rewrite Hz.
Qed.

Lemma result_kind_bind (floats : bool) (T : string) (m : result pyval)
    (k : pyval -> Parser -> result pyval) :
  result_kind floats T m ->
  (forall v st1, value_kind floats v = true -> text st1 = T ->
     result_kind floats T (k v st1)) ->
  result_kind floats T (let! (v, st1) := m in k v st1).
Proof.
  intros Hm Hk. destruct m as [v st1|e st1|]; [|done..].
  destruct Hm as [Hv Ht]. by apply Hk.
Qed.

Lemma result_kind_lift (floats : bool) (T : string) (r : res pyval)
    (st : Parser) (k : pyval -> Parser -> result pyval) :
  match r with
  | Val v => value_kind floats v = true
  | Exn x => floats = false /\ x <> TypeError
  end ->
  (forall v, value_kind floats v = true -> result_kind floats T (k v st)) ->
  result_kind floats T (let! (v, st1) := lift r st in k v st1).
Proof. intros Hr Hk. destruct r as [v|x]; simpl; [by apply Hk | done]. Qed.

Lemma overflow_not_type (floats : bool) (r : res pyval) :
  match r with
  | Val v => value_kind floats v = true
  | Exn x => floats = false /\ x = OverflowError
  end ->
  match r with
  | Val v => value_kind floats v = true
  | Exn x => floats = false /\ x <> TypeError
  end.
Proof. destruct r as [v|x]; [done|]. by intros [-> ->]. Qed.

Section Fragments.

Variable lm : libm.
Variable floats : bool.
Variable T : string.

(** The text has no "^", and no "!" either if [floats] is set. *)
Hypothesis no_caret : lacks "^" T.
Hypothesis no_bang : floats = true -> lacks "!" T.

Lemma factor_loop_kind (fuel : nat) (val : pyval) (st : Parser) :
  value_kind floats val = true -> text st = T ->
  result_kind floats T (factor_loop fuel val st).
Proof.
  revert val st. induction fuel as [|fuel IH]; intros val st Hv Ht; [done|].
  simpl. destruct (_peek st =? "!") eqn:Hp; [|done].
  destruct (to_float_real val) as [(f & Hf)|Hf].
  { destruct floats eqn:Hfl; [|done].
    rewrite lacks_peek in Hp; [done|]. rewrite Ht. by apply no_bang. }
  - fold_next. rewrite Hf.
    destruct floats eqn:Hfl.
    { rewrite lacks_peek in Hp; [done|]. rewrite Ht. by apply no_bang. }
    destruct (negb (is_integer f) || py_lt_zero val); [done|].
    unfold math_factorial.
    destruct (to_int val <? 0)%Z; [done|].
    destruct (LONG_MAX <? to_int val)%Z; [done|].
    apply (IH (VInt _) (_skip_spaces (snd (_next st)))); [done|].
    by rewrite text_skip.
  - fold_next. rewrite Hf. simpl.
    destruct floats eqn:Hfl; [|done].
    rewrite lacks_peek in Hp; [done|]. rewrite Ht. by apply no_bang.
Qed.

Theorem methods_kind (fuel : nat) :
  (forall st, text st = T ->
     result_kind floats T (parse_expression lm fuel st)) /\
  (forall val st, value_kind floats val = true -> text st = T ->
     result_kind floats T (expression_loop lm fuel val st)) /\
  (forall st, text st = T ->
     result_kind floats T (parse_term lm fuel st)) /\
  (forall val st, value_kind floats val = true -> text st = T ->
     result_kind floats T (term_loop lm fuel val st)) /\
  (forall st, text st = T ->
     result_kind floats T (parse_power lm fuel st)) /\
  (forall st, text st = T ->
     result_kind floats T (parse_factor lm fuel st)) /\
  (forall st, text st = T ->
     result_kind floats T (parse_primary lm fuel st)).
Proof.
  induction fuel as [|fuel (IHe & IHel & IHt & IHtl & IHpw & IHf & IHp)];
    [by repeat split|].
  split_and!.
  - (* parse_expression *)
    intros st Ht. simpl. apply result_kind_bind; [by apply IHt|].
    intros v st1 Hv Ht1. by apply IHel.
  - (* expression_loop *)
    intros val st Hv Ht. simpl.
    destruct ((_peek (_skip_spaces st) =? "+")
              || (_peek (_skip_spaces st) =? "-")) eqn:Hop;
      [|by rewrite <- Ht, <- (text_skip st)].
    fold_next.
    apply result_kind_bind.
    { apply IHt. by rewrite <- Ht, <- (text_skip st). }
    intros rhs st1 Hr Hst1.
    apply result_kind_lift.
    + destruct (_peek (_skip_spaces st) =? "+");
        by apply overflow_not_type, py_arith_kind.
    + intros v Hv'. by apply IHel.
  - (* parse_term *)
    intros st Ht. simpl. apply result_kind_bind; [by apply IHpw|].
    intros v st1 Hv Ht1. by apply IHtl.
  - (* term_loop *)
    intros val st Hv Ht. simpl.
    destruct ((_peek (_skip_spaces st) =? "*")
              || (_peek (_skip_spaces st) =? "/")) eqn:Hop;
      [|by rewrite <- Ht, <- (text_skip st)].
    fold_next.
    apply result_kind_bind.
    { apply IHpw. by rewrite <- Ht, <- (text_skip st). }
    intros rhs st1 Hr Hst1.
    destruct (_peek (_skip_spaces st) =? "*").
    + apply result_kind_lift;
        [by apply overflow_not_type, py_arith_kind|].
      intros v Hv'. by apply IHtl.
    + destruct (py_eq_zero rhs) eqn:Hz; [done|].
      apply result_kind_lift; [by apply py_truediv_kind|].
      intros v Hv'. by apply IHtl.
  - (* parse_power *)
    intros st Ht. simpl. apply result_kind_bind; [by apply IHf|].
    intros val st1 Hv Ht1.
    assert (Hcaret : (_peek (_skip_spaces st1) =? "^") = false).
    { apply lacks_peek. by rewrite text_skip, Ht1. }
    rewrite Hcaret. simpl. by rewrite text_skip.
  - (* parse_factor *)
    intros st Ht. simpl. apply result_kind_bind; [by apply IHp|].
    intros val st1 Hv Ht1.
    apply factor_loop_kind; [done|]. by rewrite text_skip.
  - (* parse_primary *)
    intros st Ht. simpl.
    destruct (_peek (_skip_spaces st) =? "(") eqn:Hop.
    { fold_next.
      apply result_kind_bind.
      { apply IHe. by rewrite <- Ht, <- (text_skip st). }
      intros val st1 Hv Hst1.
      destruct (_peek (_skip_spaces st1) =? ")"); simpl; [|done].
      fold_next. split; [done|].
      change (text (snd (_next (_skip_spaces st1))))
        with (text (_skip_spaces st1)).
      by rewrite text_skip. }
    destruct (isdigit (_peek (_skip_spaces st))).
    { fold_next. destruct (negb _); [done|].
      destruct (bool_decide _); [done|]. simpl.
      split; [by destruct floats|].
      by rewrite <- Ht, <- (text_skip st). }
    by destruct (_peek (_skip_spaces st) =? EmptyString).
Qed.

End Fragments.

(** The same for a whole session. *)
Lemma session_kind (lm : libm) (floats : bool) (input : string) :
  lacks "^" input -> (floats = true -> lacks "!" input) ->
  match parse lm input with
  | Returns v => is_real v = true
  | Raises e => error_kind floats e
  | Diverges => False
  end.
Proof.
  intros Hc Hb. pose proof (parse_terminates lm input) as Hterm.
  unfold parse in *. unfold parse_session in *.
  set (st0 := _skip_spaces (Parser_init input)) in *.
  assert (Ht0 : text st0 = input) by apply text_skip.
  destruct (len st0 <=? i st0)%nat; [done|].
  pose proof (proj1 (methods_kind lm floats input Hc Hb
                       (fuel_for (len st0 - i st0))) st0 Ht0) as Hk.
  destruct (parse_expression lm _ st0) as [v st1|e st1|]; [|done..].
  destruct Hk as [Hv _].
  destruct (negb _); [done|]. simpl.
  unfold value_kind in Hv. destruct floats, v as [z|f|c]; try done;
    simpl; by destruct (is_integer f).
Qed.

(** X4. Where the power operator is not used, no complex number appears: an
    input without "^" never returns a complex value, never raises a
    TypeError and never fails with InvalidPower.  An input with neither "^"
    nor "!" raises none of the exceptions of the arithmetic -
    OverflowError, ZeroDivisionError, TypeError, ValueError - and never
    fails with InvalidFactorial.  (The RecursionError of the interpreter on
    deeply nested parentheses is a resource limit, which the model does not
    have; nothing is said about it.) *)
Theorem X4_plain_inputs (lm : libm) (input : string) :
  lacks "^" input ->
  ((forall c, parse lm input <> Returns (VComplex c)) /\
   parse lm input <> Raises (PyError TypeError) /\
   (forall ch e, parse lm input <> Raises (ParsingError ch (InvalidPower e))))
  /\
  (lacks "!" input ->
   parse lm input <> Raises (PyError OverflowError) /\
   parse lm input <> Raises (PyError ZeroDivisionError) /\
   parse lm input <> Raises (PyError TypeError) /\
   parse lm input <> Raises (PyError ValueError) /\
   (forall ch e,
      parse lm input <> Raises (ParsingError ch (InvalidFactorial e)))).
Proof.
  intros Hc. split.
  - assert (Hk := session_kind lm false input Hc ltac:(done)).
    destruct (parse lm input) as [v|e|]; [| |done].
    + split_and!; try done. by intros c [= ->].
    + split_and!; try done.
      * intros [= ->]. by destruct Hk.
      * by intros ch e' [= ->].
  - intros Hb. assert (Hk := session_kind lm true input Hc (fun _ => Hb)).
    destruct (parse lm input) as [v|e|]; [done| |done].
    split_and!; try (intros [= ->]; by destruct Hk).
    by intros ch e' [= ->].
Qed.

(** X4 at an instance: "6/(3-2)*4" uses neither "^" nor "!". *)
Lemma X4_plain_inputs_witness :
  parse sample_libm "6/(3-2)*4" <> Raises (PyError OverflowError) /\
  (forall c, parse sample_libm "6/(3-2)*4" <> Returns (VComplex c)).
Proof.
  assert (Hc : lacks "^" "6/(3-2)*4").
  { intros j. do 10 (destruct j as [|j]; [discriminate|]). discriminate. }
  assert (Hb : lacks "!" "6/(3-2)*4").
  { intros j. do 10 (destruct j as [|j]; [discriminate|]). discriminate. }
  destruct (X4_plain_inputs sample_libm "6/(3-2)*4" Hc) as [(H1 & _) H2].
  split; [apply (H2 Hb) | exact H1].
Defined.

(** ** The character a [ParsingError] carries *)

Lemma error_char_bind (T : string) (m : result pyval)
    (k : pyval -> Parser -> result pyval) :
  error_char_post T m ->
  (forall v st1, text st1 = T -> error_char_post T (k v st1)) ->
  error_char_post T (let! (v, st1) := m in k v st1).
Proof. intros Hm Hk. destruct m as [v st1|e st1|]; [by apply Hk|done..]. Qed.

Lemma error_char_lift (T : string) (r : res pyval) (st : Parser)
    (k : pyval -> Parser -> result pyval) :
  (forall v, error_char_post T (k v st)) ->
  error_char_post T (let! (v, st1) := lift r st in k v st1).
Proof. intros Hk. destruct r as [v|x]; simpl; [apply Hk | done]. Qed.

Lemma factor_loop_error_char (T : string) (fuel : nat) (val : pyval)
    (st : Parser) :
  text st = T -> error_char_post T (factor_loop fuel val st).
Proof.
  revert val st. induction fuel as [|fuel IH]; intros val st Ht; [done|].
  simpl. destruct (_peek st =? "!"); [|done].
  fold_next.
  destruct (to_float val) as [f|x]; [|done].
  destruct (negb (is_integer f) || py_lt_zero val); [done|].
  destruct (math_factorial (to_int val)) as [v|x]; [|done].
  apply IH. by rewrite text_skip.
Qed.

Lemma peek_char_at (st : Parser) :
  _peek st <> EmptyString -> exists j, char_at (text st) j (_peek st).
Proof. intros Hne. exists (i st). by apply peek_nonempty. Qed.

Theorem methods_error_char (lm : libm) (T : string) (fuel : nat) :
  (forall st, text st = T ->
     error_char_post T (parse_expression lm fuel st)) /\
  (forall val st, text st = T ->
     error_char_post T (expression_loop lm fuel val st)) /\
  (forall st, text st = T -> error_char_post T (parse_term lm fuel st)) /\
  (forall val st, text st = T ->
     error_char_post T (term_loop lm fuel val st)) /\
  (forall st, text st = T -> error_char_post T (parse_power lm fuel st)) /\
  (forall st, text st = T -> error_char_post T (parse_factor lm fuel st)) /\
  (forall st, text st = T -> error_char_post T (parse_primary lm fuel st)).
Proof.
  induction fuel as [|fuel (IHe & IHel & IHt & IHtl & IHpw & IHf & IHp)];
    [by repeat split|].
  split_and!.
  - intros st Ht. simpl. apply error_char_bind; [by apply IHt|].
    intros v st1 Ht1. by apply IHel.
  - intros val st Ht. simpl.
    destruct ((_peek (_skip_spaces st) =? "+")
              || (_peek (_skip_spaces st) =? "-"));
      [|by rewrite <- Ht, <- (text_skip st)].
    fold_next. apply error_char_bind.
    { apply IHt. by rewrite <- Ht, <- (text_skip st). }
    intros rhs st1 Ht1. apply error_char_lift. intros v. by apply IHel.
  - intros st Ht. simpl. apply error_char_bind; [by apply IHpw|].
    intros v st1 Ht1. by apply IHtl.
  - intros val st Ht. simpl.
    destruct ((_peek (_skip_spaces st) =? "*")
              || (_peek (_skip_spaces st) =? "/"));
      [|by rewrite <- Ht, <- (text_skip st)].
    fold_next. apply error_char_bind.
    { apply IHpw. by rewrite <- Ht, <- (text_skip st). }
    intros rhs st1 Ht1.
    destruct (_peek (_skip_spaces st) =? "*").
    + apply error_char_lift. intros v. by apply IHtl.
    + destruct (py_eq_zero rhs); [done|].
      apply error_char_lift. intros v. by apply IHtl.
  - intros st Ht. simpl. apply error_char_bind; [by apply IHf|].
    intros val st1 Ht1.
    destruct (_peek (_skip_spaces st1) =? "^");
      [|by rewrite <- Ht1, <- (text_skip st1)].
    fold_next. apply error_char_bind.
    { apply IHpw. by rewrite <- Ht1, <- (text_skip st1). }
    intros rhs st2 Ht2. by destruct (py_pow lm val rhs).
  - intros st Ht. simpl. apply error_char_bind; [by apply IHp|].
    intros val st1 Ht1. apply factor_loop_error_char.
    by rewrite text_skip.
  - intros st Ht. simpl.
    assert (Hts : text (_skip_spaces st) = T) by (by rewrite text_skip).
    destruct (_peek (_skip_spaces st) =? "(") eqn:Hop.
    { fold_next. apply error_char_bind; [by apply IHe|].
      intros val st1 Ht1.
      destruct (_peek (_skip_spaces st1) =? ")"); simpl; [|done].
      fold_next.
      change (text (snd (_next (_skip_spaces st1))))
        with (text (_skip_spaces st1)).
      by rewrite text_skip. }
    destruct (isdigit (_peek (_skip_spaces st))) eqn:Hd.
    { fold_next.
      assert (Hat : exists j, char_at T j (_peek (_skip_spaces st))).
      { rewrite <- Hts. by apply peek_char_at, isdigit_nonempty. }
      destruct (negb _); [done|].
      destruct (bool_decide _); [done|]. done. }
    destruct (_peek (_skip_spaces st) =? EmptyString) eqn:He; [done|].
    simpl. split_and!.
    + rewrite <- Hts. apply peek_char_at. by apply String.eqb_neq.
    + done.
    + apply skip_spaces_stops.
    + by apply String.eqb_neq.
Qed.

Lemma session_error_char (lm : libm) (input : string) (e : exception) :
  parse lm input = Raises e -> error_char_ok input e.
Proof.
  unfold parse. intros Hp.
  destruct (parse_session lm input) as [v st|e' st|] eqn:Hs;
    try discriminate.
  injection Hp as ->. unfold parse_session in Hs.
  set (st0 := _skip_spaces (Parser_init input)) in *.
  assert (Ht0 : text st0 = input) by apply text_skip.
  destruct (len st0 <=? i st0)%nat; [by injection Hs as <- _|].
  pose proof (proj1 (methods_error_char lm input
                       (fuel_for (len st0 - i st0))) st0 Ht0) as Hk.
  pose proof (proj1 (methods_post lm (fuel_for (len st0 - i st0))) st0)
    as Hpost.
  destruct (parse_expression lm _ st0) as [val st1|e1 st1|];
    [|by injection Hs as <- _|done].
  simpl in Hk.
  destruct (i (_skip_spaces st1) =? len (_skip_spaces st1))%nat eqn:Hend;
    simpl in Hs; [done|].
  injection Hs as <- _. simpl.
  assert (Hadv : advances (Parser_init input) (_skip_spaces st1)).
  { eapply advances_trans; [apply advances_skip|].
    eapply advances_trans; [exact Hpost | apply advances_skip]. }
  destruct Hadv as [(Ht & Hl & _ & _ & Hok) _].
  destruct (Hok (init_ok input)) as (Hlen & Hle & _).
  apply Nat.eqb_neq in Hend.
  split; [|apply skip_spaces_stops].
  replace input with (text (_skip_spaces st1)) by (by rewrite Ht).
  apply peek_char_at, peek_inside; [done | lia].
Qed.

(** X2. The character of a [ParsingError] raised by [parse] is empty exactly
    for the two errors met at the end of the input (EmptyInput and
    UnexpectedEnd); otherwise it is one character: "/", "^", "!" or ")" for
    DivisionByZero, InvalidPower, InvalidFactorial and MissingClosingParen,
    and else a character of the input (a digit for the two digit errors, a
    significant non-digit other than "(" for DisallowedCharacter).  So
    [__str__] prints "Fehler: msg" for those two errors and "Fehler bei
    Zeichen c: msg" for every other one. *)
Theorem X2_error_character (lm : libm) (input ch : string) (msg : message) :
  parse lm input = Raises (ParsingError ch msg) ->
  error_char_ok input (ParsingError ch msg) /\
  (ch = EmptyString <-> at_end_message msg = true) /\
  (at_end_message msg = false -> exists c, ch = String c EmptyString) /\
  (forall m, ParsingError_str ch m =
     if at_end_message msg then "Fehler: " ++ m
     else "Fehler bei Zeichen " ++ ch ++ ": " ++ m).
Proof.
  intros Hp. pose proof (session_error_char lm input _ Hp) as Hok.
  split; [done|].
  assert (Hcases : (at_end_message msg = true /\ ch = EmptyString) \/
                   (at_end_message msg = false /\
                    exists c, ch = String c EmptyString)).
  { destruct msg; simpl in Hok; simpl;
      try (left; by split); right; split; try done;
      try (subst ch; by eexists);
      destruct Hok as [(j & c & _ & ->) _]; by eexists. }
  destruct Hcases as [[Hm ->]|[Hm (c & ->)]]; rewrite Hm.
  - split_and!; done.
  - split_and!; [done | by eexists | done].
Qed.

(** X2 at an instance: the error of "1+", and the error of "1+x". *)
Lemma X2_error_character_witness :
  ParsingError_str EmptyString "Unerwartetes Ende" =
    "Fehler: Unerwartetes Ende" /\
  ParsingError_str "x" "Wert erwartet." =
    "Fehler bei Zeichen x: Wert erwartet.".
Proof.
  split.
  - apply (X2_error_character sample_libm "1+" EmptyString UnexpectedEnd).
    vm_compute. reflexivity.
  - apply (X2_error_character sample_libm "1+x" "x" DisallowedCharacter).
    vm_compute. reflexivity.
Defined.

(** ** Insignificant characters are not seen *)

(** X1. [parse] sees only the significant characters: two inputs that are
    equal once whitespace and backticks are removed give the same outcome,
    the same value or the same error.  So spaces may be put anywhere and a
    message may be wrapped in backticks. *)
Theorem X1_insignificant_characters (lm : libm) (input1 input2 : string) :
  strip input1 = strip input2 ->
  parse lm input1 = parse lm input2.
Proof. apply parse_same_strip. Qed.

(** X1 at an instance: a message wrapped in backticks and spaced out. *)
Lemma X1_insignificant_characters_witness :
  parse sample_libm "` 6 ^ 4 + 1 `" = parse sample_libm "6^4+1".
Proof.
  apply (X1_insignificant_characters sample_libm). reflexivity.
Defined.

(* ===================================================================== *)
(** * The counting game *)

(** ** [strip()] before [parse] *)

Lemma space_insignificant (c : ascii) :
  space_char c = true -> insignificant (String c EmptyString) = true.
Proof.
  intros H. unfold insignificant, isspace. simpl. by rewrite H.
Qed.

Lemma strip_lstrip (s : string) : strip (lstrip s) = strip s.
Proof.
  induction s as [|c s IH]; [done|]. simpl.
  destruct (space_char c) eqn:Hc; [|done].
  by rewrite (space_insignificant c Hc).
Qed.

Lemma strip_rstrip (s : string) : strip (rstrip s) = strip s.
Proof.
  induction s as [|c s IH]; [done|]. simpl.
  destruct (rstrip s) as [|c' r] eqn:Hr.
  - simpl in IH. destruct (space_char c) eqn:Hc.
    + by rewrite (space_insignificant c Hc).
    + simpl. by rewrite <- IH.
  - change (strip (String c (String c' r))) with
      (if insignificant (String c EmptyString) then strip (String c' r)
       else String c (strip (String c' r))).
    by rewrite IH.
Qed.

Lemma strip_str_strip (s : string) : strip (str_strip s) = strip s.
Proof. unfold str_strip. by rewrite strip_rstrip, strip_lstrip. Qed.

Lemma strip_strip (s : string) : strip (strip s) = strip s.
Proof.
  induction s as [|c s IH]; [done|]. simpl.
  destruct (insignificant (String c EmptyString)) eqn:Hc; [done|].
  simpl. by rewrite Hc, IH.
Qed.

(** X5. The [strip()] that [on_message] applies to the content before it
    calls [parse] changes no outcome, as [parse] passes over whitespace
    itself; nor does removing every whitespace character and backtick. *)
Theorem X5_strip_is_redundant (lm : libm) (input : string) :
  parse lm (str_strip input) = parse lm input /\
  parse lm (strip input) = parse lm input.
Proof.
  split; apply parse_same_strip;
    [apply strip_str_strip | apply strip_strip].
Qed.

(** ** Every stretch of every handler keeps [game_ok] *)

Ltac game_auto :=
  unfold step_ok, resume_ok, game_ok, moves, winds_down in *; simpl in *;
  intuition (try lia; try congruence; try constructor).

Lemma moves_refl (g : Game) : moves g g.
Proof. game_auto. Qed.

Lemma winds_down_refl (g : Game) : winds_down g g.
Proof. game_auto. Qed.

Lemma winds_down_moves (g g' : Game) : winds_down g g' -> moves g g'.
Proof.
  intros (H1 & H2 & [->|[H3 H4]]); [apply moves_refl|].
  unfold moves. split_and!; [lia | by right; right | done].
Qed.

Lemma resume_step_ok (g : Game) (gt : Game * task) :
  resume_ok g gt -> step_ok g gt.
Proof.
  intros (H1 & H2 & H3). split_and!; [done | by apply winds_down_moves | done].
Qed.

Lemma resume_ok_stop (g : Game) (t : task) :
  game_ok g -> t = Finished \/ (exists e, t = Crashed e) ->
  resume_ok g (g, t).
Proof.
  intros Hg Ht. split_and!; [done | apply winds_down_refl |].
  destruct Ht as [->|[e ->]]; constructor.
Qed.

Lemma obeys_await (c : call) (k : Z -> Game -> Game * task) :
  call_ok c ->
  (forall now g1, game_ok g1 -> resume_ok g1 (k now g1)) ->
  obeys winds_down call_ok (await c k).
Proof.
  intros Hc Hk.
  constructor; [done|..]; intros [] now g1 Hg1; simpl;
    try apply (Hk now g1 Hg1); try done;
    [apply winds_down_refl | constructor].
Qed.

Lemma step_ok_await (g g' : Game) (c : call)
    (k : Z -> Game -> Game * task) :
  game_ok g' -> moves g g' -> call_ok c ->
  (forall now g1, game_ok g1 -> resume_ok g1 (k now g1)) ->
  step_ok g (g', await c k).
Proof.
  intros Hg Hm Hc Hk. split_and!; [done..|]. by apply obeys_await.
Qed.

Lemma resume_ok_await (g : Game) (c : call)
    (k : Z -> Game -> Game * task) :
  game_ok g -> call_ok c ->
  (forall now g1, game_ok g1 -> resume_ok g1 (k now g1)) ->
  resume_ok g (g, await c k).
Proof.
  intros Hg Hc Hk.
  split_and!; [done | apply winds_down_refl | by apply obeys_await].
Qed.

Lemma step_ok_stop (g : Game) (t : task) :
  game_ok g -> t = Finished \/ (exists e, t = Crashed e) -> step_ok g (g, t).
Proof. intros Hg Ht. by apply resume_step_ok, resume_ok_stop. Qed.

Lemma step_ok_finish (g g' : Game) (c : call) :
  game_ok g' -> moves g g' -> call_ok c -> step_ok g (g', await c finish).
Proof.
  intros Hg Hm Hc. apply step_ok_await; try done.
  intros now g1 Hg1. apply resume_ok_stop; auto.
Qed.

Lemma resume_ok_finish (g : Game) (c : call) :
  game_ok g -> call_ok c -> resume_ok g (g, await c finish).
Proof.
  intros Hg Hc. apply resume_ok_await; try done.
  intros now g1 Hg1. apply resume_ok_stop; auto.
Qed.

Lemma resume_ok_reset (cooldown now : Z) (g : Game) :
  game_ok g -> resume_ok g (end_game_reset cooldown now g).
Proof.
  intros Hg. unfold end_game_reset.
  destruct (add_minutes now cooldown) as [t|e]; game_auto.
Qed.

Lemma resume_ok_end_game (text : reply) (cooldown : Z) (g : Game) :
  game_ok g -> (2 <= cooldown)%Z ->
  match text with Highscore _ _ | GameOver _ _ => False | _ => True end ->
  resume_ok g (end_game text cooldown g).
Proof.
  intros Hg Hc Ht. unfold end_game.
  apply resume_ok_await; [done | done |].
  intros _ g1 Hg1.
  apply resume_ok_await; [done | by destruct text |].
  intros _ g2 Hg2.
  destruct (negb _); [apply resume_ok_stop; eauto|].
  apply resume_ok_await; [done | |].
  - simpl. split; [apply Hg2 | done].
  - intros now g3 Hg3. by apply resume_ok_reset.
Qed.

Section BotFacts.

Variable lm : libm.

Lemma game_ok_started (b : bool) (g : Game) :
  game_ok g -> (game_started g = true -> b = true) ->
  game_ok (set_game_started b g).
Proof. intros Hg Hb. game_auto. Qed.

Lemma game_ok_cooldown (t : option Z) (g : Game) :
  game_ok g -> game_ok (set_cooldown_until t g).
Proof. intros Hg. game_auto. Qed.

Lemma step_ok_game (m : Message) (g : Game) :
  game_ok g -> step_ok g (on_message_game lm m g).
Proof.
  intros Hg. unfold on_message_game.
  destruct (negb (game_started g)) eqn:Hst.
  { destruct (_ =? "start").
    - apply step_ok_finish; [|game_auto|done].
      apply game_ok_started; [done|]. by destruct (game_started g).
    - apply step_ok_await; [done | apply moves_refl | done |].
      intros _ g1 Hg1. by apply resume_ok_finish. }
  destruct (match last_player_id g with Some _ => _ | None => _ end).
  { apply step_ok_await; [done | apply moves_refl | done |].
    intros _ g1 Hg1. apply resume_ok_end_game; [done | lia | done]. }
  pose proof (parse_terminates lm (str_strip (content m))) as Hterm.
  destruct (parse lm (str_strip (content m))) as [v|[ch msg|e]|];
    [| |apply step_ok_stop; eauto|done].
  - destruct (py_eq_int v (current_count g + 1)).
    + assert (Hon : game_started g = true)
        by (destruct (game_started g); [done | by simpl in Hst]).
      apply step_ok_finish; [| |done];
        cbn [current_highscore current_count set_last_player_id
             set_current_count];
        destruct (current_highscore g <? current_count g + 1)%Z eqn:Hhs;
        [apply Z.ltb_lt in Hhs|apply Z.ltb_ge in Hhs
        |apply Z.ltb_lt in Hhs|apply Z.ltb_ge in Hhs]; game_auto.
    + destruct (negb (str_ok v && _)); [apply step_ok_stop; eauto|].
      apply resume_step_ok, resume_ok_end_game; [done | lia | done].
  - apply resume_step_ok, resume_ok_end_game; [done | lia | done].
Qed.

Lemma step_ok_on_message (m : Message) (now : Z) (g : Game) :
  game_ok g -> step_ok g (on_message lm m now g).
Proof.
  intros Hg. unfold on_message.
  destruct (author_is_bot_user m); [apply step_ok_stop; auto|].
  destruct (content m) as [|c0 rest] eqn:Hcontent;
    [apply step_ok_stop; eauto|].
  destruct (Ascii.eqb c0 "\"); [apply step_ok_stop; auto|].
  destruct (negb _); [apply step_ok_stop; auto|].
  destruct (_ || _);
    [by apply step_ok_finish; [|apply moves_refl|]|].
  destruct (_ =? "?highscore").
  { destruct (current_highscore g =? 0)%Z eqn:Hz;
      [by apply step_ok_finish; [|apply moves_refl|]|].
    destruct (negb _); [apply step_ok_stop; eauto|].
    apply step_ok_finish; [done | apply moves_refl |].
    apply Z.eqb_neq in Hz. destruct Hg as (Hc & Hs & Hn).
    simpl. split; [lia | apply Hn; lia]. }
  destruct (_ || _); [apply step_ok_stop; auto|].
  destruct (cooldown_until g) as [t|] eqn:Hcd; [|by apply step_ok_game].
  destruct (now <? t)%Z.
  - apply step_ok_await; [done | apply moves_refl | done |].
    intros _ g1 Hg1. by apply resume_ok_finish.
  - pose proof (step_ok_game m (set_cooldown_until None g)
                  (game_ok_cooldown None g Hg)) as (H1 & H2 & H3).
    split_and!; [done | apply H2 | done].
Qed.

Lemma resumes_keep (s : System) (k : nat) (r : await_result) (now : Z) :
  system_ok s ->
  system_ok (step lm s (Resumes k r now)) /\
  winds_down (game s) (game (step lm s (Resumes k r now))).
Proof.
  intros [Hg Hp]. simpl.
  destruct (pool s !! k) as [[| | |c resume]|] eqn:Hk;
    try (split; [done | apply winds_down_refl]).
  pose proof (proj1 (Forall_lookup _ _) Hp k _ Hk) as Hob.
  inversion Hob as [| |c' resume' Hc H1 H2 H3]; subst.
  specialize (H1 r now (game s) Hg). specialize (H2 r now (game s) Hg).
  specialize (H3 r now (game s) Hg).
  destruct (resume r now (game s)) as [g t]; simpl in *.
  split; [|done]. split; [done|]. simpl.
  by apply Forall_insert.
Qed.

Lemma step_keeps (s : System) (e : event) :
  system_ok s ->
  system_ok (step lm s e) /\ moves (game s) (game (step lm s e)).
Proof.
  intros Hs. destruct e as [found|m now|k r now].
  - destruct Hs as [Hg Hp]. simpl.
    split; [|apply moves_refl]. split; [done|]. simpl.
    apply Forall_app. split; [done|]. apply Forall_singleton.
    unfold on_ready. destruct found; [|constructor].
    apply obeys_await; [done|].
    intros now g1 Hg1. apply resume_ok_stop; auto.
  - destruct Hs as [Hg Hp]. simpl.
    pose proof (step_ok_on_message m now (game s) Hg) as (H1 & H2 & H3).
    destruct (on_message lm m now (game s)) as [g t]; simpl in *.
    split; [|done]. split; [done|]. simpl.
    apply Forall_app. split; [done|]. by apply Forall_singleton.
  - destruct (resumes_keep s k r now Hs) as [H1 H2].
    split; [done | by apply winds_down_moves].
Qed.

Lemma run_keeps (es : list event) (s : System) :
  system_ok s ->
  system_ok (fold_left (step lm) es s) /\
  (current_highscore (game s)
   <= current_highscore (game (fold_left (step lm) es s)))%Z.
Proof.
  revert s. induction es as [|e es IH]; intros s Hs; simpl; [done|].
  destruct (step_keeps s e Hs) as [Hs' Hm].
  destruct (IH _ Hs') as [H1 H2]. split; [done|].
  destruct Hm as [Hm _]. lia.
Qed.

Lemma initial_ok : system_ok initial_system.
Proof. split; [|constructor]. game_auto. Qed.

Lemma reached_ok (es : list event) : system_ok (run_events lm es).
Proof. apply run_keeps, initial_ok. Qed.

End BotFacts.

(** X6. Whatever messages arrive and however the handlers are interleaved
    at their [await]s, with Discord calls that complete or fail: the count
    is between 0 and the highscore, a positive count belongs to a started
    game with a last player, and a positive highscore has a holder; no
    handler hangs; a handler that waits at [?highscore]'s reply names a
    holder, never [None], and one that waits at the game-over text
    announces a cooldown of at least two minutes. *)
Theorem X6_game_invariant (lm : libm) (es : list event) :
  game_ok (game (run_events lm es)) /\
  Forall (fun t =>
            t <> Hung /\
            forall c resume, t = Awaiting c resume -> call_ok c)
         (pool (run_events lm es)).
Proof.
  destruct (reached_ok lm es) as [Hg Hp]. split; [done|].
  eapply Forall_impl; [exact Hp|].
  intros t Hob. inversion Hob; subst; split; try done.
  intros c' resume' [= <- <-]. done.
Qed.

(** X7. Over any run of the bot the highscore never falls, and it changes
    hands only when it rises; one event leaves the count as it is, adds
    one to it, or sets it to 0. *)
Theorem X7_highscore_never_falls (lm : libm) (es es' : list event)
    (e : event) :
  moves (game (run_events lm es)) (game (run_events lm (es ++ [e]))) /\
  (current_highscore (game (run_events lm es))
   <= current_highscore (game (run_events lm (es ++ es'))))%Z.
Proof.
  unfold run_events. rewrite !fold_left_app. simpl. split.
  - apply step_keeps, reached_ok.
  - apply run_keeps, reached_ok.
Qed.

(** X8. A handler that has got past its first [await] never counts and
    never starts a game: when it is resumed it leaves the global variables
    as they are, or it ends the game (count 0, game not started); the
    highscore and its holder stay.  So the count goes up only in the first
    stretch of [on_message], which no other handler can interrupt. *)
Theorem X8_resumed_handlers_only_end_games (lm : libm) (es : list event)
    (k : nat) (r : await_result) (now : Z) :
  winds_down (game (run_events lm es))
             (game (run_events lm (es ++ [Resumes k r now]))).
Proof.
  unfold run_events. rewrite fold_left_app. simpl.
  apply (resumes_keep lm), reached_ok.
Qed.

(** ** One message at a time *)

Lemma str_int_ok_small (z : Z) :
  (Z.abs z < 10 ^ 18)%Z -> str_int_ok z = true.
Proof.
  intros H. unfold str_int_ok. apply Z.ltb_lt.
  eapply Z.lt_le_trans; [exact H|].
  apply Z.pow_le_mono_r; unfold INT_MAX_STR_DIGITS; lia.
Qed.

Lemma add_minutes_bound (now cooldown t : Z) :
  (0 <= now)%Z -> add_minutes now cooldown = Val t ->
  (cooldown < 10 ^ 18)%Z /\ (t = now + cooldown * 60000000)%Z.
Proof.
  unfold add_minutes, MAX_DATETIME. intros Hnow H.
  destruct (_ && _) eqn:Hb; [|done].
  apply andb_true_iff in Hb as [H1 H2].
  apply Z.leb_le in H1, H2. injection H as <-. lia.
Qed.

Lemma set_cooldown_same (g : Game) :
  cooldown_until g = None -> set_cooldown_until None g = g.
Proof. destruct g; simpl; by intros ->. Qed.

Section Turns.

Variable lm : libm.

Lemma on_message_in_game (m : Message) (now : Z) (g : Game) :
  reaches_game m = true -> cooling now g = false ->
  on_message lm m now g = on_message_game lm m (set_cooldown_until None g).
Proof.
  unfold reaches_game, cooling, on_message. intros Hr Hc.
  destruct (author_is_bot_user m); [done|].
  destruct (content m) as [|c0 rest] eqn:Hcontent;
    [by rewrite andb_false_r in Hr|].
  simpl in Hr.
  apply andb_true_iff in Hr as [Hch Hr].
  apply andb_true_iff in Hr as [Hq Hb].
  apply negb_true_iff in Hq, Hb.
  rewrite Hb, Hq, Hch. simpl. rewrite Hq. simpl.
  destruct (cooldown_until g) as [t|] eqn:Hcd.
  - by rewrite Hc.
  - by rewrite set_cooldown_same.
Qed.

Lemma on_message_cooling (m : Message) (now t : Z) (g : Game) :
  reaches_game m = true -> cooldown_until g = Some t -> (now < t)%Z ->
  on_message lm m now g =
  (g, await (add_reaction Hourglass) (fun _ g0 =>
        (g0, await (send (CooldownActive (t - now))) finish))).
Proof.
  unfold reaches_game, on_message. intros Hr Hcd Hlt.
  destruct (author_is_bot_user m); [done|].
  destruct (content m) as [|c0 rest] eqn:Hcontent;
    [by rewrite andb_false_r in Hr|].
  simpl in Hr.
  apply andb_true_iff in Hr as [Hch Hr].
  apply andb_true_iff in Hr as [Hq Hb].
  apply negb_true_iff in Hq, Hb.
  rewrite Hb, Hq, Hch. simpl. rewrite Hq. simpl.
  rewrite Hcd. apply Z.ltb_lt in Hlt. by rewrite Hlt.
Qed.

(** What [on_message] does with a message that does not get to the game. *)
Lemma on_message_outside (m : Message) (now : Z) (g : Game) :
  reaches_game m = false ->
  exists t, on_message lm m now g = (g, t) /\
    (t = Finished \/
     (t = Crashed IndexError /\
      author_is_bot_user m = false /\ content m = EmptyString) \/
     (t = Crashed (BuiltinError ValueError) /\ content m = "?highscore" /\
      str_int_ok (current_highscore g) = false) \/
     (t = await (send Rules) finish /\
      (content m = "?rules" \/ content m = "?help")) \/
     (t = await (send NoHighscore) finish /\ content m = "?highscore" /\
      current_highscore g = 0%Z) \/
     (t = await (send (Highscore (current_highscore g)
                         (current_highscore_player_name g))) finish /\
      content m = "?highscore" /\ current_highscore g <> 0%Z)).
Proof.
  unfold reaches_game, on_message. intros Hr.
  destruct (author_is_bot_user m); [eauto|].
  destruct (content m) as [|c0 rest] eqn:Hcontent; [eauto 10|].
  destruct (Ascii.eqb c0 "\") eqn:Hb; [eauto|].
  destruct (channel_id m =? COUNTING_CHANNEL_ID)%Z eqn:Hch; [|simpl; eauto].
  cbn [negb].
  destruct (_ || _) eqn:Hcmd.
  { eexists. split; [done|]. do 3 right. left. split; [done|].
    apply orb_true_iff in Hcmd as [H|H]; apply String.eqb_eq in H; auto. }
  destruct (_ =? "?highscore") eqn:Hhs.
  { apply String.eqb_eq in Hhs.
    destruct (current_highscore g =? 0)%Z eqn:Hz.
    - apply Z.eqb_eq in Hz. eexists. split; [done|]. do 4 right. left. auto.
    - apply Z.eqb_neq in Hz.
      destruct (str_int_ok (current_highscore g)) eqn:Hok; simpl.
      + eexists. split; [done|]. do 5 right. auto.
      + eexists. split; [done|]. do 2 right. left. auto. }
  simpl in Hr. rewrite andb_true_r in Hr. apply negb_false_iff in Hr. rewrite Hr.
  simpl. eauto.
Qed.

End Turns.

Section TurnTheorems.

Variable lm : libm.

Lemma run_stopped (env : list (await_result * Z)) (g : Game) (t : task) :
  t = Finished \/ (exists e, t = Crashed e) -> run env (g, t) = (g, t, []).
Proof. intros [->|[e ->]]; by destruct env. Qed.

Lemma run_finish (env : list (await_result * Z)) (g : Game) (c : call) :
  exists t cs, run env (g, await c finish) = (g, t, cs) /\
    (cs = [] \/ cs = [c]).
Proof.
  destruct env as [|[[] now] env]; simpl.
  - eexists _, _. split; [done | by left].
  - unfold finish. rewrite run_stopped by auto.
    eexists _, _. split; [reflexivity | by right].
  - rewrite run_stopped by eauto.
    eexists _, _. split; [reflexivity | by right].
Qed.

End TurnTheorems.

(** X9. A message that does not get to the game - the bot's own, one
    outside the counting channel, one that starts with a backslash or a
    question mark - never changes the global variables, however far its
    handler runs; the only calls are the replies to [?rules], [?help] and
    [?highscore].  A message of somebody else without text makes the
    handler fail with [IndexError], in every channel. *)
Theorem X9_messages_outside_the_game (lm : libm) (m : Message) (now : Z)
    (g : Game) (env : list (await_result * Z)) :
  reaches_game m = false ->
  (exists t cs, run env (on_message lm m now g) = (g, t, cs) /\
     (cs = [] \/ cs = [send Rules] \/ cs = [send NoHighscore] \/
      (cs = [send (Highscore (current_highscore g)
                     (current_highscore_player_name g))] /\
       current_highscore g <> 0%Z))) /\
  (on_message lm m now g = (g, Crashed IndexError) <->
   author_is_bot_user m = false /\ content m = EmptyString).
Proof.
  intros Hr. split.
  - destruct (on_message_outside lm m now g Hr) as (t & -> & Ht).
    destruct Ht as [->|[(-> & Hb & Hc)|[(-> & Hc & Hs)|[(-> & Hc)|
                   [(-> & Hc & Hz)|(-> & Hc & Hz)]]]]].
    + rewrite run_stopped by auto. eexists _, _. split; [done | auto].
    + rewrite run_stopped by eauto. eexists _, _. split; [done | auto].
    + rewrite run_stopped by eauto. eexists _, _. split; [done | auto].
    + destruct (run_finish env g (send Rules)) as (t & cs & -> & [->| ->]);
        eexists _, _; split; try done; auto.
    + destruct (run_finish env g (send NoHighscore))
        as (t & cs & -> & [->| ->]); eexists _, _; split; try done; auto.
    + destruct (run_finish env g
                  (send (Highscore (current_highscore g)
                           (current_highscore_player_name g))))
        as (t & cs & -> & [->| ->]); eexists _, _; split; try done; auto.
  - split.
    + intros Heq.
      destruct (on_message_outside lm m now g Hr) as (t & Ht & Hcases).
      rewrite Heq in Ht. injection Ht as <-.
      destruct Hcases as [?|[(_ & Hb & Hc)|[(? & _)|[(? & _)|
                         [(? & _)|(? & _)]]]]]; done.
    + intros [Hb Hc]. unfold on_message. by rewrite Hb, Hc.
Qed.

(** X9 at an instance: a message with a leading backslash. *)
Lemma X9_messages_outside_the_game_witness :
  exists t cs,
    run [] (on_message sample_libm (player_message 7 "\ 1+1") 0
              (running_game 5 None))
    = (running_game 5 None, t, cs) /\
    (cs = [] \/ cs = [send Rules] \/ cs = [send NoHighscore] \/
     (cs = [send (Highscore (current_highscore (running_game 5 None))
              (current_highscore_player_name (running_game 5 None)))] /\
      current_highscore (running_game 5 None) <> 0%Z)).
Proof.
  apply (X9_messages_outside_the_game sample_libm
           (player_message 7 "\ 1+1") 0 (running_game 5 None) []).
  reflexivity.
Defined.

(** X10. While the cooldown is on, a message that gets to the game is not
    looked at: whatever its text and however far its handler runs, the
    global variables stay as they are; the handler adds the hourglass and
    tells the time that is left, which is positive.  Once the time is
    reached the message is handled as if there were no cooldown. *)
Theorem X10_cooldown (lm : libm) (m : Message) (now t : Z) (g : Game) :
  reaches_game m = true -> cooldown_until g = Some t ->
  ((now < t)%Z ->
     (forall env, fst (fst (run env (on_message lm m now g))) = g) /\
     (forall n1 n2,
        run [(Completed, n1); (Completed, n2)] (on_message lm m now g)
        = (g, Finished,
           [add_reaction Hourglass; send (CooldownActive (t - now))])) /\
     (0 < t - now)%Z) /\
  ((t <= now)%Z ->
     on_message lm m now g
     = on_message lm m now (set_cooldown_until None g)).
Proof.
  intros Hr Hcd. split.
  - intros Hlt. rewrite (on_message_cooling lm m now t g Hr Hcd Hlt).
    split_and!; [|done|lia].
    intros [|[[] n1] [|[[] n2] env]]; simpl; unfold finish;
      rewrite ?run_stopped by eauto; reflexivity.
  - intros Hle.
    rewrite !on_message_in_game; try done.
    unfold cooling. rewrite Hcd. by apply Z.ltb_ge.
Qed.

(** X10 at an instance: ten seconds before the end of a cooldown. *)
Lemma X10_cooldown_witness :
  run [(Completed, 1); (Completed, 2)]
      (on_message sample_libm (player_message 7 "1") 50000000
         (set_cooldown_until (Some 60000000) initial_game))
  = (set_cooldown_until (Some 60000000) initial_game, Finished,
     [add_reaction Hourglass; send (CooldownActive (60000000 - 50000000))]).
Proof.
  apply (X10_cooldown sample_libm (player_message 7 "1") 50000000 60000000
           (set_cooldown_until (Some 60000000) initial_game));
    [reflexivity | reflexivity | lia].
Defined.

(** X11. The count goes up, in the first stretch of [on_message], exactly
    when the message gets to the game, no cooldown is on, the game is
    started, the author did not take the last turn, and [parse] on the
    stripped content returns a value equal to the count plus one.  Then the
    author is the last player, the highscore follows the count and takes
    the author's name when it rises, and the only call is the check mark. *)
Theorem X11_count_advances (lm : libm) (m : Message) (now : Z) (g : Game) :
  (current_count (fst (on_message lm m now g)) = (current_count g + 1)%Z <->
   reaches_game m = true /\ cooling now g = false /\
   game_started g = true /\ double_turn m g = false /\
   exists v, parse lm (str_strip (content m)) = Returns v /\
             py_eq_int v (current_count g + 1) = true) /\
  (reaches_game m = true -> cooling now g = false ->
   game_started g = true -> double_turn m g = false ->
   forall v, parse lm (str_strip (content m)) = Returns v ->
             py_eq_int v (current_count g + 1) = true ->
   on_message lm m now g =
   ({| current_count := current_count g + 1;
       game_started := true;
       cooldown_until := None;
       last_player_id := Some (author_id m);
       current_highscore :=
         Z.max (current_highscore g) (current_count g + 1);
       current_highscore_player_name :=
         if (current_highscore g <? current_count g + 1)%Z
         then Some (author_display_name m)
         else current_highscore_player_name g |},
    await (add_reaction CheckMark) finish)).
Proof.
  assert (Hgo : reaches_game m = true -> cooling now g = false ->
    game_started g = true -> double_turn m g = false ->
    forall v, parse lm (str_strip (content m)) = Returns v ->
              py_eq_int v (current_count g + 1) = true ->
    on_message lm m now g =
    ({| current_count := current_count g + 1;
        game_started := true;
        cooldown_until := None;
        last_player_id := Some (author_id m);
        current_highscore :=
          Z.max (current_highscore g) (current_count g + 1);
        current_highscore_player_name :=
          if (current_highscore g <? current_count g + 1)%Z
          then Some (author_display_name m)
          else current_highscore_player_name g |},
     await (add_reaction CheckMark) finish)).
  { intros Hr Hc Hs Hd v Hp He.
    rewrite on_message_in_game by done. unfold on_message_game.
    unfold double_turn in Hd.
    destruct g as [c s cd l h n]; simpl in *. subst s.
    rewrite Hd, Hp, He. simpl.
    destruct (h <? c + 1)%Z eqn:Hhs;
      [apply Z.ltb_lt in Hhs; rewrite Z.max_r by lia
      |apply Z.ltb_ge in Hhs; rewrite Z.max_l by lia]; reflexivity. }
  split; [|exact Hgo]. split.
  - intros Hcount.
    destruct (reaches_game m) eqn:Hr.
    2:{ destruct (on_message_outside lm m now g Hr) as (t & Ht & _).
        rewrite Ht in Hcount. simpl in Hcount. lia. }
    destruct (cooling now g) eqn:Hc.
    { unfold cooling in Hc.
      destruct (cooldown_until g) as [t|] eqn:Hcd; [|done].
      apply Z.ltb_lt in Hc.
      rewrite (on_message_cooling lm m now t g Hr Hcd Hc) in Hcount.
      simpl in Hcount. lia. }
    rewrite on_message_in_game in Hcount by done.
    unfold on_message_game, double_turn in *.
    cbn [game_started last_player_id current_count set_cooldown_until]
      in Hcount.
    destruct (game_started g).
    2:{ simpl in Hcount. destruct (_ =? "start"); simpl in Hcount; lia. }
    cbn [negb] in Hcount.
    destruct (match last_player_id g with Some _ => _ | None => _ end).
    { simpl in Hcount. lia. }
    destruct (parse lm (str_strip (content m))) as [v|[ch msg|e]|];
      try (simpl in Hcount; lia).
    destruct (py_eq_int v (current_count g + 1)) eqn:He.
    + split_and!; try done. by exists v.
    + destruct (negb (str_ok v && _)); simpl in Hcount; lia.
  - intros (Hr & Hc & Hs & Hd & v & Hp & He).
    by rewrite (Hgo Hr Hc Hs Hd v Hp He).
Qed.

(** X11 at an instance: [3-2] counts as 1 in a game that was just
    started. *)
Lemma X11_count_advances_witness :
  on_message sample_libm (player_message 7 "3-2") 0 (running_game 0 None)
  = ({| current_count := 0 + 1;
        game_started := true;
        cooldown_until := None;
        last_player_id := Some 7%Z;
        current_highscore := Z.max 3 (0 + 1);
        current_highscore_player_name :=
          if (3 <? 0 + 1)%Z then Some "player" else Some "holder" |},
     await (add_reaction CheckMark) finish).
Proof.
  apply (proj2 (X11_count_advances sample_libm (player_message 7 "3-2") 0
                  (running_game 0 None)))
    with (v := VInt 1); reflexivity.
Defined.

(** The state [end_game] leaves. *)
Lemma run_end_game (text : reply) (cooldown n1 n2 n3 t : Z) (g : Game) :
  (0 <= current_count g < cooldown)%Z -> (0 <= n3)%Z ->
  add_minutes n3 cooldown = Val t ->
  run [(Completed, n1); (Completed, n2); (Completed, n3)]
      (end_game text cooldown g)
  = ({| current_count := 0; game_started := false;
        cooldown_until := Some t; last_player_id := None;
        current_highscore := current_highscore g;
        current_highscore_player_name := current_highscore_player_name g |},
     Finished,
     [add_reaction CrossMark; send text;
      send (GameOver (current_count g) cooldown)]).
Proof.
  intros Hg Hn Ht.
  destruct (add_minutes_bound n3 cooldown t Hn Ht) as [Hb _].
  assert (H1 : str_int_ok cooldown = true)
    by (apply str_int_ok_small; lia).
  assert (H2 : str_int_ok (current_count g) = true)
    by (apply str_int_ok_small; lia).
  unfold end_game. simpl. rewrite H1, H2. simpl.
  unfold end_game_reset. rewrite Ht. reflexivity.
Qed.

(** X12. A wrong or invalid answer ends the game.  In a started game with
    no cooldown on, when the author did not take the last turn and [parse]
    raises a [ParsingError] or returns a value that is not the count plus
    one, the handler, run to its end, adds the cross, sends the error text
    or the correction, announces the end with the count reached, and
    leaves: count 0, game not started, no last player, the highscore and
    its holder as before, and a cooldown of the count plus one minutes, at
    least two, from the time of the last stretch. *)
Theorem X12_wrong_answer_ends_game (lm : libm) (m : Message) (g : Game)
    (text : reply) (now n1 n2 n3 t : Z) :
  reaches_game m = true -> cooling now g = false ->
  game_started g = true -> double_turn m g = false ->
  (0 <= current_count g)%Z -> (0 <= n3)%Z ->
  add_minutes n3 (Z.max 2 (current_count g + 1)) = Val t ->
  (exists ch msg,
     parse lm (str_strip (content m)) = Raises (ParsingError ch msg) /\
     text = ErrorText ch msg) \/
  (exists v,
     parse lm (str_strip (content m)) = Returns v /\
     py_eq_int v (current_count g + 1) = false /\ str_ok v = true /\
     text = WrongCount (author_mention m) (content m) v
                       (current_count g + 1)) ->
  run [(Completed, n1); (Completed, n2); (Completed, n3)]
      (on_message lm m now g)
  = ({| current_count := 0; game_started := false;
        cooldown_until := Some t; last_player_id := None;
        current_highscore := current_highscore g;
        current_highscore_player_name := current_highscore_player_name g |},
     Finished,
     [add_reaction CrossMark; send text;
      send (GameOver (current_count g) (Z.max 2 (current_count g + 1)))])
  /\ (n3 + 120000000 <= t)%Z.
Proof.
  intros Hr Hc Hs Hd Hcount Hn Ht Hparse.
  destruct (add_minutes_bound _ _ _ Hn Ht) as [Hb Heq].
  split; [|lia].
  rewrite on_message_in_game by done. unfold on_message_game.
  unfold double_turn in Hd.
  cbn [game_started last_player_id current_count set_cooldown_until].
  rewrite Hs, Hd. cbn [negb].
  assert (Hend : forall text', run [(Completed, n1); (Completed, n2);
                    (Completed, n3)]
      (end_game text' (Z.max 2 (current_count g + 1))
         (set_cooldown_until None g))
    = ({| current_count := 0; game_started := false;
          cooldown_until := Some t; last_player_id := None;
          current_highscore := current_highscore g;
          current_highscore_player_name :=
            current_highscore_player_name g |},
       Finished,
       [add_reaction CrossMark; send text';
        send (GameOver (current_count g)
                (Z.max 2 (current_count g + 1)))])).
  { intros text'. rewrite (run_end_game text' _ n1 n2 n3 t); try done.
    simpl. lia. }
  destruct Hparse as [(ch & msg & -> & ->)|(v & -> & -> & Hok & ->)].
  - apply Hend.
  - rewrite Hok, str_int_ok_small by lia. apply Hend.
Qed.

(** X12 at an instance: [4+5] where 3 was due. *)
Lemma X12_wrong_answer_ends_game_witness :
  run [(Completed, 10); (Completed, 20); (Completed, 30)]
      (on_message sample_libm (player_message 7 "4+5") 0
         (running_game 2 (Some 8%Z)))
  = ({| current_count := 0; game_started := false;
        cooldown_until := Some 180000030%Z; last_player_id := None;
        current_highscore := current_highscore (running_game 2 (Some 8%Z));
        current_highscore_player_name :=
          current_highscore_player_name (running_game 2 (Some 8%Z)) |},
     Finished,
     [add_reaction CrossMark;
      send (WrongCount "<@player>" "4+5" (VInt 9) 3);
      send (GameOver (current_count (running_game 2 (Some 8%Z)))
              (Z.max 2 (current_count (running_game 2 (Some 8%Z)) + 1)))]).
Proof.
  apply (X12_wrong_answer_ends_game sample_libm (player_message 7 "4+5")
           (running_game 2 (Some 8%Z))
           (WrongCount "<@player>" "4+5" (VInt 9) 3) 0 10 20 30 180000030);
    try reflexivity; try (simpl; lia).
  right. exists (VInt 9). by vm_compute.
Defined.

(** X13. Two turns in a row end the game, whatever the message says: in a
    started game with no cooldown on, a message of the last player is not
    evaluated, not even when it holds the right count; the handler adds
    the cross twice, sends the double-turn text and the end of the game,
    and leaves the state of a finished game. *)
Theorem X13_double_turn_ends_game (lm : libm) (m : Message) (g : Game)
    (now n0 n1 n2 n3 t : Z) :
  reaches_game m = true -> cooling now g = false ->
  game_started g = true -> double_turn m g = true ->
  (0 <= current_count g)%Z -> (0 <= n3)%Z ->
  add_minutes n3 (Z.max 2 (current_count g + 1)) = Val t ->
  run [(Completed, n0); (Completed, n1); (Completed, n2); (Completed, n3)]
      (on_message lm m now g)
  = ({| current_count := 0; game_started := false;
        cooldown_until := Some t; last_player_id := None;
        current_highscore := current_highscore g;
        current_highscore_player_name := current_highscore_player_name g |},
     Finished,
     [add_reaction CrossMark; add_reaction CrossMark;
      send (DoubleTurn (author_mention m));
      send (GameOver (current_count g) (Z.max 2 (current_count g + 1)))]).
Proof.
  intros Hr Hc Hs Hd Hcount Hn Ht.
  rewrite on_message_in_game by done. unfold on_message_game.
  unfold double_turn in Hd.
  cbn [game_started last_player_id current_count set_cooldown_until].
  rewrite Hs, Hd. cbn [negb].
  change (run (?x :: ?env) (?g0, await ?c ?k))
    with (let '(g', t', cs) := run env (k (snd x) g0) in (g', t', c :: cs)).
  cbn beta.
  rewrite (run_end_game _ _ n1 n2 n3 t); try done.
  simpl. lia.
Qed.

(** X13 at an instance: the last player sends the right count. *)
Lemma X13_double_turn_ends_game_witness :
  run [(Completed, 5); (Completed, 10); (Completed, 20); (Completed, 30)]
      (on_message sample_libm (player_message 8 "3") 0
         (running_game 2 (Some 8%Z)))
  = ({| current_count := 0; game_started := false;
        cooldown_until := Some 180000030%Z; last_player_id := None;
        current_highscore := current_highscore (running_game 2 (Some 8%Z));
        current_highscore_player_name :=
          current_highscore_player_name (running_game 2 (Some 8%Z)) |},
     Finished,
     [add_reaction CrossMark; add_reaction CrossMark;
      send (DoubleTurn (author_mention (player_message 8 "3")));
      send (GameOver (current_count (running_game 2 (Some 8%Z)))
              (Z.max 2 (current_count (running_game 2 (Some 8%Z)) + 1)))]).
Proof.
  apply (X13_double_turn_ends_game sample_libm (player_message 8 "3")
           (running_game 2 (Some 8%Z)) 0 5 10 20 30 180000030);
    try reflexivity; simpl; lia.
Defined.

(** X14. An exception that is no [ParsingError] neither counts nor ends
    the game.  In a started game with no cooldown on, when the author did
    not take the last turn and [parse] raises a built-in exception, or
    returns a wrong int of more than 4300 digits (which the reply cannot
    show), the handler stops with that exception before any call: no
    reaction, no reply, and the count, the last player and the highscore
    stay; only a cooldown that had run out is cleared. *)
Theorem X14_uncaught_exception_keeps_game (lm : libm) (m : Message)
    (g : Game) (now : Z) (e : py_exception)
    (env : list (await_result * Z)) :
  reaches_game m = true -> cooling now g = false ->
  game_started g = true -> double_turn m g = false ->
  parse lm (str_strip (content m)) = Raises (PyError e) \/
  (exists v,
     parse lm (str_strip (content m)) = Returns v /\
     py_eq_int v (current_count g + 1) = false /\ str_ok v = false /\
     e = ValueError) ->
  run env (on_message lm m now g)
  = (set_cooldown_until None g, Crashed (BuiltinError e), []).
Proof.
  intros Hr Hc Hs Hd Hparse.
  rewrite on_message_in_game by done. unfold on_message_game.
  unfold double_turn in Hd.
  cbn [game_started last_player_id current_count set_cooldown_until].
  rewrite Hs, Hd. cbn [negb].
  destruct Hparse as [->|(v & -> & -> & Hok & ->)].
  - by rewrite run_stopped by eauto.
  - rewrite Hok. simpl. by rewrite run_stopped by eauto.
Qed.

(** X14 at an instance: the fourth factorial of [3!!!!] is applied to
    720!, which [float] cannot take. *)
Lemma X14_uncaught_exception_keeps_game_witness :
  run [(Completed, 10)]
      (on_message sample_libm (player_message 7 "3!!!!") 0
         (running_game 2 (Some 8%Z)))
  = (set_cooldown_until None (running_game 2 (Some 8%Z)),
     Crashed (BuiltinError OverflowError), []).
Proof.
  apply (X14_uncaught_exception_keeps_game sample_libm
           (player_message 7 "3!!!!") (running_game 2 (Some 8%Z)) 0
           OverflowError [(Completed, 10)]);
    try reflexivity.
  left. by vm_compute.
Defined.

(** X15. [end_game] assigns the global variables only after its three
    calls: as long as it has not got three completed calls - it still
    waits, or a call raised - the game goes on as it was. *)
Theorem X15_game_over_needs_three_calls (text : reply) (cooldown : Z)
    (g : Game) (env : list (await_result * Z)) :
  map fst (firstn 3 env) <> [Completed; Completed; Completed] ->
  fst (fst (run env (end_game text cooldown g))) = g.
Proof.
  intros Hne. unfold end_game.
  destruct env as [|[[] n1] [|[[] n2] [|[[] n3] env]]]; simpl; try done;
    destruct (negb _); simpl; rewrite ?run_stopped by eauto; done.
Qed.

(** X15 at an instance: the second call fails. *)
Lemma X15_game_over_needs_three_calls_witness :
  fst (fst (run [(Completed, 1); (Failed, 2); (Completed, 3)]
              (end_game (ErrorText "/" DivisionByZero) 4
                 (running_game 3 (Some 8%Z)))))
  = running_game 3 (Some 8%Z).
Proof.
  apply (X15_game_over_needs_three_calls (ErrorText "/" DivisionByZero) 4
           (running_game 3 (Some 8%Z))
           [(Completed, 1); (Failed, 2); (Completed, 3)]).
  discriminate.
Defined.

(** X16. Before a game is started nothing is evaluated.  With no cooldown
    on, a message that gets to the game starts it exactly when its
    content, stripped and in lower case, is [start]; any other content,
    a valid expression too, gets the pause sign and the hint, and the
    count, the last player and the highscore stay either way, however far
    the handler runs. *)
Theorem X16_start (lm : libm) (m : Message) (now : Z) (g : Game) :
  reaches_game m = true -> cooling now g = false ->
  game_started g = false ->
  on_message lm m now g =
    (if str_lower (str_strip (content m)) =? "start"
     then (set_game_started true (set_cooldown_until None g),
           await (send GameStarted) finish)
     else (set_cooldown_until None g,
           await (add_reaction PauseButton) (fun _ g0 =>
             (g0, await (send TypeStart) finish)))) /\
  (game_started (fst (on_message lm m now g)) = true <->
   str_lower (str_strip (content m)) = "start") /\
  (forall env,
     fst (fst (run env (on_message lm m now g)))
     = fst (on_message lm m now g)).
Proof.
  intros Hr Hc Hs.
  assert (Heq : on_message lm m now g =
    (if str_lower (str_strip (content m)) =? "start"
     then (set_game_started true (set_cooldown_until None g),
           await (send GameStarted) finish)
     else (set_cooldown_until None g,
           await (add_reaction PauseButton) (fun _ g0 =>
             (g0, await (send TypeStart) finish))))).
  { rewrite on_message_in_game by done. unfold on_message_game.
    cbn [game_started set_cooldown_until]. by rewrite Hs. }
  split; [exact Heq|]. rewrite Heq.
  destruct (str_lower (str_strip (content m)) =? "start") eqn:Hstart.
  - apply String.eqb_eq in Hstart. split; [done|].
    intros [|[[] n1] env]; simpl; unfold finish;
      rewrite ?run_stopped by eauto; done.
  - apply String.eqb_neq in Hstart. split.
    + simpl. rewrite Hs. split; [done | by intros ?].
    + intros [|[[] n1] [|[[] n2] env]]; simpl; unfold finish;
        rewrite ?run_stopped by eauto; done.
Qed.

(** X16 at an instance: [ Start ] starts the game. *)
Lemma X16_start_witness :
  game_started
    (fst (on_message sample_libm (player_message 7 "  StArT ") 0
            initial_game)) = true.
Proof.
  apply (X16_start sample_libm (player_message 7 "  StArT ") 0 initial_game);
    reflexivity.
Defined.

Lemma normalize_float (val : pyval) (f : float) :
  normalize val = VFloat f -> is_integer f = false.
Proof.
  destruct val as [z|f0|c]; simpl; try done.
  destruct (is_integer f0) eqn:Hf; [done|]. by intros [= <-].
Qed.

Lemma parse_returns_normal (lm : libm) (input : string) (v : pyval) :
  parse lm input = Returns v -> exists val, v = normalize val.
Proof.
  unfold parse. destruct (parse_session lm input) as [v0 st|e st|] eqn:Hs;
    try done.
  intros [= <-]. unfold parse_session in Hs.
  destruct (len _ <=? _)%nat; [done|].
  destruct (parse_expression lm _ _) as [val st1|e st1|]; simpl in Hs;
    try done.
  destruct (negb _); [done|]. injection Hs as <- _. by exists val.
Qed.

(** X17. A float that [parse] returns is never whole: whole floats come
    back as ints.  So a result that [on_message] finds equal to the count
    plus one is that int (or a complex number), never a float. *)
Theorem X17_returned_floats_are_not_whole (lm : libm) (input : string)
    (v : pyval) :
  parse lm input = Returns v ->
  (forall f, v = VFloat f -> is_integer f = false) /\
  (forall n, py_eq_int v n = true -> v = VInt n \/ is_complex v = true).
Proof.
  intros Hp. destruct (parse_returns_normal lm input v Hp) as [val ->].
  split.
  - intros f Hf. by apply (normalize_float val).
  - intros n Hn. destruct (normalize val) as [z|f|c] eqn:Hv; simpl in *.
    + left. apply Z.eqb_eq in Hn. by subst.
    + unfold float_eq_int in Hn. by rewrite (normalize_float val f Hv) in Hn.
    + by right.
Qed.

(** X17 at an instance: [6/4] is 1.5. *)
Lemma X17_returned_floats_are_not_whole_witness :
  is_integer 1.5%float = false.
Proof.
  apply (X17_returned_floats_are_not_whole sample_libm "6/4"
           (VFloat 1.5%float)); reflexivity.
Defined.
